(** * Verification of the field renderer [src/kernels/rendering.ts]

    The TypeScript functions [getAt], [nativeSmoothStep], [drawGpu] and
    [drawCpu] are embedded as Rocq functions, statement by statement, and the
    sentences of the specification are proved or refuted about them.

    Numbers.  The functions are embedded twice.  In the first embedding a
    JavaScript [number] is an exact real extended with [Infinity],
    [-Infinity] and [NaN]: the special values and the rules that produce them
    (division by zero, [Infinity - Infinity], [0 * Infinity], comparisons
    with [NaN]) are those of the language, while binary64 rounding, overflow
    and the sign of zero are not modelled (a zero divisor is read as [+0],
    which is what every divisor of the kernels is when their raster and grid
    sizes are not negative).  It carries the statements about comparisons,
    indexing and data flow, and bounds that leave room for rounding.  In the
    second embedding, the module [B64], a [number] is a binary64 value, a
    primitive float of Rocq: every operation rounds, overflows and signs its
    zeros as the language does, and [Math.exp], whose result the language
    leaves to the implementation, is a parameter of the kernels.  It carries
    the statements that depend on rounding or overflow, and it runs.

    Arrays.  [field[y][x]] means what the executing backend makes of it, so
    the kernels take the index semantics as a parameter.  [jsIndex] is the
    semantics of the language itself: an index that is not a non-negative
    integer below the length yields [undefined], and indexing [undefined]
    throws a [TypeError].  A function therefore returns a [result].

    Drawing.  A kernel ends by calling [this.color(r, g, b)]; its model
    returns these three arguments.  [drawGpu_locals] and [drawCpu_locals]
    return all the [const] bindings of a run, so that statements about
    intermediate quantities ([x], [eEnergy], ...) are statements about the
    kernel. *)

From Stdlib Require Import Floats.
From Stdlib Require Import Reals Lra Lia List ZArith Bool.
Import ListNotations.
Open Scope R_scope.

(** * The model *)

(** ** JavaScript numbers *)

Inductive number : Type :=
| Fin (r : R)
| PInf
| NInf
| NaN.

Coercion Fin : R >-> number.

Declare Scope js_scope.
Delimit Scope js_scope with js.
Bind Scope js_scope with number.

Definition Rsign (r : R) : comparison :=
  match total_order_T r 0 with
  | inleft (left _) => Lt
  | inleft (right _) => Eq
  | inright _ => Gt
  end.

(** [(+-Infinity) * r] for a finite [r]; also [r / 0]. *)
Definition scale_inf (pos : bool) (r : R) : number :=
  match Rsign r with
  | Eq => NaN
  | Gt => if pos then PInf else NInf
  | Lt => if pos then NInf else PInf
  end.

Definition nneg (a : number) : number :=
  match a with
  | Fin r => Fin (- r)
  | PInf => NInf
  | NInf => PInf
  | NaN => NaN
  end.

Definition nadd (a b : number) : number :=
  match a, b with
  | NaN, _ | _, NaN => NaN
  | Fin r, Fin s => Fin (r + s)
  | PInf, NInf | NInf, PInf => NaN
  | PInf, _ | _, PInf => PInf
  | NInf, _ | _, NInf => NInf
  end.

Definition nsub (a b : number) : number := nadd a (nneg b).

Definition nmul (a b : number) : number :=
  match a, b with
  | NaN, _ | _, NaN => NaN
  | Fin r, Fin s => Fin (r * s)
  | Fin r, PInf | PInf, Fin r => scale_inf true r
  | Fin r, NInf | NInf, Fin r => scale_inf false r
  | PInf, PInf | NInf, NInf => PInf
  | PInf, NInf | NInf, PInf => NInf
  end.

Definition ndiv (a b : number) : number :=
  match a, b with
  | NaN, _ | _, NaN => NaN
  | Fin r, Fin s => if Req_dec_T s 0 then scale_inf true r else Fin (r / s)
  | Fin _, _ => Fin 0
  | PInf, Fin s => if Rlt_dec s 0 then NInf else PInf
  | NInf, Fin s => if Rlt_dec s 0 then PInf else NInf
  | _, _ => NaN
  end.

(** Truncation toward zero, as a real. *)
Definition Rtrunc (r : R) : R :=
  if Rle_dec 0 r then IZR (Int_part r) else - IZR (Int_part (- r)).

(** The remainder operator [%]: the result has the sign of the dividend. *)
Definition nrem (n d : number) : number :=
  match n, d with
  | NaN, _ | _, NaN => NaN
  | PInf, _ | NInf, _ => NaN
  | Fin r, Fin s => if Req_dec_T s 0 then NaN else Fin (r - s * Rtrunc (r / s))
  | Fin r, _ => Fin r
  end.

Definition nlt (a b : number) : bool :=
  match a, b with
  | NaN, _ | _, NaN => false
  | Fin r, Fin s => if Rlt_dec r s then true else false
  | Fin _, PInf => true
  | Fin _, NInf => false
  | PInf, _ => false
  | NInf, NInf => false
  | NInf, _ => true
  end.

Definition nle (a b : number) : bool :=
  match a, b with
  | NaN, _ | _, NaN => false
  | Fin r, Fin s => if Rle_dec r s then true else false
  | Fin _, PInf => true
  | Fin _, NInf => false
  | PInf, PInf => true
  | PInf, _ => false
  | NInf, _ => true
  end.

Definition nge (a b : number) : bool := nle b a.

Notation "a + b" := (nadd a b) : js_scope.
Notation "a - b" := (nsub a b) : js_scope.
Notation "a * b" := (nmul a b) : js_scope.
Notation "a / b" := (ndiv a b) : js_scope.
Notation "- a" := (nneg a) : js_scope.
Notation "a 'mod' b" := (nrem a b) (at level 40, no associativity) : js_scope.
Notation "a <? b" := (nlt a b) (at level 70, no associativity) : js_scope.
Notation "a <=? b" := (nle a b) (at level 70, no associativity) : js_scope.
Notation "a >=? b" := (nge a b) (at level 70, no associativity) : js_scope.

(** [Math.min]: [NaN] if either argument is. *)
Definition Math_min (a b : number) : number :=
  match a, b with
  | NaN, _ | _, NaN => NaN
  | _, _ => if nlt b a then b else a
  end.

(** [Math.round]: the nearest integer, ties toward [+Infinity]. *)
Definition Math_round (a : number) : number :=
  match a with
  | Fin r => Fin (IZR (Int_part (r + 1 / 2)))
  | _ => a
  end.

Definition Math_exp (a : number) : number :=
  match a with
  | Fin r => Fin (exp r)
  | PInf => PInf
  | NInf => Fin 0
  | NaN => NaN
  end.

Definition Math_sqrt (a : number) : number :=
  match a with
  | Fin r => if Rlt_dec r 0 then NaN else Fin (sqrt r)
  | PInf => PInf
  | _ => NaN
  end.

Definition Math_PI : number := Fin PI.

(** ** Values, exceptions and array indexing *)

(** What an array access can yield: a stored number or [undefined]. *)
Inductive value : Type :=
| Num (n : number)
| Undefined.

(** [ToNumber]: [undefined] becomes [NaN] in arithmetic. *)
Definition toNumber (v : value) : number :=
  match v with
  | Num n => n
  | Undefined => NaN
  end.

Inductive error : Type :=
| TypeError.

Inductive result (A : Type) : Type :=
| Ok (a : A)
| Throw (e : error).

Arguments Ok {A} a.
Arguments Throw {A} e.

Definition bind {A B : Type} (m : result A) (k : A -> result B) : result B :=
  match m with
  | Ok a => k a
  | Throw e => Throw e
  end.

Notation "x <- m ;; k" := (bind m (fun x => k))
  (at level 61, m at next level, right associativity).

Definition field : Type := list (list number).

(** The semantics of [field[y][x]] on the executing backend. *)
Definition indexer : Type := field -> number -> number -> result value.

(** A number used as an array index names an element only if it is a
    non-negative integer. *)
Definition as_index (n : number) : option nat :=
  match n with
  | Fin r =>
      let z := Int_part r in
      if Req_dec_T (IZR z) r
      then (if (0 <=? z)%Z then Some (Z.to_nat z) else None)
      else None
  | _ => None
  end.

Definition element {A : Type} (l : list A) (n : number) : option A :=
  match as_index n with
  | Some i => nth_error l i
  | None => None
  end.

(** Plain JavaScript: [field[y]] is [undefined] unless [y] is the index of a
    row, and reading a property of [undefined] throws a [TypeError]. *)
Definition jsIndex : indexer := fun f y x =>
  match element f y with
  | None => Throw TypeError
  | Some row =>
      Ok (match element row x with
          | Some v => Num v
          | None => Undefined
          end)
  end.

(** Modelled from the spec: the index semantics of the backend that runs the
    continuous variant, which is not part of [rendering.ts]; section 4.1
    says indices are used with truncation toward the stored index. *)
Definition truncIndex : indexer := fun f y x =>
  match y, x with
  | Fin ry, Fin rx => jsIndex f (Fin (Rtrunc ry)) (Fin (Rtrunc rx))
  | _, _ => jsIndex f y x
  end.

(** ** The kernels *)

Section Kernels.

Variable index : indexer.

Definition getAt (f : field) (shapeX shapeY x y : number) : result value :=
  if (x <? 0)%js || (x >=? shapeX)%js || (y <? 0)%js || (y >=? shapeY)%js
  then Ok (Num 0)
  else index f y x.

End Kernels.

Definition nativeSmoothStep (x : number) : number :=
  (if x <=? 0 then 0
   else if x >=? 1 then 1
   else 3 * x * x - 2 * x * x * x)%js.

(** [this.thread] and [this.output] of the running kernel. *)
Record kernel_this : Type := {
  thread_x : number;
  thread_y : number;
  output_x : number;
  output_y : number
}.

(** The arguments of [this.color]. *)
Record color : Type := {
  red : number;
  green : number;
  blue : number
}.

(** [gridSize[i]]. *)
Definition item (l : list number) (i : nat) : value :=
  match nth_error l i with
  | Some v => Num v
  | None => Undefined
  end.

(** The [const] bindings of one run of a drawing kernel, under their source
    names.  The continuous kernel has no [fx], [fy] of its own: there they
    repeat [x], [y]. *)
Module Locals.
Record t : Type := {
  gx : number;
  gy : number;
  fx : number;
  fy : number;
  x : number;
  y : number;
  fieldBrightness : number;
  eX : value;
  eY : value;
  eZ : value;
  eEnergy : number;
  mX : value;
  mY : value;
  mZ : value;
  mEnergy : number;
  permittivityValue : number;
  permeabilityValue : number;
  tileFactorX : number;
  tileFactorY : number;
  dxPermittivity : number;
  dyPermittivity : number;
  circleDistPermittivity : number;
  dxPermeability : number;
  dyPermeability : number;
  circleDistPermeability : number;
  bgPermittivity : number;
  bgPermeability : number;
  backgroundPermittivity : number;
  backgroundPermeability : number;
  background : number;
  pixel : color
}.
End Locals.

Section Drawing.

Variable index : indexer.

Local Open Scope js_scope.

Definition drawGpu_locals (this : kernel_this)
    (electricFieldX electricFieldY electricFieldZ : field)
    (magneticFieldX magneticFieldY magneticFieldZ : field)
    (permittivity permeability conductivity : field)
    (gridSize : list number) (cellSize : number) : result Locals.t :=
  let gx := toNumber (item gridSize 0) in
  let gy := toNumber (item gridSize 1) in
  let x := gx * thread_x this / output_x this in
  let y := gy * (1 - thread_y this / output_y this) in
  let fieldBrightness := (0.02 * 0.02) / (cellSize * cellSize) in
  eX <- getAt index electricFieldX gx gy x y ;;
  eY <- getAt index electricFieldY gx gy x y ;;
  eZ <- getAt index electricFieldZ gx gy x y ;;
  let eEnergy := fieldBrightness * fieldBrightness *
    (toNumber eX * toNumber eX + toNumber eY * toNumber eY + toNumber eZ * toNumber eZ) in
  mX <- getAt index magneticFieldX gx gy (x - 0.5) (y - 0.5) ;;
  mY <- getAt index magneticFieldY gx gy (x - 0.5) (y - 0.5) ;;
  mZ <- getAt index magneticFieldZ gx gy (x - 0.5) (y - 0.5) ;;
  let mEnergy := fieldBrightness * fieldBrightness *
    (toNumber mX * toNumber mX + toNumber mY * toNumber mY + toNumber mZ * toNumber mZ) in
  pe <- getAt index permittivity gx gy x y ;;
  let permittivityValue := 2 / (1 + Math_exp (- 0.5 * (toNumber pe - 1))) - 1 in
  pm <- getAt index permeability gx gy x y ;;
  let permeabilityValue := 2 / (1 + Math_exp (- 0.5 * (toNumber pm - 1))) - 1 in
  let tileFactorX := Math_min 1 (1 / Math_round (2 * gx / output_x this)) in
  let tileFactorY := Math_min 1 (1 / Math_round (2 * gy / output_y this)) in
  let dxPermittivity := ((tileFactorX * x) mod 1) - 0.5 in
  let dyPermittivity := ((tileFactorY * y) mod 1) - 0.5 in
  let circleDistPermittivity :=
    (dxPermittivity * dxPermittivity + dyPermittivity * dyPermittivity)
    * Math_sqrt (2 * Math_PI) in
  let dxPermeability := ((tileFactorX * x + 0.5) mod 1) - 0.5 in
  let dyPermeability := ((tileFactorY * y + 0.5) mod 1) - 0.5 in
  let circleDistPermeability :=
    (dxPermeability * dxPermeability + dyPermeability * dyPermeability)
    * Math_sqrt (2 * Math_PI) in
  let bgPermittivity := - nativeSmoothStep circleDistPermittivity in
  let bgPermeability := - nativeSmoothStep circleDistPermeability in
  let backgroundPermittivity :=
    if permittivityValue >=? 0.1 then 1 + bgPermittivity else bgPermittivity in
  let backgroundPermeability :=
    if permeabilityValue >=? 0.1 then 1 + bgPermeability else bgPermeability in
  co <- getAt index conductivity gx gy x y ;;
  let background := toNumber co / 2000 in
  Ok {| Locals.gx := gx; Locals.gy := gy; Locals.fx := x; Locals.fy := y;
        Locals.x := x; Locals.y := y;
        Locals.fieldBrightness := fieldBrightness;
        Locals.eX := eX; Locals.eY := eY; Locals.eZ := eZ;
        Locals.eEnergy := eEnergy;
        Locals.mX := mX; Locals.mY := mY; Locals.mZ := mZ;
        Locals.mEnergy := mEnergy;
        Locals.permittivityValue := permittivityValue;
        Locals.permeabilityValue := permeabilityValue;
        Locals.tileFactorX := tileFactorX; Locals.tileFactorY := tileFactorY;
        Locals.dxPermittivity := dxPermittivity;
        Locals.dyPermittivity := dyPermittivity;
        Locals.circleDistPermittivity := circleDistPermittivity;
        Locals.dxPermeability := dxPermeability;
        Locals.dyPermeability := dyPermeability;
        Locals.circleDistPermeability := circleDistPermeability;
        Locals.bgPermittivity := bgPermittivity;
        Locals.bgPermeability := bgPermeability;
        Locals.backgroundPermittivity := backgroundPermittivity;
        Locals.backgroundPermeability := backgroundPermeability;
        Locals.background := background;
        Locals.pixel :=
          {| red := Math_min 1
               (background + eEnergy + 0.8 * backgroundPermittivity * permittivityValue);
             green := Math_min 1 (background + eEnergy + mEnergy);
             blue := Math_min 1
               (background + mEnergy + 0.8 * backgroundPermeability * permeabilityValue) |}
     |}.

Definition drawCpu_locals (this : kernel_this)
    (electricFieldX electricFieldY electricFieldZ : field)
    (magneticFieldX magneticFieldY magneticFieldZ : field)
    (permittivity permeability conductivity : field)
    (gridSize : list number) (cellSize : number) : result Locals.t :=
  let gx := toNumber (item gridSize 0) in
  let gy := toNumber (item gridSize 1) in
  let fx := gx * thread_x this / output_x this in
  let fy := gy * (1 - thread_y this / output_y this) in
  let x := Math_round fx in
  let y := Math_round fy in
  let fieldBrightness := (0.02 * 0.02) / (cellSize * cellSize) in
  eX <- getAt index electricFieldX gx gy x y ;;
  eY <- getAt index electricFieldY gx gy x y ;;
  eZ <- getAt index electricFieldZ gx gy x y ;;
  let eEnergy := fieldBrightness * fieldBrightness *
    (toNumber eX * toNumber eX + toNumber eY * toNumber eY + toNumber eZ * toNumber eZ) in
  mX <- getAt index magneticFieldX gx gy x y ;;
  mY <- getAt index magneticFieldY gx gy x y ;;
  mZ <- getAt index magneticFieldZ gx gy x y ;;
  let mEnergy := fieldBrightness * fieldBrightness *
    (toNumber mX * toNumber mX + toNumber mY * toNumber mY + toNumber mZ * toNumber mZ) in
  pe <- getAt index permittivity gx gy x y ;;
  let permittivityValue := 2 / (1 + Math_exp (- 0.5 * (toNumber pe - 1))) - 1 in
  pm <- getAt index permeability gx gy x y ;;
  let permeabilityValue := 2 / (1 + Math_exp (- 0.5 * (toNumber pm - 1))) - 1 in
  let tileFactorX := Math_min 1 (1 / Math_round (2 * gx / output_x this)) in
  let tileFactorY := Math_min 1 (1 / Math_round (2 * gy / output_y this)) in
  let dxPermittivity := ((tileFactorX * fx) mod 1) - 0.5 in
  let dyPermittivity := ((tileFactorY * fy) mod 1) - 0.5 in
  let circleDistPermittivity :=
    (dxPermittivity * dxPermittivity + dyPermittivity * dyPermittivity)
    * Math_sqrt (2 * Math_PI) in
  let dxPermeability := ((tileFactorX * fx + 0.5) mod 1) - 0.5 in
  let dyPermeability := ((tileFactorY * fy + 0.5) mod 1) - 0.5 in
  let circleDistPermeability :=
    (dxPermeability * dxPermeability + dyPermeability * dyPermeability)
    * Math_sqrt (2 * Math_PI) in
  let bgPermittivity := - nativeSmoothStep circleDistPermittivity in
  let bgPermeability := - nativeSmoothStep circleDistPermeability in
  let backgroundPermittivity :=
    if permittivityValue >=? 0.1 then 1 + bgPermittivity else bgPermittivity in
  let backgroundPermeability :=
    if permeabilityValue >=? 0.1 then 1 + bgPermeability else bgPermeability in
  co <- getAt index conductivity gx gy x y ;;
  let background := toNumber co / 2000 in
  Ok {| Locals.gx := gx; Locals.gy := gy; Locals.fx := fx; Locals.fy := fy;
        Locals.x := x; Locals.y := y;
        Locals.fieldBrightness := fieldBrightness;
        Locals.eX := eX; Locals.eY := eY; Locals.eZ := eZ;
        Locals.eEnergy := eEnergy;
        Locals.mX := mX; Locals.mY := mY; Locals.mZ := mZ;
        Locals.mEnergy := mEnergy;
        Locals.permittivityValue := permittivityValue;
        Locals.permeabilityValue := permeabilityValue;
        Locals.tileFactorX := tileFactorX; Locals.tileFactorY := tileFactorY;
        Locals.dxPermittivity := dxPermittivity;
        Locals.dyPermittivity := dyPermittivity;
        Locals.circleDistPermittivity := circleDistPermittivity;
        Locals.dxPermeability := dxPermeability;
        Locals.dyPermeability := dyPermeability;
        Locals.circleDistPermeability := circleDistPermeability;
        Locals.bgPermittivity := bgPermittivity;
        Locals.bgPermeability := bgPermeability;
        Locals.backgroundPermittivity := backgroundPermittivity;
        Locals.backgroundPermeability := backgroundPermeability;
        Locals.background := background;
        Locals.pixel :=
          {| red := Math_min 1
               (background + eEnergy + 0.8 * backgroundPermittivity * permittivityValue);
             green := Math_min 1 (background + eEnergy + mEnergy);
             blue := Math_min 1
               (background + mEnergy + 0.8 * backgroundPermeability * permeabilityValue) |}
     |}.

(** The kernels proper: what is handed to [this.color]. *)
Definition drawGpu this eX eY eZ mX mY mZ permittivity permeability conductivity
    gridSize cellSize : result color :=
  l <- drawGpu_locals this eX eY eZ mX mY mZ permittivity permeability conductivity
         gridSize cellSize ;;
  Ok (Locals.pixel l).

Definition drawCpu this eX eY eZ mX mY mZ permittivity permeability conductivity
    gridSize cellSize : result color :=
  l <- drawCpu_locals this eX eY eZ mX mY mZ permittivity permeability conductivity
         gridSize cellSize ;;
  Ok (Locals.pixel l).

End Drawing.

(** * The same functions on binary64

    The functions once more, line for line, with [number] read as the
    binary64 values of the language itself: Rocq's primitive floats. *)

Set Warnings "-inexact-float".

Module B64.

Local Open Scope float_scope.

(** ** Numbers *)

(** The integer a number denotes when it is integral; [-0] denotes 0. *)
Definition as_integer (n : float) : option Z :=
  match Prim2SF n with
  | S754_zero _ => Some 0%Z
  | S754_finite s m (Zneg k) =>
      if (Zpos m mod 2 ^ Zpos k =? 0)%Z
      then Some (cond_Zopp s (Zpos m / 2 ^ Zpos k))%Z
      else None
  | S754_finite s m e => Some (cond_Zopp s (Zpos m * 2 ^ e))%Z
  | _ => None
  end.

(** The number of an integer; [s] is the sign of a zero result. *)
Definition of_integer (s : bool) (z : Z) : float :=
  match z with
  | Z0 => if s then neg_zero else zero
  | _ => SF2Prim (binary_normalize prec emax z 0 false)
  end.

(** [Math.min]: [NaN] if either argument is, and [-0] below [+0]. *)
Definition Math_min (a b : float) : float :=
  if is_nan a || is_nan b then nan
  else if b <? a then b
  else if a <? b then a
  else if get_sign b then b else a.

(** [Math.round]: the nearest integer, ties toward [+Infinity]; the sign of
    the argument is kept where the result is zero. *)
Definition Math_round (a : float) : float :=
  match Prim2SF a with
  | S754_finite s m (Zneg k) =>
      let d := (2 ^ Zpos k)%Z in
      of_integer s ((2 * cond_Zopp s (Zpos m) + d) / (2 * d))%Z
  | _ => a
  end.

(** The remainder operator [%]: exact, with the sign of the dividend. *)
Definition rem (n d : float) : float :=
  match Prim2SF n, Prim2SF d with
  | S754_nan, _ | _, S754_nan => nan
  | S754_infinity _, _ => nan
  | _, S754_zero _ => nan
  | S754_zero _, _ => n
  | S754_finite _ _ _, S754_infinity _ => n
  | S754_finite s mn en, S754_finite _ md ed =>
      let e := Z.min en ed in
      let r := ((Zpos mn * 2 ^ (en - e)) mod (Zpos md * 2 ^ (ed - e)))%Z in
      match r with
      | Z0 => if s then neg_zero else zero
      | _ => SF2Prim (binary_normalize prec emax (cond_Zopp s r) e false)
      end
  end.

Definition Math_sqrt (a : float) : float := PrimFloat.sqrt a.

Definition Math_PI : float := 3.141592653589793.

(** ** Values and array indexing *)

Inductive value : Type :=
| Num (n : float)
| Undefined.

Definition toNumber (v : value) : float :=
  match v with
  | Num n => n
  | Undefined => nan
  end.

Definition field : Type := list (list float).

Definition indexer : Type := field -> float -> float -> result value.

Definition element {A : Type} (l : list A) (n : float) : option A :=
  match as_integer n with
  | Some z =>
      if (0 <=? z)%Z && (z <? Z.of_nat (length l))%Z
      then nth_error l (Z.to_nat z)
      else None
  | None => None
  end.

Definition jsIndex : indexer := fun f y x =>
  match element f y with
  | None => Throw TypeError
  | Some row =>
      Ok (match element row x with
          | Some v => Num v
          | None => Undefined
          end)
  end.

(** ** The kernels *)

Definition nativeSmoothStep (x : float) : float :=
  if x <=? 0 then 0
  else if 1 <=? x then 1
  else 3 * x * x - 2 * x * x * x.

Record kernel_this : Type := {
  thread_x : float;
  thread_y : float;
  output_x : float;
  output_y : float
}.

Record color : Type := {
  red : float;
  green : float;
  blue : float
}.

Definition item (l : list float) (i : nat) : value :=
  match nth_error l i with
  | Some v => Num v
  | None => Undefined
  end.

Module Locals.
Record t : Type := {
  gx : float;
  gy : float;
  fx : float;
  fy : float;
  x : float;
  y : float;
  fieldBrightness : float;
  eX : value;
  eY : value;
  eZ : value;
  eEnergy : float;
  mX : value;
  mY : value;
  mZ : value;
  mEnergy : float;
  permittivityValue : float;
  permeabilityValue : float;
  tileFactorX : float;
  tileFactorY : float;
  dxPermittivity : float;
  dyPermittivity : float;
  circleDistPermittivity : float;
  dxPermeability : float;
  dyPermeability : float;
  circleDistPermeability : float;
  bgPermittivity : float;
  bgPermeability : float;
  backgroundPermittivity : float;
  backgroundPermeability : float;
  background : float;
  pixel : color
}.
End Locals.

Section Kernels.

(** [Math.exp], whose result the language leaves to the implementation: the
    kernels are run with any function in its place. *)
Variable Math_exp : float -> float.

Variable index : indexer.

Definition getAt (f : field) (shapeX shapeY x y : float) : result value :=
  if (x <? 0) || (shapeX <=? x) || (y <? 0) || (shapeY <=? y)
  then Ok (Num 0)
  else index f y x.

Definition drawGpu_locals (this : kernel_this)
    (electricFieldX electricFieldY electricFieldZ : field)
    (magneticFieldX magneticFieldY magneticFieldZ : field)
    (permittivity permeability conductivity : field)
    (gridSize : list float) (cellSize : float) : result Locals.t :=
  let gx := toNumber (item gridSize 0) in
  let gy := toNumber (item gridSize 1) in
  let x := gx * thread_x this / output_x this in
  let y := gy * (1 - thread_y this / output_y this) in
  let fieldBrightness := (0.02 * 0.02) / (cellSize * cellSize) in
  eX <- getAt electricFieldX gx gy x y ;;
  eY <- getAt electricFieldY gx gy x y ;;
  eZ <- getAt electricFieldZ gx gy x y ;;
  let eEnergy := fieldBrightness * fieldBrightness *
    (toNumber eX * toNumber eX + toNumber eY * toNumber eY + toNumber eZ * toNumber eZ) in
  mX <- getAt magneticFieldX gx gy (x - 0.5) (y - 0.5) ;;
  mY <- getAt magneticFieldY gx gy (x - 0.5) (y - 0.5) ;;
  mZ <- getAt magneticFieldZ gx gy (x - 0.5) (y - 0.5) ;;
  let mEnergy := fieldBrightness * fieldBrightness *
    (toNumber mX * toNumber mX + toNumber mY * toNumber mY + toNumber mZ * toNumber mZ) in
  pe <- getAt permittivity gx gy x y ;;
  let permittivityValue := 2 / (1 + Math_exp (- 0.5 * (toNumber pe - 1))) - 1 in
  pm <- getAt permeability gx gy x y ;;
  let permeabilityValue := 2 / (1 + Math_exp (- 0.5 * (toNumber pm - 1))) - 1 in
  let tileFactorX := Math_min 1 (1 / Math_round (2 * gx / output_x this)) in
  let tileFactorY := Math_min 1 (1 / Math_round (2 * gy / output_y this)) in
  let dxPermittivity := rem (tileFactorX * x) 1 - 0.5 in
  let dyPermittivity := rem (tileFactorY * y) 1 - 0.5 in
  let circleDistPermittivity :=
    (dxPermittivity * dxPermittivity + dyPermittivity * dyPermittivity)
    * Math_sqrt (2 * Math_PI) in
  let dxPermeability := rem (tileFactorX * x + 0.5) 1 - 0.5 in
  let dyPermeability := rem (tileFactorY * y + 0.5) 1 - 0.5 in
  let circleDistPermeability :=
    (dxPermeability * dxPermeability + dyPermeability * dyPermeability)
    * Math_sqrt (2 * Math_PI) in
  let bgPermittivity := - nativeSmoothStep circleDistPermittivity in
  let bgPermeability := - nativeSmoothStep circleDistPermeability in
  let backgroundPermittivity :=
    if 0.1 <=? permittivityValue then 1 + bgPermittivity else bgPermittivity in
  let backgroundPermeability :=
    if 0.1 <=? permeabilityValue then 1 + bgPermeability else bgPermeability in
  co <- getAt conductivity gx gy x y ;;
  let background := toNumber co / 2000 in
  Ok {| Locals.gx := gx; Locals.gy := gy; Locals.fx := x; Locals.fy := y;
        Locals.x := x; Locals.y := y;
        Locals.fieldBrightness := fieldBrightness;
        Locals.eX := eX; Locals.eY := eY; Locals.eZ := eZ;
        Locals.eEnergy := eEnergy;
        Locals.mX := mX; Locals.mY := mY; Locals.mZ := mZ;
        Locals.mEnergy := mEnergy;
        Locals.permittivityValue := permittivityValue;
        Locals.permeabilityValue := permeabilityValue;
        Locals.tileFactorX := tileFactorX; Locals.tileFactorY := tileFactorY;
        Locals.dxPermittivity := dxPermittivity;
        Locals.dyPermittivity := dyPermittivity;
        Locals.circleDistPermittivity := circleDistPermittivity;
        Locals.dxPermeability := dxPermeability;
        Locals.dyPermeability := dyPermeability;
        Locals.circleDistPermeability := circleDistPermeability;
        Locals.bgPermittivity := bgPermittivity;
        Locals.bgPermeability := bgPermeability;
        Locals.backgroundPermittivity := backgroundPermittivity;
        Locals.backgroundPermeability := backgroundPermeability;
        Locals.background := background;
        Locals.pixel :=
          {| red := Math_min 1
               (background + eEnergy + 0.8 * backgroundPermittivity * permittivityValue);
             green := Math_min 1 (background + eEnergy + mEnergy);
             blue := Math_min 1
               (background + mEnergy + 0.8 * backgroundPermeability * permeabilityValue) |}
     |}.

Definition drawCpu_locals (this : kernel_this)
    (electricFieldX electricFieldY electricFieldZ : field)
    (magneticFieldX magneticFieldY magneticFieldZ : field)
    (permittivity permeability conductivity : field)
    (gridSize : list float) (cellSize : float) : result Locals.t :=
  let gx := toNumber (item gridSize 0) in
  let gy := toNumber (item gridSize 1) in
  let fx := gx * thread_x this / output_x this in
  let fy := gy * (1 - thread_y this / output_y this) in
  let x := Math_round fx in
  let y := Math_round fy in
  let fieldBrightness := (0.02 * 0.02) / (cellSize * cellSize) in
  eX <- getAt electricFieldX gx gy x y ;;
  eY <- getAt electricFieldY gx gy x y ;;
  eZ <- getAt electricFieldZ gx gy x y ;;
  let eEnergy := fieldBrightness * fieldBrightness *
    (toNumber eX * toNumber eX + toNumber eY * toNumber eY + toNumber eZ * toNumber eZ) in
  mX <- getAt magneticFieldX gx gy x y ;;
  mY <- getAt magneticFieldY gx gy x y ;;
  mZ <- getAt magneticFieldZ gx gy x y ;;
  let mEnergy := fieldBrightness * fieldBrightness *
    (toNumber mX * toNumber mX + toNumber mY * toNumber mY + toNumber mZ * toNumber mZ) in
  pe <- getAt permittivity gx gy x y ;;
  let permittivityValue := 2 / (1 + Math_exp (- 0.5 * (toNumber pe - 1))) - 1 in
  pm <- getAt permeability gx gy x y ;;
  let permeabilityValue := 2 / (1 + Math_exp (- 0.5 * (toNumber pm - 1))) - 1 in
  let tileFactorX := Math_min 1 (1 / Math_round (2 * gx / output_x this)) in
  let tileFactorY := Math_min 1 (1 / Math_round (2 * gy / output_y this)) in
  let dxPermittivity := rem (tileFactorX * fx) 1 - 0.5 in
  let dyPermittivity := rem (tileFactorY * fy) 1 - 0.5 in
  let circleDistPermittivity :=
    (dxPermittivity * dxPermittivity + dyPermittivity * dyPermittivity)
    * Math_sqrt (2 * Math_PI) in
  let dxPermeability := rem (tileFactorX * fx + 0.5) 1 - 0.5 in
  let dyPermeability := rem (tileFactorY * fy + 0.5) 1 - 0.5 in
  let circleDistPermeability :=
    (dxPermeability * dxPermeability + dyPermeability * dyPermeability)
    * Math_sqrt (2 * Math_PI) in
  let bgPermittivity := - nativeSmoothStep circleDistPermittivity in
  let bgPermeability := - nativeSmoothStep circleDistPermeability in
  let backgroundPermittivity :=
    if 0.1 <=? permittivityValue then 1 + bgPermittivity else bgPermittivity in
  let backgroundPermeability :=
    if 0.1 <=? permeabilityValue then 1 + bgPermeability else bgPermeability in
  co <- getAt conductivity gx gy x y ;;
  let background := toNumber co / 2000 in
  Ok {| Locals.gx := gx; Locals.gy := gy; Locals.fx := fx; Locals.fy := fy;
        Locals.x := x; Locals.y := y;
        Locals.fieldBrightness := fieldBrightness;
        Locals.eX := eX; Locals.eY := eY; Locals.eZ := eZ;
        Locals.eEnergy := eEnergy;
        Locals.mX := mX; Locals.mY := mY; Locals.mZ := mZ;
        Locals.mEnergy := mEnergy;
        Locals.permittivityValue := permittivityValue;
        Locals.permeabilityValue := permeabilityValue;
        Locals.tileFactorX := tileFactorX; Locals.tileFactorY := tileFactorY;
        Locals.dxPermittivity := dxPermittivity;
        Locals.dyPermittivity := dyPermittivity;
        Locals.circleDistPermittivity := circleDistPermittivity;
        Locals.dxPermeability := dxPermeability;
        Locals.dyPermeability := dyPermeability;
        Locals.circleDistPermeability := circleDistPermeability;
        Locals.bgPermittivity := bgPermittivity;
        Locals.bgPermeability := bgPermeability;
        Locals.backgroundPermittivity := backgroundPermittivity;
        Locals.backgroundPermeability := backgroundPermeability;
        Locals.background := background;
        Locals.pixel :=
          {| red := Math_min 1
               (background + eEnergy + 0.8 * backgroundPermittivity * permittivityValue);
             green := Math_min 1 (background + eEnergy + mEnergy);
             blue := Math_min 1
               (background + mEnergy + 0.8 * backgroundPermeability * permeabilityValue) |}
     |}.

Definition drawGpu this eX eY eZ mX mY mZ permittivity permeability conductivity
    gridSize cellSize : result color :=
  l <- drawGpu_locals this eX eY eZ mX mY mZ permittivity permeability conductivity
         gridSize cellSize ;;
  Ok (Locals.pixel l).

Definition drawCpu this eX eY eZ mX mY mZ permittivity permeability conductivity
    gridSize cellSize : result color :=
  l <- drawCpu_locals this eX eY eZ mX mY mZ permittivity permeability conductivity
         gridSize cellSize ;;
  Ok (Locals.pixel l).

End Kernels.

End B64.


(** * The vocabulary of the statements *)

(** ** Fields and backends *)

(** [f] has at least [sy] rows, the first [sy] of length at least [sx]. *)
Definition well_shaped (f : field) (sx sy : nat) : Prop :=
  forall j, (j < sy)%nat ->
    exists row, nth_error f j = Some row /\ (sx <= length row)%nat.

Definition entry (f : field) (n : number) : Prop :=
  exists row, In row f /\ In n row.

(** [field[j][i]] when both indices are in bounds. *)
Definition stored (f : field) (j i : nat) : option number :=
  match nth_error f j with
  | Some row => nth_error row i
  | None => None
  end.

Definition finite (n : number) : Prop := exists r, n = Fin r.

Definition finite_field (f : field) : Prop :=
  forall n, entry f n -> finite n.

Definition zero_field (f : field) : Prop :=
  forall n, entry f n -> n = Fin 0.

(** All nine fields of a render satisfy [P], in argument order. *)
Definition all_fields (P : field -> Prop)
    (fEX fEY fEZ fMX fMY fMZ fPe fPm fCo : field) : Prop :=
  P fEX /\ P fEY /\ P fEZ /\ P fMX /\ P fMY /\ P fMZ /\ P fPe /\ P fPm /\ P fCo.

(** A sampled value that is a number: the zero fill or an entry of [f]. *)
Definition from_field (f : field) (v : value) : Prop :=
  exists n, v = Num n /\ (n = Fin 0 \/ entry f n).

(** What a backend must offer to run a kernel: the snapped kernel indexes
    with integers only, the continuous one with any in-range real. *)
Definition integer_backend (ix : indexer) : Prop :=
  forall f sx sy i j, well_shaped f sx sy -> (i < sx)%nat -> (j < sy)%nat ->
    exists n, ix f (Fin (INR j)) (Fin (INR i)) = Ok (Num n) /\ entry f n.

Definition fractional_backend (ix : indexer) : Prop :=
  forall f sx sy rx ry, well_shaped f sx sy ->
    0 <= rx < INR sx -> 0 <= ry < INR sy ->
    exists n, ix f (Fin ry) (Fin rx) = Ok (Num n) /\ entry f n.

(** ** Pixels and grid coordinates *)

(** The kernel context of pixel [(px, py)] of a [W] by [H] raster, and the
    [gridSize] argument of a [gx] by [gy] grid. *)
Definition pixel_of (px py W H : nat) : kernel_this :=
  {| thread_x := Fin (INR px); thread_y := Fin (INR py);
     output_x := Fin (INR W); output_y := Fin (INR H) |}.

Definition grid_of (gx gy : nat) : list number := [Fin (INR gx); Fin (INR gy)].

(** The grid coordinate of a pixel as a real, and [Math.round] on reals. *)
Definition real_x (gx px W : nat) : R := INR gx * INR px / INR W.

Definition real_y (gy py H : nat) : R := INR gy * (1 - INR py / INR H).

Definition round_real (r : R) : R := IZR (Int_part (r + 1 / 2)).

(** ** The helpers on reals *)

(** On every real the smoothstep helper is the clamped cubic. *)
Definition smooth_real (t : R) : R :=
  if Rle_dec t 0 then 0 else if Rle_dec 1 t then 1 else 3 * t ^ 2 - 2 * t ^ 3.

(** The logistic map of a material constant, on reals. *)
Definition material_real (v : R) : R := 2 / (1 + exp (- 0.5 * (v - 1))) - 1.


(** ** The two kernels as sampling followed by shading

    Neither kernel has a statement that can throw apart from its nine calls
    of [getAt], so each is its samples followed by a pure computation. *)

Section Shade.

Local Open Scope js_scope.

(** Step 1 of both kernels: the grid coordinate of the running pixel. *)
Definition grid_x (this : kernel_this) (gridSize : list number) : number :=
  toNumber (item gridSize 0) * thread_x this / output_x this.

Definition grid_y (this : kernel_this) (gridSize : list number) : number :=
  toNumber (item gridSize 1) * (1 - thread_y this / output_y this).

(** Everything the kernels compute from the sampled values: [x], [y] are the
    sampling coordinate, [fx], [fy] the coordinate used for the tiling. *)
Definition shade (this : kernel_this) (gx gy fx fy x y cellSize : number)
    (eX eY eZ mX mY mZ pe pm co : value) : Locals.t :=
  let fieldBrightness := (0.02 * 0.02) / (cellSize * cellSize) in
  let eEnergy := fieldBrightness * fieldBrightness *
    (toNumber eX * toNumber eX + toNumber eY * toNumber eY + toNumber eZ * toNumber eZ) in
  let mEnergy := fieldBrightness * fieldBrightness *
    (toNumber mX * toNumber mX + toNumber mY * toNumber mY + toNumber mZ * toNumber mZ) in
  let permittivityValue := 2 / (1 + Math_exp (- 0.5 * (toNumber pe - 1))) - 1 in
  let permeabilityValue := 2 / (1 + Math_exp (- 0.5 * (toNumber pm - 1))) - 1 in
  let tileFactorX := Math_min 1 (1 / Math_round (2 * gx / output_x this)) in
  let tileFactorY := Math_min 1 (1 / Math_round (2 * gy / output_y this)) in
  let dxPermittivity := ((tileFactorX * fx) mod 1) - 0.5 in
  let dyPermittivity := ((tileFactorY * fy) mod 1) - 0.5 in
  let circleDistPermittivity :=
    (dxPermittivity * dxPermittivity + dyPermittivity * dyPermittivity)
    * Math_sqrt (2 * Math_PI) in
  let dxPermeability := ((tileFactorX * fx + 0.5) mod 1) - 0.5 in
  let dyPermeability := ((tileFactorY * fy + 0.5) mod 1) - 0.5 in
  let circleDistPermeability :=
    (dxPermeability * dxPermeability + dyPermeability * dyPermeability)
    * Math_sqrt (2 * Math_PI) in
  let bgPermittivity := - nativeSmoothStep circleDistPermittivity in
  let bgPermeability := - nativeSmoothStep circleDistPermeability in
  let backgroundPermittivity :=
    if permittivityValue >=? 0.1 then 1 + bgPermittivity else bgPermittivity in
  let backgroundPermeability :=
    if permeabilityValue >=? 0.1 then 1 + bgPermeability else bgPermeability in
  let background := toNumber co / 2000 in
  {| Locals.gx := gx; Locals.gy := gy; Locals.fx := fx; Locals.fy := fy;
     Locals.x := x; Locals.y := y;
     Locals.fieldBrightness := fieldBrightness;
     Locals.eX := eX; Locals.eY := eY; Locals.eZ := eZ;
     Locals.eEnergy := eEnergy;
     Locals.mX := mX; Locals.mY := mY; Locals.mZ := mZ;
     Locals.mEnergy := mEnergy;
     Locals.permittivityValue := permittivityValue;
     Locals.permeabilityValue := permeabilityValue;
     Locals.tileFactorX := tileFactorX; Locals.tileFactorY := tileFactorY;
     Locals.dxPermittivity := dxPermittivity;
     Locals.dyPermittivity := dyPermittivity;
     Locals.circleDistPermittivity := circleDistPermittivity;
     Locals.dxPermeability := dxPermeability;
     Locals.dyPermeability := dyPermeability;
     Locals.circleDistPermeability := circleDistPermeability;
     Locals.bgPermittivity := bgPermittivity;
     Locals.bgPermeability := bgPermeability;
     Locals.backgroundPermittivity := backgroundPermittivity;
     Locals.backgroundPermeability := backgroundPermeability;
     Locals.background := background;
     Locals.pixel :=
       {| red := Math_min 1
            (background + eEnergy + 0.8 * backgroundPermittivity * permittivityValue);
          green := Math_min 1 (background + eEnergy + mEnergy);
          blue := Math_min 1
            (background + mEnergy + 0.8 * backgroundPermeability * permeabilityValue) |}
  |}.

(** The nine samples in source order: the electric fields at [(ex, ey)], the
    magnetic fields at [(mx, my)], the material fields at [(ex, ey)]. *)
Definition sample9 (ix : indexer) (gx gy ex ey mx my : number)
    (fEX fEY fEZ fMX fMY fMZ fPe fPm fCo : field)
    (k : value -> value -> value -> value -> value -> value ->
         value -> value -> value -> Locals.t) : result Locals.t :=
  eX <- getAt ix fEX gx gy ex ey ;;
  eY <- getAt ix fEY gx gy ex ey ;;
  eZ <- getAt ix fEZ gx gy ex ey ;;
  mX <- getAt ix fMX gx gy mx my ;;
  mY <- getAt ix fMY gx gy mx my ;;
  mZ <- getAt ix fMZ gx gy mx my ;;
  pe <- getAt ix fPe gx gy ex ey ;;
  pm <- getAt ix fPm gx gy ex ey ;;
  co <- getAt ix fCo gx gy ex ey ;;
  Ok (k eX eY eZ mX mY mZ pe pm co).

End Shade.

(** ** Properties of channels *)

Definition at_most_one (n : number) : Prop := exists r, n = Fin r /\ r <= 1.

Definition nan_or_at_most_one (n : number) : Prop := n = NaN \/ at_most_one n.

Definition nan_or_one (n : number) : Prop := n = NaN \/ n = Fin 1.

(** The values an energy term can take on exact reals: finite, or
    [Infinity] or [NaN] when the cell size is zero. *)
Definition energy_like (n : number) : Prop := n = NaN \/ n = PInf \/ finite n.

(** On exact reals: every channel is [NaN] or at most 1, and finite and at
    most 1 unless the cell size is zero. *)
Definition channels_bounded (c : R) (col : color) : Prop :=
  (nan_or_at_most_one (red col) /\ nan_or_at_most_one (green col) /\
   nan_or_at_most_one (blue col)) /\
  (c <> 0 ->
   at_most_one (red col) /\ at_most_one (green col) /\ at_most_one (blue col)).

(** Every channel is [NaN] or a finite value that is at most 1. *)
Definition channels_capped (col : color) : Prop :=
  nan_or_at_most_one (red col) /\ nan_or_at_most_one (green col) /\
  nan_or_at_most_one (blue col).




(** The nine samples of a run are the numbers [v1] to [v9]: the six that
    are bound to a [const], and the three that are used in place, through
    the material values and the conductivity term computed from them. *)
Definition samples_are (l : Locals.t) (v1 v2 v3 v4 v5 v6 v7 v8 v9 : number) : Prop :=
  Locals.eX l = Num v1 /\ Locals.eY l = Num v2 /\ Locals.eZ l = Num v3 /\
  Locals.mX l = Num v4 /\ Locals.mY l = Num v5 /\ Locals.mZ l = Num v6 /\
  Locals.permittivityValue l = (2 / (1 + Math_exp (- 0.5 * (v7 - 1))) - 1)%js /\
  Locals.permeabilityValue l = (2 / (1 + Math_exp (- 0.5 * (v8 - 1))) - 1)%js /\
  Locals.background l = (v9 / 2000)%js.

(** The nine samples of a run are the stored entries [field[j][i]]. *)
Definition reads_stored (l : Locals.t)
    (fEX fEY fEZ fMX fMY fMZ fPe fPm fCo : field) (j i : nat) : Prop :=
  exists v1 v2 v3 v4 v5 v6 v7 v8 v9 : number,
    stored fEX j i = Some v1 /\ stored fEY j i = Some v2 /\
    stored fEZ j i = Some v3 /\ stored fMX j i = Some v4 /\
    stored fMY j i = Some v5 /\ stored fMZ j i = Some v6 /\
    stored fPe j i = Some v7 /\ stored fPm j i = Some v8 /\
    stored fCo j i = Some v9 /\
    samples_are l v1 v2 v3 v4 v5 v6 v7 v8 v9.


(** ** Inputs of the concrete runs *)

Definition grid2 : field := [[Fin 1; Fin 2]; [Fin 3; Fin 4]].

Definition zero2 : field := [[Fin 0; Fin 0]; [Fin 0; Fin 0]].

Definition ones2 : field := [[Fin 1; Fin 1]; [Fin 1; Fin 1]].

Definition cond2 : field := [[Fin 0; Fin 0]; [Fin (-2000); Fin 0]].

Definition perm2 : field := [[Fin 1.2; Fin 1.2]; [Fin 1.2; Fin 1.2]].

(** Three rows of two cells. *)
Definition grid3 : field := [[Fin 1; Fin 2]; [Fin 3; Fin 4]; [Fin 5; Fin 6]].

(** ** Vocabulary of the further properties *)

(** Every entry of [f] is a finite number that is not negative. *)
Definition nonneg_field (f : field) : Prop :=
  forall n, entry f n -> exists r, n = Fin r /\ 0 <= r.

(** A finite channel value in the half-open interval from [lo] to 1. *)
Definition channel_above (lo : R) (n : number) : Prop :=
  exists r, n = Fin r /\ lo < r <= 1.

(** What a sample at the integer cell [(i, j)] of a [gx] by [gy] grid is: the
    stored entry inside the grid, the zero fill outside. *)
Definition cell (f : field) (gx gy i j : nat) : number :=
  if (i <? gx)%nat && (j <? gy)%nat then nth i (nth j f []) (Fin 0) else Fin 0.

(** The tiling factor for a rounded ratio [m]: the reciprocal, with 1 in place
    of the infinite reciprocal of 0. *)
Definition tile_value (m : nat) : R :=
  match m with
  | O => 1
  | S _ => 1 / INR m
  end.

(** The two circle patterns of a run, on its locals: each of the four tile
    offsets lies in the half-open interval from -1/2 to 1/2, and both circle
    distances lie between 0 and [sqrt (2 PI) / 2]. *)
Definition tiling_of (l : Locals.t) : Prop :=
  exists ax ay bx by_ dE dM : R,
    Locals.dxPermittivity l = Fin ax /\ Locals.dyPermittivity l = Fin ay /\
    Locals.dxPermeability l = Fin bx /\ Locals.dyPermeability l = Fin by_ /\
    - (1 / 2) <= ax < 1 / 2 /\ - (1 / 2) <= ay < 1 / 2 /\
    - (1 / 2) <= bx < 1 / 2 /\ - (1 / 2) <= by_ < 1 / 2 /\
    Locals.circleDistPermittivity l = Fin dE /\
    Locals.circleDistPermeability l = Fin dM /\
    0 <= dE <= sqrt (2 * PI) / 2 /\ 0 <= dM <= sqrt (2 * PI) / 2.

(** A channel that is [NaN] or a finite value above [lo] and at most 1, and
    one that is [NaN] or a finite value from 0 to 1. *)
Definition nan_or_above (lo : R) (n : number) : Prop :=
  n = NaN \/ channel_above lo n.

Definition nan_or_unit (n : number) : Prop :=
  n = NaN \/ exists g, n = Fin g /\ 0 <= g <= 1.

(** ** Vocabulary of the binary64 statements *)

(** A channel that is [NaN] or at most 1. *)
Definition capped (v : float) : Prop :=
  is_nan v = true \/ (v <=? 1)%float = true.





Definition pixel64 (tx ty ox oy : float) : B64.kernel_this :=
  {| B64.thread_x := tx; B64.thread_y := ty;
     B64.output_x := ox; B64.output_y := oy |}.

Definition threes64 : B64.field := [[3; 3]; [3; 3]]%float.

Definition zeros64 : B64.field := [[0; 0]; [0; 0]]%float.

Definition grid64 : B64.field := [[1; 2]; [3; 4]; [5; 6]]%float.

(** * Proofs *)

(** ** Arithmetic of the number model *)

Lemma nlt_Fin (r s : R) : nlt (Fin r) (Fin s) = true <-> r < s.
Proof. simpl. destruct (Rlt_dec r s); split; intros; auto; discriminate. Qed.

Lemma nlt_Fin_false (r s : R) : nlt (Fin r) (Fin s) = false <-> s <= r.
Proof.
  simpl. destruct (Rlt_dec r s); split; intros; auto; try discriminate; lra.
Qed.

Lemma nle_Fin (r s : R) : nle (Fin r) (Fin s) = true <-> r <= s.
Proof. simpl. destruct (Rle_dec r s); split; intros; auto; discriminate. Qed.

Lemma nle_Fin_false (r s : R) : nle (Fin r) (Fin s) = false <-> s < r.
Proof.
  simpl. destruct (Rle_dec r s); split; intros; auto; try discriminate; lra.
Qed.

Lemma ndiv_Fin (r s : R) : s <> 0 -> ndiv (Fin r) (Fin s) = Fin (r / s).
Proof. intros H. simpl. destruct (Req_dec_T s 0); [contradiction | reflexivity]. Qed.

Lemma scale_inf_pos (b : bool) (r : R) :
  0 < r -> scale_inf b r = if b then PInf else NInf.
Proof.
  intros H. unfold scale_inf, Rsign.
  destruct (total_order_T r 0) as [[Hlt | Heq] | Hgt]; try lra; reflexivity.
Qed.

Lemma scale_inf_neg (b : bool) (r : R) :
  r < 0 -> scale_inf b r = if b then NInf else PInf.
Proof.
  intros H. unfold scale_inf, Rsign.
  destruct (total_order_T r 0) as [[Hlt | Heq] | Hgt]; try lra; reflexivity.
Qed.

Lemma scale_inf_zero (b : bool) : scale_inf b 0 = NaN.
Proof.
  unfold scale_inf, Rsign.
  destruct (total_order_T 0 0) as [[Hlt | Heq] | Hgt]; try lra; reflexivity.
Qed.

Lemma ndiv_zero (r : R) : ndiv (Fin r) (Fin 0) = scale_inf true r.
Proof. simpl. destruct (Req_dec_T 0 0); [reflexivity | contradiction]. Qed.

Lemma Math_min_Fin (r s : R) : Math_min (Fin r) (Fin s) = Fin (Rmin r s).
Proof.
  unfold Math_min, nlt, Rmin.
  destruct (Rlt_dec s r), (Rle_dec r s); try reflexivity; f_equal; lra.
Qed.

Lemma Int_part_IZR (z : Z) : Int_part (IZR z) = z.
Proof. symmetry. apply Int_part_spec. lra. Qed.

Lemma Int_part_half (z : Z) : Int_part (IZR z + 1 / 2) = z.
Proof. symmetry. apply Int_part_spec. lra. Qed.

Lemma Math_round_IZR (z : Z) : Math_round (Fin (IZR z)) = Fin (IZR z).
Proof. simpl. now rewrite Int_part_half. Qed.

Lemma Math_round_INR (n : nat) : Math_round (Fin (INR n)) = Fin (INR n).
Proof. rewrite INR_IZR_INZ. apply Math_round_IZR. Qed.

Lemma Rtrunc_IZR (z : Z) : Rtrunc (IZR z) = IZR z.
Proof.
  unfold Rtrunc. destruct (Rle_dec 0 (IZR z)).
  - now rewrite Int_part_IZR.
  - rewrite <- (opp_IZR z), Int_part_IZR, opp_IZR. lra.
Qed.

Lemma as_index_INR (n : nat) : as_index (Fin (INR n)) = Some n.
Proof.
  unfold as_index. rewrite INR_IZR_INZ, Int_part_IZR.
  destruct (Req_dec_T (IZR (Z.of_nat n)) (IZR (Z.of_nat n))); [ | contradiction].
  destruct (Z.leb_spec 0 (Z.of_nat n)); [ | lia].
  now rewrite Nat2Z.id.
Qed.

Lemma as_index_Some (n : number) (i : nat) :
  as_index n = Some i -> n = Fin (INR i).
Proof.
  destruct n as [r | | | ]; simpl; try discriminate.
  destruct (Req_dec_T (IZR (Int_part r)) r) as [Heq | ]; try discriminate.
  destruct (Z.leb_spec 0 (Int_part r)); try discriminate.
  intros Hi. injection Hi as <-. rewrite INR_IZR_INZ, Z2Nat.id by assumption.
  now rewrite Heq.
Qed.

(** ** The smoothstep helper *)

Lemma smooth_low (t : R) : t <= 0 -> nativeSmoothStep (Fin t) = Fin 0.
Proof.
  intros H. unfold nativeSmoothStep.
  now rewrite (proj2 (nle_Fin t 0) H).
Qed.

Lemma smooth_high (t : R) : 1 <= t -> nativeSmoothStep (Fin t) = Fin 1.
Proof.
  intros H. unfold nativeSmoothStep, nge.
  rewrite (proj2 (nle_Fin 1 t) H).
  destruct (nle (Fin t) (Fin 0)) eqn:E; [ | reflexivity].
  apply nle_Fin in E. lra.
Qed.

Lemma smooth_mid (t : R) :
  0 < t < 1 -> nativeSmoothStep (Fin t) = Fin (3 * t ^ 2 - 2 * t ^ 3).
Proof.
  intros [H0 H1]. unfold nativeSmoothStep, nge.
  rewrite (proj2 (nle_Fin_false t 0) H0), (proj2 (nle_Fin_false 1 t) H1).
  simpl. f_equal. ring.
Qed.

Lemma smooth_Fin (t : R) : nativeSmoothStep (Fin t) = Fin (smooth_real t).
Proof.
  unfold smooth_real.
  destruct (Rle_dec t 0); [now apply smooth_low | ].
  destruct (Rle_dec 1 t); [now apply smooth_high | ].
  apply smooth_mid. lra.
Qed.

Lemma smooth_real_range (t : R) : 0 <= smooth_real t <= 1.
Proof.
  unfold smooth_real.
  destruct (Rle_dec t 0); [lra | ].
  destruct (Rle_dec 1 t); [lra | ].
  assert (H0 : 0 < t) by lra. assert (H1 : t < 1) by lra.
  split.
  - replace (3 * t ^ 2 - 2 * t ^ 3) with (t * t * (3 - 2 * t)) by ring.
    apply Rmult_le_pos; [apply Rmult_le_pos | ]; lra.
  - replace (3 * t ^ 2 - 2 * t ^ 3) with (1 - (1 - t) * (1 - t) * (1 + 2 * t)) by ring.
    assert (0 <= (1 - t) * (1 - t) * (1 + 2 * t)).
    { apply Rmult_le_pos; [apply Rmult_le_pos | ]; lra. }
    lra.
Qed.

Lemma smooth_real_mono (a b : R) : a <= b -> smooth_real a <= smooth_real b.
Proof.
  intros Hab.
  pose proof (smooth_real_range a) as Ra. pose proof (smooth_real_range b) as Rb.
  unfold smooth_real in *.
  destruct (Rle_dec a 0); [lra | ].
  destruct (Rle_dec b 0); [lra | ].
  destruct (Rle_dec 1 b); [lra | ].
  destruct (Rle_dec 1 a); [lra | ].
  assert (Ha : 0 < a) by lra. assert (Hb : b < 1) by lra.
  assert (E : 3 * b ^ 2 - 2 * b ^ 3 - (3 * a ^ 2 - 2 * a ^ 3)
              = (b - a) * (3 * (a + b) - 2 * (a * a + a * b + b * b))) by ring.
  assert (0 <= (b - a) * (3 * (a + b) - 2 * (a * a + a * b + b * b))).
  { apply Rmult_le_pos; [lra | ]. nra. }
  lra.
Qed.

(** On exact reals [nativeSmoothStep] is 0 on every [t <= 0], 1 on every
    [t >= 1] and [3t^2 - 2t^3] in between, and it is monotone non-decreasing
    on [[0, 1]]. *)
Lemma nativeSmoothStep_exact :
  (forall t : R, t <= 0 -> nativeSmoothStep (Fin t) = Fin 0) /\
  (forall t : R, 1 <= t -> nativeSmoothStep (Fin t) = Fin 1) /\
  (forall t : R, 0 < t < 1 ->
     nativeSmoothStep (Fin t) = Fin (3 * t ^ 2 - 2 * t ^ 3)) /\
  nativeSmoothStep (Fin 0.5) = Fin 0.5 /\
  (forall a b : R, 0 <= a -> a <= b -> b <= 1 ->
     (nativeSmoothStep (Fin a) <=? nativeSmoothStep (Fin b))%js = true).
Proof.
  split; [exact smooth_low | ].
  split; [exact smooth_high | ].
  split; [exact smooth_mid | ].
  split.
  - rewrite smooth_mid by lra. f_equal. lra.
  - intros a b _ Hab _. rewrite !smooth_Fin. apply nle_Fin.
    now apply smooth_real_mono.
Qed.

(** ** The sampler *)

Lemma as_index_fraction (r : R) (z : Z) :
  IZR z < r < IZR z + 1 -> as_index (Fin r) = None.
Proof.
  intros [Hl Hu]. unfold as_index.
  assert (E : z = Int_part r) by (apply Int_part_spec; lra).
  rewrite <- E.
  destruct (Req_dec_T (IZR z) r); [lra | reflexivity].
Qed.

Lemma element_INR {A : Type} (l : list A) (i : nat) :
  element l (Fin (INR i)) = nth_error l i.
Proof. unfold element. now rewrite as_index_INR. Qed.

Lemma nth_error_entry (f : field) (row : list number) (i j : nat) (n : number) :
  nth_error f j = Some row -> nth_error row i = Some n -> entry f n.
Proof.
  intros Hr Hn. exists row. split; eapply nth_error_In; eassumption.
Qed.

Lemma well_shaped_lookup (f : field) (sx sy i j : nat) :
  well_shaped f sx sy -> (i < sx)%nat -> (j < sy)%nat ->
  exists row n, nth_error f j = Some row /\ nth_error row i = Some n.
Proof.
  intros W Hi Hj. destruct (W j Hj) as (row & Hrow & Hlen).
  destruct (nth_error row i) as [n | ] eqn:E.
  - now exists row, n.
  - apply nth_error_None in E. lia.
Qed.

Lemma jsIndex_stored (f : field) (sx sy i j : nat) :
  well_shaped f sx sy -> (i < sx)%nat -> (j < sy)%nat ->
  exists row n, nth_error f j = Some row /\ nth_error row i = Some n /\
    jsIndex f (Fin (INR j)) (Fin (INR i)) = Ok (Num n).
Proof.
  intros W Hi Hj. destruct (well_shaped_lookup f sx sy i j W Hi Hj) as (row & n & Hr & Hn).
  exists row, n. repeat split; try assumption.
  unfold jsIndex. now rewrite element_INR, Hr, element_INR, Hn.
Qed.

Lemma jsIndex_integer_backend : integer_backend jsIndex.
Proof.
  intros f sx sy i j W Hi Hj.
  destruct (jsIndex_stored f sx sy i j W Hi Hj) as (row & n & Hr & Hn & E).
  exists n. split; [assumption | ]. eapply nth_error_entry; eassumption.
Qed.

Lemma Rtrunc_nonneg_index (r : R) (s : nat) :
  0 <= r < INR s -> exists i, (i < s)%nat /\ Rtrunc r = INR i.
Proof.
  intros [H0 Hs]. unfold Rtrunc.
  destruct (Rle_dec 0 r); [ | contradiction].
  destruct (base_Int_part r) as [Hle Hgt].
  assert (Hz : (0 <= Int_part r)%Z).
  { apply Z.lt_succ_r, lt_IZR. rewrite succ_IZR. lra. }
  exists (Z.to_nat (Int_part r)). split.
  - apply Nat2Z.inj_lt. rewrite Z2Nat.id by assumption.
    apply lt_IZR. rewrite <- INR_IZR_INZ. lra.
  - now rewrite INR_IZR_INZ, Z2Nat.id.
Qed.

Lemma truncIndex_fractional_backend : fractional_backend truncIndex.
Proof.
  intros f sx sy rx ry W Hx Hy. unfold truncIndex.
  destruct (Rtrunc_nonneg_index rx sx Hx) as (i & Hi & ->).
  destruct (Rtrunc_nonneg_index ry sy Hy) as (j & Hj & ->).
  now apply (jsIndex_integer_backend f sx sy).
Qed.

Lemma fractional_integer_backend (ix : indexer) :
  fractional_backend ix -> integer_backend ix.
Proof.
  intros B f sx sy i j W Hi Hj. apply (B f sx sy); try assumption.
  - split; [apply pos_INR | now apply lt_INR].
  - split; [apply pos_INR | now apply lt_INR].
Qed.

Lemma getAt_outside (ix : indexer) (f : field) (sx sy x y : number) :
  (x <? 0)%js = true \/ (x >=? sx)%js = true \/
  (y <? 0)%js = true \/ (y >=? sy)%js = true ->
  getAt ix f sx sy x y = Ok (Num (Fin 0)).
Proof.
  intros H. unfold getAt.
  destruct H as [-> | [-> | [-> | ->]]];
    now rewrite ?orb_true_r, ?orb_true_l.
Qed.

Lemma getAt_inside (ix : indexer) (f : field) (sx sy x y : R) :
  0 <= x < sx -> 0 <= y < sy ->
  getAt ix f (Fin sx) (Fin sy) (Fin x) (Fin y) = ix f (Fin y) (Fin x).
Proof.
  intros [Hx0 Hx1] [Hy0 Hy1]. unfold getAt, nge.
  rewrite (proj2 (nlt_Fin_false x 0)), (proj2 (nle_Fin_false sx x)),
    (proj2 (nlt_Fin_false y 0)), (proj2 (nle_Fin_false sy y)) by assumption.
  reflexivity.
Qed.

Lemma getAt_outside_real (ix : indexer) (f : field) (sx sy x y : R) :
  x < 0 \/ sx <= x \/ y < 0 \/ sy <= y ->
  getAt ix f (Fin sx) (Fin sy) (Fin x) (Fin y) = Ok (Num (Fin 0)).
Proof.
  intros H. apply getAt_outside. unfold nge.
  rewrite !nlt_Fin, !nle_Fin. exact H.
Qed.

Lemma getAt_js_inside (f : field) (sx sy i j : nat) :
  well_shaped f sx sy -> (i < sx)%nat -> (j < sy)%nat ->
  exists row v, nth_error f j = Some row /\ nth_error row i = Some v /\
    getAt jsIndex f (Fin (INR sx)) (Fin (INR sy)) (Fin (INR i)) (Fin (INR j))
    = Ok (Num v).
Proof.
  intros W Hi Hj.
  destruct (jsIndex_stored f sx sy i j W Hi Hj) as (row & n & Hr & Hn & E).
  exists row, n. repeat split; try assumption.
  rewrite getAt_inside; [assumption | | ];
    (split; [apply pos_INR | now apply lt_INR]).
Qed.

Lemma as_index_not_integer (r : R) :
  (forall z : Z, IZR z <> r) -> as_index (Fin r) = None.
Proof.
  intros H. unfold as_index.
  destruct (Req_dec_T (IZR (Int_part r)) r) as [E | ]; [ | reflexivity].
  now elim (H (Int_part r)).
Qed.

(** Inside the shape, a row coordinate that is not an integer makes the
    JavaScript lookup throw, and a column coordinate that is not an integer
    makes it yield [undefined]. *)
Lemma getAt_js_fractional_row (f : field) (sx sy x y : R) :
  0 <= x < sx -> 0 <= y < sy -> (forall z : Z, IZR z <> y) ->
  getAt jsIndex f (Fin sx) (Fin sy) (Fin x) (Fin y) = Throw TypeError.
Proof.
  intros Hx Hy Hn. rewrite getAt_inside by assumption.
  unfold jsIndex, element. now rewrite (as_index_not_integer y Hn).
Qed.

Lemma getAt_js_fractional_column (f : field) (sx sy x : R) (j : nat)
    (row : list number) :
  0 <= x < sx -> INR j < sy -> nth_error f j = Some row ->
  (forall z : Z, IZR z <> x) ->
  getAt jsIndex f (Fin sx) (Fin sy) (Fin x) (Fin (INR j)) = Ok Undefined.
Proof.
  intros Hx Hy Hr Hn.
  rewrite getAt_inside; [ | assumption | split; [apply pos_INR | assumption]].
  unfold jsIndex. rewrite element_INR, Hr.
  unfold element. now rewrite (as_index_not_integer x Hn).
Qed.

(** C2, as amended: outside the shape the sampler returns exactly 0, on every
    backend and whatever the field; at integer coordinates inside the shape
    of a well-shaped field the JavaScript lookup returns the stored
    [field[y][x]].  In both cases nothing is raised. *)
Theorem getAt_spec :
  (forall (ix : indexer) (f : field) (sx sy x y : R),
      x < 0 \/ sx <= x \/ y < 0 \/ sy <= y ->
      getAt ix f (Fin sx) (Fin sy) (Fin x) (Fin y) = Ok (Num (Fin 0))) /\
  (forall (f : field) (sx sy i j : nat),
      well_shaped f sx sy -> (i < sx)%nat -> (j < sy)%nat ->
      exists row v, nth_error f j = Some row /\ nth_error row i = Some v /\
        getAt jsIndex f (Fin (INR sx)) (Fin (INR sy)) (Fin (INR i)) (Fin (INR j))
        = Ok (Num v)).
Proof.
  split; [exact getAt_outside_real | exact getAt_js_inside].
Qed.

(** C10: with a field of [shapeY] rows of length at least [shapeX] and integer
    coordinates, the sampler reaches [field[y][x]] only inside the shape,
    where both lookups are in bounds; everywhere else it returns 0.  It
    returns a number in every case: no [undefined], no exception. *)
Theorem getAt_in_bounds (f : field) (sx sy : nat) (x y : Z) :
  well_shaped f sx sy ->
  ((0 <= x < Z.of_nat sx)%Z /\ (0 <= y < Z.of_nat sy)%Z ->
     exists row v, nth_error f (Z.to_nat y) = Some row /\
       nth_error row (Z.to_nat x) = Some v /\
       getAt jsIndex f (Fin (INR sx)) (Fin (INR sy)) (Fin (IZR x)) (Fin (IZR y))
       = Ok (Num v)) /\
  (~ ((0 <= x < Z.of_nat sx)%Z /\ (0 <= y < Z.of_nat sy)%Z) ->
     getAt jsIndex f (Fin (INR sx)) (Fin (INR sy)) (Fin (IZR x)) (Fin (IZR y))
     = Ok (Num (Fin 0))) /\
  (exists v,
     getAt jsIndex f (Fin (INR sx)) (Fin (INR sy)) (Fin (IZR x)) (Fin (IZR y))
     = Ok (Num v)).
Proof.
  intros W.
  assert (In_range : (0 <= x < Z.of_nat sx)%Z /\ (0 <= y < Z.of_nat sy)%Z ->
     exists row v, nth_error f (Z.to_nat y) = Some row /\
       nth_error row (Z.to_nat x) = Some v /\
       getAt jsIndex f (Fin (INR sx)) (Fin (INR sy)) (Fin (IZR x)) (Fin (IZR y))
       = Ok (Num v)).
  { intros [Hx Hy].
    destruct (getAt_js_inside f sx sy (Z.to_nat x) (Z.to_nat y) W)
      as (row & v & Hr & Hv & E); try lia.
    exists row, v. repeat split; try assumption.
    rewrite (INR_IZR_INZ (Z.to_nat x)), (INR_IZR_INZ (Z.to_nat y)), !Z2Nat.id in E
      by lia.
    exact E. }
  assert (Out : ~ ((0 <= x < Z.of_nat sx)%Z /\ (0 <= y < Z.of_nat sy)%Z) ->
     getAt jsIndex f (Fin (INR sx)) (Fin (INR sy)) (Fin (IZR x)) (Fin (IZR y))
     = Ok (Num (Fin 0))).
  { intros H. apply getAt_outside_real. rewrite !INR_IZR_INZ.
    assert (C : (x < 0 \/ Z.of_nat sx <= x \/ y < 0 \/ Z.of_nat sy <= y)%Z) by lia.
    destruct C as [C | [C | [C | C]]].
    - left. now apply IZR_lt.
    - right; left. now apply IZR_le.
    - right; right; left. now apply IZR_lt.
    - right; right; right. now apply IZR_le. }
  split; [exact In_range | ]. split; [exact Out | ].
  destruct (Z_lt_dec x 0); [exists (Fin 0); apply Out; lia | ].
  destruct (Z_lt_dec x (Z.of_nat sx)); [ | exists (Fin 0); apply Out; lia].
  destruct (Z_lt_dec y 0); [exists (Fin 0); apply Out; lia | ].
  destruct (Z_lt_dec y (Z.of_nat sy)); [ | exists (Fin 0); apply Out; lia].
  destruct In_range as (row & v & _ & _ & E); [lia | ]. now exists v.
Qed.

Lemma grid2_shape : well_shaped grid2 2 2.
Proof.
  intros j Hj. destruct j as [ | [ | j]]; [ | | lia]; simpl;
    eexists; (split; [reflexivity | simpl; lia]).
Qed.

Lemma getAt_spec_witness :
  getAt jsIndex grid2 (Fin (INR 2)) (Fin (INR 2)) (Fin (-1)) (Fin 0) = Ok (Num (Fin 0)) /\
  (exists row v, nth_error grid2 0 = Some row /\ nth_error row 1 = Some v /\
     getAt jsIndex grid2 (Fin (INR 2)) (Fin (INR 2)) (Fin (INR 1)) (Fin (INR 0))
     = Ok (Num v)).
Proof.
  destruct getAt_spec as (Out & In_int).
  split.
  - apply Out. left. lra.
  - apply (In_int grid2 2%nat 2%nat 1%nat 0%nat grid2_shape); lia.
Defined.

(** C2 as stated fails: inside the shape, at a coordinate that is not an
    integer, the JavaScript lookup [field[0.5]] is [undefined] and indexing
    it throws. *)
Lemma getAt_fractional_throws :
  0 <= 0.5 < 2 /\
  getAt jsIndex grid2 (Fin 2) (Fin 2) (Fin 0.5) (Fin 0.5) = Throw TypeError.
Proof.
  split; [lra | ].
  rewrite getAt_inside by lra.
  unfold jsIndex, element. now rewrite (as_index_fraction 0.5 0) by lra.
Qed.

Lemma getAt_in_bounds_witness :
  well_shaped grid2 2 2 /\
  exists v,
    getAt jsIndex grid2 (Fin (INR 2)) (Fin (INR 2)) (Fin (IZR 1)) (Fin (IZR 1))
    = Ok (Num v).
Proof.
  split; [exact grid2_shape | ].
  exact (proj2 (proj2 (getAt_in_bounds grid2 2 2 1 1 grid2_shape))).
Defined.

Lemma drawGpu_locals_eq (ix : indexer) (this : kernel_this)
    (fEX fEY fEZ fMX fMY fMZ fPe fPm fCo : field)
    (gridSize : list number) (cellSize : number) :
  drawGpu_locals ix this fEX fEY fEZ fMX fMY fMZ fPe fPm fCo gridSize cellSize =
  let gx := toNumber (item gridSize 0) in
  let gy := toNumber (item gridSize 1) in
  let x := grid_x this gridSize in
  let y := grid_y this gridSize in
  sample9 ix gx gy x y (x - 0.5)%js (y - 0.5)%js
    fEX fEY fEZ fMX fMY fMZ fPe fPm fCo
    (shade this gx gy x y x y cellSize).
Proof. reflexivity. Qed.

Lemma drawCpu_locals_eq (ix : indexer) (this : kernel_this)
    (fEX fEY fEZ fMX fMY fMZ fPe fPm fCo : field)
    (gridSize : list number) (cellSize : number) :
  drawCpu_locals ix this fEX fEY fEZ fMX fMY fMZ fPe fPm fCo gridSize cellSize =
  let gx := toNumber (item gridSize 0) in
  let gy := toNumber (item gridSize 1) in
  let fx := grid_x this gridSize in
  let fy := grid_y this gridSize in
  let x := Math_round fx in
  let y := Math_round fy in
  sample9 ix gx gy x y x y
    fEX fEY fEZ fMX fMY fMZ fPe fPm fCo
    (shade this gx gy fx fy x y cellSize).
Proof. reflexivity. Qed.

Lemma sample9_Ok (ix : indexer) (gx gy ex ey mx my : number)
    (fEX fEY fEZ fMX fMY fMZ fPe fPm fCo : field)
    (k : value -> value -> value -> value -> value -> value ->
         value -> value -> value -> Locals.t) (l : Locals.t) :
  sample9 ix gx gy ex ey mx my fEX fEY fEZ fMX fMY fMZ fPe fPm fCo k = Ok l <->
  exists eX eY eZ mX mY mZ pe pm co,
    getAt ix fEX gx gy ex ey = Ok eX /\
    getAt ix fEY gx gy ex ey = Ok eY /\
    getAt ix fEZ gx gy ex ey = Ok eZ /\
    getAt ix fMX gx gy mx my = Ok mX /\
    getAt ix fMY gx gy mx my = Ok mY /\
    getAt ix fMZ gx gy mx my = Ok mZ /\
    getAt ix fPe gx gy ex ey = Ok pe /\
    getAt ix fPm gx gy ex ey = Ok pm /\
    getAt ix fCo gx gy ex ey = Ok co /\
    l = k eX eY eZ mX mY mZ pe pm co.
Proof.
  unfold sample9. split.
  - intros H.
    destruct (getAt ix fEX gx gy ex ey) as [eX | ]; [ | discriminate].
    destruct (getAt ix fEY gx gy ex ey) as [eY | ]; [ | discriminate].
    destruct (getAt ix fEZ gx gy ex ey) as [eZ | ]; [ | discriminate].
    destruct (getAt ix fMX gx gy mx my) as [mX | ]; [ | discriminate].
    destruct (getAt ix fMY gx gy mx my) as [mY | ]; [ | discriminate].
    destruct (getAt ix fMZ gx gy mx my) as [mZ | ]; [ | discriminate].
    destruct (getAt ix fPe gx gy ex ey) as [pe | ]; [ | discriminate].
    destruct (getAt ix fPm gx gy ex ey) as [pm | ]; [ | discriminate].
    destruct (getAt ix fCo gx gy ex ey) as [co | ]; [ | discriminate].
    simpl in H. injection H as <-.
    exists eX, eY, eZ, mX, mY, mZ, pe, pm, co. repeat split.
  - intros (eX & eY & eZ & mX & mY & mZ & pe & pm & co &
            -> & -> & -> & -> & -> & -> & -> & -> & -> & ->).
    reflexivity.
Qed.

(** ** Finite values stay finite *)

Lemma finite_Fin (r : R) : finite (Fin r).
Proof. now exists r. Qed.

Lemma finite_nadd (a b : number) : finite a -> finite b -> finite (nadd a b).
Proof. intros [r ->] [s ->]. apply finite_Fin. Qed.

Lemma finite_nneg (a : number) : finite a -> finite (nneg a).
Proof. intros [r ->]. apply finite_Fin. Qed.

Lemma finite_nsub (a b : number) : finite a -> finite b -> finite (nsub a b).
Proof. intros [r ->] [s ->]. apply finite_Fin. Qed.

Lemma finite_nmul (a b : number) : finite a -> finite b -> finite (nmul a b).
Proof. intros [r ->] [s ->]. apply finite_Fin. Qed.

Lemma finite_ndiv (a : number) (s : R) :
  finite a -> s <> 0 -> finite (ndiv a (Fin s)).
Proof. intros [r ->] H. rewrite ndiv_Fin by assumption. apply finite_Fin. Qed.

Lemma finite_nrem_one (a : number) : finite a -> finite (nrem a (Fin 1)).
Proof.
  intros [r ->]. simpl. destruct (Req_dec_T 1 0); [lra | apply finite_Fin].
Qed.

Lemma finite_Math_round (a : number) : finite a -> finite (Math_round a).
Proof. intros [r ->]. apply finite_Fin. Qed.

Lemma finite_smooth (a : number) : finite a -> finite (nativeSmoothStep a).
Proof. intros [r ->]. rewrite smooth_Fin. apply finite_Fin. Qed.

(** [Math.min(1, 1 / n)] is finite for every finite [n]: a zero [n] gives
    [Math.min(1, Infinity) = 1]. *)
Lemma finite_min_one_inv (a : number) :
  finite a -> finite (Math_min (Fin 1) (ndiv (Fin 1) a)).
Proof.
  intros [r ->]. destruct (Req_dec_T r 0) as [-> | Hr].
  - rewrite ndiv_zero, scale_inf_pos by lra. apply finite_Fin.
  - rewrite ndiv_Fin, Math_min_Fin by assumption. apply finite_Fin.
Qed.

Lemma finite_tileFactor (g : number) (o : R) :
  finite g -> o <> 0 ->
  finite (Math_min (Fin 1) (ndiv (Fin 1) (Math_round (ndiv (nmul (Fin 2) g) (Fin o))))).
Proof.
  intros Hg Ho. apply finite_min_one_inv, finite_Math_round, finite_ndiv.
  - apply finite_nmul; [apply finite_Fin | assumption].
  - assumption.
Qed.

Lemma sqrt_2PI : Math_sqrt (nmul (Fin 2) Math_PI) = Fin (sqrt (2 * PI)).
Proof.
  unfold Math_PI. simpl. pose proof PI_RGT_0.
  destruct (Rlt_dec (2 * PI) 0); [lra | reflexivity].
Qed.

Lemma material_Fin (v : R) :
  nsub (ndiv (Fin 2) (nadd (Fin 1) (Math_exp (nmul (Fin (- 0.5)) (nsub (Fin v) (Fin 1))))))
       (Fin 1)
  = Fin (material_real v).
Proof.
  unfold material_real. cbn [nsub nadd nneg nmul Math_exp].
  rewrite ndiv_Fin; [reflexivity | ].
  match goal with |- 1 + exp ?t <> 0 => pose proof (exp_pos t); lra end.
Qed.

Lemma material_real_range (v : R) : -1 < material_real v < 1.
Proof.
  unfold material_real. pose proof (exp_pos (-0.5 * (v - 1))) as P.
  set (e := exp (-0.5 * (v - 1))) in *.
  assert (Q : 0 < / (1 + e)) by (apply Rinv_0_lt_compat; lra).
  assert (E : (1 + e) * / (1 + e) = 1) by (apply Rinv_r; lra).
  unfold Rdiv. nra.
Qed.

(** ** The equations of [shade] *)

Section ShadeEquations.

Local Open Scope js_scope.

Variables (this : kernel_this) (gx gy fx fy x y cellSize : number).
Variables (eX eY eZ mX mY mZ pe pm co : value).

Local Abbreviation SH :=
  (shade this gx gy fx fy x y cellSize eX eY eZ mX mY mZ pe pm co).

Lemma shade_red :
  red (Locals.pixel SH) =
  Math_min 1 (Locals.background SH + Locals.eEnergy SH
              + 0.8 * Locals.backgroundPermittivity SH * Locals.permittivityValue SH).
Proof. reflexivity. Qed.

Lemma shade_green :
  green (Locals.pixel SH) =
  Math_min 1 (Locals.background SH + Locals.eEnergy SH + Locals.mEnergy SH).
Proof. reflexivity. Qed.

Lemma shade_blue :
  blue (Locals.pixel SH) =
  Math_min 1 (Locals.background SH + Locals.mEnergy SH
              + 0.8 * Locals.backgroundPermeability SH * Locals.permeabilityValue SH).
Proof. reflexivity. Qed.

Lemma shade_fieldBrightness :
  Locals.fieldBrightness SH = (0.02 * 0.02) / (cellSize * cellSize).
Proof. reflexivity. Qed.

Lemma shade_eEnergy :
  Locals.eEnergy SH =
  Locals.fieldBrightness SH * Locals.fieldBrightness SH *
  (toNumber eX * toNumber eX + toNumber eY * toNumber eY + toNumber eZ * toNumber eZ).
Proof. reflexivity. Qed.

Lemma shade_mEnergy :
  Locals.mEnergy SH =
  Locals.fieldBrightness SH * Locals.fieldBrightness SH *
  (toNumber mX * toNumber mX + toNumber mY * toNumber mY + toNumber mZ * toNumber mZ).
Proof. reflexivity. Qed.

Lemma shade_permittivityValue :
  Locals.permittivityValue SH = 2 / (1 + Math_exp (- 0.5 * (toNumber pe - 1))) - 1.
Proof. reflexivity. Qed.

Lemma shade_permeabilityValue :
  Locals.permeabilityValue SH = 2 / (1 + Math_exp (- 0.5 * (toNumber pm - 1))) - 1.
Proof. reflexivity. Qed.

Lemma shade_background : Locals.background SH = toNumber co / 2000.
Proof. reflexivity. Qed.

Lemma shade_bgPermittivity :
  Locals.bgPermittivity SH = - nativeSmoothStep (Locals.circleDistPermittivity SH).
Proof. reflexivity. Qed.

Lemma shade_bgPermeability :
  Locals.bgPermeability SH = - nativeSmoothStep (Locals.circleDistPermeability SH).
Proof. reflexivity. Qed.

Lemma shade_backgroundPermittivity :
  Locals.backgroundPermittivity SH =
  if Locals.permittivityValue SH >=? 0.1
  then 1 + Locals.bgPermittivity SH else Locals.bgPermittivity SH.
Proof. reflexivity. Qed.

Lemma shade_backgroundPermeability :
  Locals.backgroundPermeability SH =
  if Locals.permeabilityValue SH >=? 0.1
  then 1 + Locals.bgPermeability SH else Locals.bgPermeability SH.
Proof. reflexivity. Qed.

Lemma shade_samples :
  Locals.eX SH = eX /\ Locals.eY SH = eY /\ Locals.eZ SH = eZ /\
  Locals.mX SH = mX /\ Locals.mY SH = mY /\ Locals.mZ SH = mZ.
Proof. repeat split. Qed.

Lemma shade_coordinates :
  Locals.x SH = x /\ Locals.y SH = y /\ Locals.fx SH = fx /\ Locals.fy SH = fy /\
  Locals.gx SH = gx /\ Locals.gy SH = gy.
Proof. repeat split. Qed.

(** The circle distances depend on the raster, the grid size and the tiling
    coordinate only, and are finite whenever these are. *)
Lemma shade_circles_finite (W H : R) :
  output_x this = Fin W -> W <> 0 -> output_y this = Fin H -> H <> 0 ->
  finite gx -> finite gy -> finite fx -> finite fy ->
  finite (Locals.circleDistPermittivity SH) /\
  finite (Locals.circleDistPermeability SH).
Proof.
  intros EW HW EH HH Fgx Fgy Ffx Ffy.
  unfold shade. cbn [Locals.circleDistPermittivity Locals.circleDistPermeability].
  rewrite EW, EH, sqrt_2PI.
  pose proof (finite_tileFactor gx W Fgx HW) as TX.
  pose proof (finite_tileFactor gy H Fgy HH) as TY.
  split; apply finite_nmul; try apply finite_Fin; apply finite_nadd;
    apply finite_nmul;
    repeat first [ apply finite_nsub | apply finite_nrem_one | apply finite_nadd
                 | apply finite_nmul | apply finite_Fin | assumption ].
Qed.

End ShadeEquations.

(** ** Runs on well-formed input *)

Lemma from_field_finite (f : field) (v : value) :
  finite_field f -> from_field f v -> exists r, v = Num (Fin r).
Proof.
  intros Ff (n & -> & [-> | He]).
  - now exists 0.
  - destruct (Ff n He) as [r ->]. now exists r.
Qed.

Lemma from_field_zero (f : field) (v : value) :
  zero_field f -> from_field f v -> v = Num (Fin 0).
Proof.
  intros Zf (n & -> & [-> | He]); [reflexivity | ]. now rewrite (Zf n He).
Qed.

Lemma grid_x_of (px py W H gx gy : nat) :
  (0 < W)%nat ->
  grid_x (pixel_of px py W H) (grid_of gx gy) = Fin (INR gx * INR px / INR W).
Proof.
  intros HW. unfold grid_x, pixel_of, grid_of.
  cbn [toNumber item nth_error thread_x output_x nmul].
  rewrite ndiv_Fin; [reflexivity | ].
  apply not_0_INR. lia.
Qed.

Lemma grid_y_of (px py W H gx gy : nat) :
  (0 < H)%nat ->
  grid_y (pixel_of px py W H) (grid_of gx gy)
  = Fin (INR gy * (1 - INR py / INR H)).
Proof.
  intros HH. unfold grid_y, pixel_of, grid_of.
  cbn [toNumber item nth_error thread_y output_y].
  rewrite ndiv_Fin; [reflexivity | ].
  apply not_0_INR. lia.
Qed.

Lemma getAt_total_frac (ix : indexer) (f : field) (gx gy : nat) (rx ry : R) :
  fractional_backend ix -> well_shaped f gx gy ->
  exists v, getAt ix f (Fin (INR gx)) (Fin (INR gy)) (Fin rx) (Fin ry) = Ok v /\
            from_field f v.
Proof.
  intros B W.
  assert (Out : rx < 0 \/ INR gx <= rx \/ ry < 0 \/ INR gy <= ry ->
    exists v, getAt ix f (Fin (INR gx)) (Fin (INR gy)) (Fin rx) (Fin ry) = Ok v /\
              from_field f v).
  { intros H. exists (Num (Fin 0)). split; [now apply getAt_outside_real | ].
    exists (Fin 0). auto. }
  destruct (Rlt_dec rx 0); [apply Out; tauto | ].
  destruct (Rle_dec (INR gx) rx); [apply Out; tauto | ].
  destruct (Rlt_dec ry 0); [apply Out; tauto | ].
  destruct (Rle_dec (INR gy) ry); [apply Out; tauto | ].
  destruct (B f gx gy rx ry W) as (m & E & He); [lra | lra | ].
  exists (Num m). split.
  - rewrite getAt_inside by lra. exact E.
  - exists m. auto.
Qed.

Lemma getAt_total_int (ix : indexer) (f : field) (gx gy : nat) (zx zy : Z) :
  integer_backend ix -> well_shaped f gx gy ->
  exists v,
    getAt ix f (Fin (INR gx)) (Fin (INR gy)) (Fin (IZR zx)) (Fin (IZR zy)) = Ok v /\
    from_field f v.
Proof.
  intros B W.
  assert (Out : IZR zx < 0 \/ INR gx <= IZR zx \/ IZR zy < 0 \/ INR gy <= IZR zy ->
    exists v,
      getAt ix f (Fin (INR gx)) (Fin (INR gy)) (Fin (IZR zx)) (Fin (IZR zy)) = Ok v /\
      from_field f v).
  { intros H. exists (Num (Fin 0)). split; [now apply getAt_outside_real | ].
    exists (Fin 0). auto. }
  destruct (Rlt_dec (IZR zx) 0); [apply Out; tauto | ].
  destruct (Rle_dec (INR gx) (IZR zx)); [apply Out; tauto | ].
  destruct (Rlt_dec (IZR zy) 0); [apply Out; tauto | ].
  destruct (Rle_dec (INR gy) (IZR zy)); [apply Out; tauto | ].
  assert (Hx : (0 <= zx < Z.of_nat gx)%Z).
  { split; [apply le_IZR; lra | apply lt_IZR; rewrite <- INR_IZR_INZ; lra]. }
  assert (Hy : (0 <= zy < Z.of_nat gy)%Z).
  { split; [apply le_IZR; lra | apply lt_IZR; rewrite <- INR_IZR_INZ; lra]. }
  destruct (B f gx gy (Z.to_nat zx) (Z.to_nat zy) W) as (m & E & He); [lia | lia | ].
  rewrite !INR_IZR_INZ, !Z2Nat.id in E by lia.
  exists (Num m). split.
  - rewrite getAt_inside; [exact E | rewrite INR_IZR_INZ | rewrite INR_IZR_INZ ];
      (split; [apply IZR_le | apply IZR_lt]; lia).
  - exists m. auto.
Qed.

Lemma sample9_total (ix : indexer) (gx gy : nat) (ex ey mx my : number)
    (fEX fEY fEZ fMX fMY fMZ fPe fPm fCo : field)
    (k : value -> value -> value -> value -> value -> value ->
         value -> value -> value -> Locals.t) :
  (forall f, well_shaped f gx gy ->
     exists v, getAt ix f (Fin (INR gx)) (Fin (INR gy)) ex ey = Ok v /\ from_field f v) ->
  (forall f, well_shaped f gx gy ->
     exists v, getAt ix f (Fin (INR gx)) (Fin (INR gy)) mx my = Ok v /\ from_field f v) ->
  well_shaped fEX gx gy -> well_shaped fEY gx gy -> well_shaped fEZ gx gy ->
  well_shaped fMX gx gy -> well_shaped fMY gx gy -> well_shaped fMZ gx gy ->
  well_shaped fPe gx gy -> well_shaped fPm gx gy -> well_shaped fCo gx gy ->
  exists eX eY eZ mX mY mZ pe pm co,
    sample9 ix (Fin (INR gx)) (Fin (INR gy)) ex ey mx my
      fEX fEY fEZ fMX fMY fMZ fPe fPm fCo k
    = Ok (k eX eY eZ mX mY mZ pe pm co) /\
    from_field fEX eX /\ from_field fEY eY /\ from_field fEZ eZ /\
    from_field fMX mX /\ from_field fMY mY /\ from_field fMZ mZ /\
    from_field fPe pe /\ from_field fPm pm /\ from_field fCo co.
Proof.
  intros HE HM W1 W2 W3 W4 W5 W6 W7 W8 W9.
  destruct (HE _ W1) as (eX & E1 & F1). destruct (HE _ W2) as (eY & E2 & F2).
  destruct (HE _ W3) as (eZ & E3 & F3). destruct (HM _ W4) as (mX & E4 & F4).
  destruct (HM _ W5) as (mY & E5 & F5). destruct (HM _ W6) as (mZ & E6 & F6).
  destruct (HE _ W7) as (pe & E7 & F7). destruct (HE _ W8) as (pm & E8 & F8).
  destruct (HE _ W9) as (co & E9 & F9).
  exists eX, eY, eZ, mX, mY, mZ, pe, pm, co.
  split; [ | tauto].
  apply sample9_Ok. exists eX, eY, eZ, mX, mY, mZ, pe, pm, co. tauto.
Qed.

Lemma drawGpu_run (ix : indexer) (px py W H gx gy : nat)
    (fEX fEY fEZ fMX fMY fMZ fPe fPm fCo : field) (cellSize : number) :
  fractional_backend ix -> (0 < W)%nat -> (0 < H)%nat ->
  well_shaped fEX gx gy -> well_shaped fEY gx gy -> well_shaped fEZ gx gy ->
  well_shaped fMX gx gy -> well_shaped fMY gx gy -> well_shaped fMZ gx gy ->
  well_shaped fPe gx gy -> well_shaped fPm gx gy -> well_shaped fCo gx gy ->
  exists eX eY eZ mX mY mZ pe pm co,
    drawGpu_locals ix (pixel_of px py W H) fEX fEY fEZ fMX fMY fMZ fPe fPm fCo
      (grid_of gx gy) cellSize
    = Ok (shade (pixel_of px py W H) (Fin (INR gx)) (Fin (INR gy))
            (Fin (real_x gx px W)) (Fin (real_y gy py H))
            (Fin (real_x gx px W)) (Fin (real_y gy py H))
            cellSize eX eY eZ mX mY mZ pe pm co) /\
    from_field fEX eX /\ from_field fEY eY /\ from_field fEZ eZ /\
    from_field fMX mX /\ from_field fMY mY /\ from_field fMZ mZ /\
    from_field fPe pe /\ from_field fPm pm /\ from_field fCo co.
Proof.
  intros B HW HH W1 W2 W3 W4 W5 W6 W7 W8 W9.
  rewrite drawGpu_locals_eq. cbv zeta.
  rewrite grid_x_of, grid_y_of by assumption.
  change (toNumber (item (grid_of gx gy) 0)) with (Fin (INR gx)).
  change (toNumber (item (grid_of gx gy) 1)) with (Fin (INR gy)).
  fold (real_x gx px W). fold (real_y gy py H).
  apply sample9_total; try assumption.
  - intros f Wf. now apply getAt_total_frac.
  - intros f Wf. now apply getAt_total_frac.
Qed.

Lemma drawCpu_run (ix : indexer) (px py W H gx gy : nat)
    (fEX fEY fEZ fMX fMY fMZ fPe fPm fCo : field) (cellSize : number) :
  integer_backend ix -> (0 < W)%nat -> (0 < H)%nat ->
  well_shaped fEX gx gy -> well_shaped fEY gx gy -> well_shaped fEZ gx gy ->
  well_shaped fMX gx gy -> well_shaped fMY gx gy -> well_shaped fMZ gx gy ->
  well_shaped fPe gx gy -> well_shaped fPm gx gy -> well_shaped fCo gx gy ->
  exists eX eY eZ mX mY mZ pe pm co,
    drawCpu_locals ix (pixel_of px py W H) fEX fEY fEZ fMX fMY fMZ fPe fPm fCo
      (grid_of gx gy) cellSize
    = Ok (shade (pixel_of px py W H) (Fin (INR gx)) (Fin (INR gy))
            (Fin (real_x gx px W)) (Fin (real_y gy py H))
            (Fin (round_real (real_x gx px W))) (Fin (round_real (real_y gy py H)))
            cellSize eX eY eZ mX mY mZ pe pm co) /\
    from_field fEX eX /\ from_field fEY eY /\ from_field fEZ eZ /\
    from_field fMX mX /\ from_field fMY mY /\ from_field fMZ mZ /\
    from_field fPe pe /\ from_field fPm pm /\ from_field fCo co.
Proof.
  intros B HW HH W1 W2 W3 W4 W5 W6 W7 W8 W9.
  rewrite drawCpu_locals_eq. cbv zeta.
  rewrite grid_x_of, grid_y_of by assumption.
  change (toNumber (item (grid_of gx gy) 0)) with (Fin (INR gx)).
  change (toNumber (item (grid_of gx gy) 1)) with (Fin (INR gy)).
  fold (real_x gx px W). fold (real_y gy py H).
  change (Math_round (Fin (real_x gx px W)))
    with (Fin (round_real (real_x gx px W))).
  change (Math_round (Fin (real_y gy py H)))
    with (Fin (round_real (real_y gy py H))).
  apply sample9_total; try assumption.
  - intros f Wf. now apply getAt_total_int.
  - intros f Wf. now apply getAt_total_int.
Qed.

(** ** Bounds on the channels *)

Lemma energy_like_finite (n : number) : finite n -> energy_like n.
Proof. unfold energy_like. tauto. Qed.

Lemma energy_like_nadd (a b : number) :
  energy_like a -> energy_like b -> energy_like (nadd a b).
Proof.
  unfold energy_like.
  intros [-> | [-> | [r ->]]] [-> | [-> | [s ->]]]; simpl; auto.
  right; right. apply finite_Fin.
Qed.

Lemma at_most_one_min (v : number) : finite v -> at_most_one (Math_min (Fin 1) v).
Proof.
  intros [r ->]. rewrite Math_min_Fin. exists (Rmin 1 r). split; [reflexivity | ].
  apply Rmin_l.
Qed.

Lemma energy_like_min (v : number) :
  energy_like v -> nan_or_at_most_one (Math_min (Fin 1) v).
Proof.
  intros [-> | [-> | Fv]].
  - now left.
  - right. exists 1. split; [reflexivity | lra].
  - right. now apply at_most_one_min.
Qed.

Lemma fieldBrightness_finite (c : R) :
  c <> 0 -> ndiv (nmul (Fin 0.02) (Fin 0.02)) (nmul (Fin c) (Fin c))
            = Fin (0.02 * 0.02 / (c * c)).
Proof.
  intros Hc. cbn [nmul]. apply ndiv_Fin. nra.
Qed.

Lemma fieldBrightness_zero :
  ndiv (nmul (Fin 0.02) (Fin 0.02)) (nmul (Fin 0) (Fin 0)) = PInf.
Proof.
  cbn [nmul]. replace (0 * 0) with 0 by lra.
  rewrite ndiv_zero. apply (scale_inf_pos true). lra.
Qed.

Lemma energy_shape (c e1 e2 e3 : R) :
  let fb := ndiv (nmul (Fin 0.02) (Fin 0.02)) (nmul (Fin c) (Fin c)) in
  let en := nmul (nmul fb fb)
              (nadd (nadd (nmul (Fin e1) (Fin e1)) (nmul (Fin e2) (Fin e2)))
                    (nmul (Fin e3) (Fin e3))) in
  energy_like en /\ (c <> 0 -> finite en).
Proof.
  intros fb en. subst en fb. destruct (Req_dec_T c 0) as [-> | Hc].
  - split; [ | intros H; now elim H].
    rewrite fieldBrightness_zero. cbn [nmul nadd].
    assert (Hs : 0 <= e1 * e1 + e2 * e2 + e3 * e3) by nra.
    destruct Hs as [Hs | <-].
    + rewrite (scale_inf_pos true) by assumption. right; now left.
    + rewrite scale_inf_zero. now left.
  - rewrite fieldBrightness_finite by assumption.
    split; [apply energy_like_finite | intros _]; apply finite_Fin.
Qed.

Section ShadeBounds.

Variables (this : kernel_this) (gx gy fx fy x y : number) (W H c : R).
Variables (e1 e2 e3 e4 e5 e6 e7 e8 e9 : R).

Hypothesis output_x_is : output_x this = Fin W.
Hypothesis output_y_is : output_y this = Fin H.
Hypothesis W_nonzero : W <> 0.
Hypothesis H_nonzero : H <> 0.
Hypothesis gx_finite : finite gx.
Hypothesis gy_finite : finite gy.
Hypothesis fx_finite : finite fx.
Hypothesis fy_finite : finite fy.

Local Abbreviation SH :=
  (shade this gx gy fx fy x y (Fin c)
    (Num (Fin e1)) (Num (Fin e2)) (Num (Fin e3))
    (Num (Fin e4)) (Num (Fin e5)) (Num (Fin e6))
    (Num (Fin e7)) (Num (Fin e8)) (Num (Fin e9))).

Lemma shade_background_value : Locals.background SH = Fin (e9 / 2000).
Proof.
  rewrite shade_background. cbn [toNumber]. apply ndiv_Fin. lra.
Qed.

Lemma shade_permittivity_value : Locals.permittivityValue SH = Fin (material_real e7).
Proof. rewrite shade_permittivityValue. apply material_Fin. Qed.

Lemma shade_permeability_value : Locals.permeabilityValue SH = Fin (material_real e8).
Proof. rewrite shade_permeabilityValue. apply material_Fin. Qed.

Lemma shade_masks :
  exists dE dM,
    Locals.circleDistPermittivity SH = Fin dE /\
    Locals.circleDistPermeability SH = Fin dM /\
    Locals.bgPermittivity SH = Fin (- smooth_real dE) /\
    Locals.bgPermeability SH = Fin (- smooth_real dM).
Proof.
  destruct (shade_circles_finite this gx gy fx fy x y (Fin c)
              (Num (Fin e1)) (Num (Fin e2)) (Num (Fin e3))
              (Num (Fin e4)) (Num (Fin e5)) (Num (Fin e6))
              (Num (Fin e7)) (Num (Fin e8)) (Num (Fin e9)) W H)
    as [[dE HE] [dM HM]]; try assumption.
  exists dE, dM.  rewrite shade_bgPermittivity, shade_bgPermeability.
  rewrite HE, HM, !smooth_Fin. repeat split.
Qed.

Lemma shade_material_terms_finite :
  finite (nmul (nmul (Fin 0.8) (Locals.backgroundPermittivity SH))
               (Locals.permittivityValue SH)) /\
  finite (nmul (nmul (Fin 0.8) (Locals.backgroundPermeability SH))
               (Locals.permeabilityValue SH)).
Proof.
  destruct shade_masks as (dE & dM & _ & _ & BE & BM).
  rewrite shade_permittivity_value, shade_permeability_value.
  rewrite shade_backgroundPermittivity, shade_backgroundPermeability.
  rewrite BE, BM.
  split.
  - destruct (nge (Locals.permittivityValue SH) (Fin 0.1)); apply finite_Fin.
  - destruct (nge (Locals.permeabilityValue SH) (Fin 0.1)); apply finite_Fin.
Qed.

Lemma shade_energies :
  (energy_like (Locals.eEnergy SH) /\ energy_like (Locals.mEnergy SH)) /\
  (c <> 0 -> finite (Locals.eEnergy SH) /\ finite (Locals.mEnergy SH)).
Proof.
  rewrite shade_eEnergy, shade_mEnergy, shade_fieldBrightness.
  cbn [toNumber].
  destruct (energy_shape c e1 e2 e3) as [A1 A2].
  destruct (energy_shape c e4 e5 e6) as [B1 B2].
  cbv zeta in A1, A2, B1, B2. split; [split | intros Hc; split]; auto.
Qed.

Lemma shade_pixel_bounds :
  (nan_or_at_most_one (red (Locals.pixel SH)) /\
   nan_or_at_most_one (green (Locals.pixel SH)) /\
   nan_or_at_most_one (blue (Locals.pixel SH))) /\
  (c <> 0 ->
   at_most_one (red (Locals.pixel SH)) /\
   at_most_one (green (Locals.pixel SH)) /\
   at_most_one (blue (Locals.pixel SH))).
Proof.
  destruct shade_energies as [[EL ML] EF].
  destruct shade_material_terms_finite as [TE TM].
  pose proof shade_background_value as BG.
  rewrite shade_red, shade_green, shade_blue.
  rewrite BG. split.
  - repeat split; apply energy_like_min;
      repeat first [ apply energy_like_nadd | assumption
                   | apply energy_like_finite; first [assumption | apply finite_Fin] ].
  - intros Hc. destruct (EF Hc) as [FE FM].
    repeat split; apply at_most_one_min;
      repeat first [ apply finite_nadd | assumption | apply finite_Fin ].
Qed.

End ShadeBounds.

Lemma drawGpu_of_locals (ix : indexer) this fEX fEY fEZ fMX fMY fMZ fPe fPm fCo
    gridSize cellSize (l : Locals.t) :
  drawGpu_locals ix this fEX fEY fEZ fMX fMY fMZ fPe fPm fCo gridSize cellSize = Ok l ->
  drawGpu ix this fEX fEY fEZ fMX fMY fMZ fPe fPm fCo gridSize cellSize
  = Ok (Locals.pixel l).
Proof. intros E. unfold drawGpu. now rewrite E. Qed.

Lemma drawCpu_of_locals (ix : indexer) this fEX fEY fEZ fMX fMY fMZ fPe fPm fCo
    gridSize cellSize (l : Locals.t) :
  drawCpu_locals ix this fEX fEY fEZ fMX fMY fMZ fPe fPm fCo gridSize cellSize = Ok l ->
  drawCpu ix this fEX fEY fEZ fMX fMY fMZ fPe fPm fCo gridSize cellSize
  = Ok (Locals.pixel l).
Proof. intros E. unfold drawCpu. now rewrite E. Qed.

Lemma drawGpu_locals_of (ix : indexer) this fEX fEY fEZ fMX fMY fMZ fPe fPm fCo
    gridSize cellSize (col : color) :
  drawGpu ix this fEX fEY fEZ fMX fMY fMZ fPe fPm fCo gridSize cellSize = Ok col ->
  exists l,
    drawGpu_locals ix this fEX fEY fEZ fMX fMY fMZ fPe fPm fCo gridSize cellSize = Ok l
    /\ col = Locals.pixel l.
Proof.
  unfold drawGpu.
  destruct (drawGpu_locals ix this fEX fEY fEZ fMX fMY fMZ fPe fPm fCo gridSize cellSize)
    as [l | ]; [ | discriminate].
  intros E. injection E as <-. now exists l.
Qed.

Lemma drawCpu_locals_of (ix : indexer) this fEX fEY fEZ fMX fMY fMZ fPe fPm fCo
    gridSize cellSize (col : color) :
  drawCpu ix this fEX fEY fEZ fMX fMY fMZ fPe fPm fCo gridSize cellSize = Ok col ->
  exists l,
    drawCpu_locals ix this fEX fEY fEZ fMX fMY fMZ fPe fPm fCo gridSize cellSize = Ok l
    /\ col = Locals.pixel l.
Proof.
  unfold drawCpu.
  destruct (drawCpu_locals ix this fEX fEY fEZ fMX fMY fMZ fPe fPm fCo gridSize cellSize)
    as [l | ]; [ | discriminate].
  intros E. injection E as <-. now exists l.
Qed.

Lemma pixel_of_bounds (px py W H gx gy : nat) (rfx rfy : R) (x y : number) (c : R)
    (fEX fEY fEZ fMX fMY fMZ fPe fPm fCo : field)
    (eX eY eZ mX mY mZ pe pm co : value) :
  (0 < W)%nat -> (0 < H)%nat ->
  all_fields finite_field fEX fEY fEZ fMX fMY fMZ fPe fPm fCo ->
  from_field fEX eX -> from_field fEY eY -> from_field fEZ eZ ->
  from_field fMX mX -> from_field fMY mY -> from_field fMZ mZ ->
  from_field fPe pe -> from_field fPm pm -> from_field fCo co ->
  channels_bounded c
    (Locals.pixel (shade (pixel_of px py W H) (Fin (INR gx)) (Fin (INR gy))
                     (Fin rfx) (Fin rfy) x y (Fin c) eX eY eZ mX mY mZ pe pm co)).
Proof.
  intros HW HH (F1 & F2 & F3 & F4 & F5 & F6 & F7 & F8 & F9)
    S1 S2 S3 S4 S5 S6 S7 S8 S9.
  destruct (from_field_finite _ _ F1 S1) as [e1 ->].
  destruct (from_field_finite _ _ F2 S2) as [e2 ->].
  destruct (from_field_finite _ _ F3 S3) as [e3 ->].
  destruct (from_field_finite _ _ F4 S4) as [e4 ->].
  destruct (from_field_finite _ _ F5 S5) as [e5 ->].
  destruct (from_field_finite _ _ F6 S6) as [e6 ->].
  destruct (from_field_finite _ _ F7 S7) as [e7 ->].
  destruct (from_field_finite _ _ F8 S8) as [e8 ->].
  destruct (from_field_finite _ _ F9 S9) as [e9 ->].
  apply (shade_pixel_bounds (pixel_of px py W H) (Fin (INR gx)) (Fin (INR gy))
           (Fin rfx) (Fin rfy) x y (INR W) (INR H));
    try reflexivity; try apply finite_Fin; apply not_0_INR; lia.
Qed.

(** C1, as amended: on well-formed input with finite field entries and a
    finite cell size, zero or not, both kernels return a colour each of whose
    channels is [NaN] or a finite value that is at most 1.  There is no lower
    bound. *)
Theorem channels_at_most_one :
  (forall (ix : indexer) (px py W H gx gy : nat)
      (fEX fEY fEZ fMX fMY fMZ fPe fPm fCo : field) (c : R),
      fractional_backend ix -> (px < W)%nat -> (py < H)%nat ->
      all_fields (fun f => well_shaped f gx gy) fEX fEY fEZ fMX fMY fMZ fPe fPm fCo ->
      all_fields finite_field fEX fEY fEZ fMX fMY fMZ fPe fPm fCo ->
      exists col,
        drawGpu ix (pixel_of px py W H) fEX fEY fEZ fMX fMY fMZ fPe fPm fCo
          (grid_of gx gy) (Fin c) = Ok col /\
        channels_capped col) /\
  (forall (ix : indexer) (px py W H gx gy : nat)
      (fEX fEY fEZ fMX fMY fMZ fPe fPm fCo : field) (c : R),
      integer_backend ix -> (px < W)%nat -> (py < H)%nat ->
      all_fields (fun f => well_shaped f gx gy) fEX fEY fEZ fMX fMY fMZ fPe fPm fCo ->
      all_fields finite_field fEX fEY fEZ fMX fMY fMZ fPe fPm fCo ->
      exists col,
        drawCpu ix (pixel_of px py W H) fEX fEY fEZ fMX fMY fMZ fPe fPm fCo
          (grid_of gx gy) (Fin c) = Ok col /\
        channels_capped col).
Proof.
  split.
  - intros ix px py W H gx gy fEX fEY fEZ fMX fMY fMZ fPe fPm fCo c B Hx Hy
      (W1 & W2 & W3 & W4 & W5 & W6 & W7 & W8 & W9) FF.
    destruct (drawGpu_run ix px py W H gx gy fEX fEY fEZ fMX fMY fMZ fPe fPm fCo
                (Fin c) B) as (eX & eY & eZ & mX & mY & mZ & pe & pm & co & E &
                               S1 & S2 & S3 & S4 & S5 & S6 & S7 & S8 & S9);
      try assumption; try lia.
    eexists. split; [apply drawGpu_of_locals; exact E | ].
    assert (HW : (0 < W)%nat) by lia.
    assert (HH : (0 < H)%nat) by lia.
    exact (proj1 (pixel_of_bounds px py W H gx gy _ _ _ _ c
                    fEX fEY fEZ fMX fMY fMZ fPe fPm fCo _ _ _ _ _ _ _ _ _
                    HW HH FF S1 S2 S3 S4 S5 S6 S7 S8 S9)).
  - intros ix px py W H gx gy fEX fEY fEZ fMX fMY fMZ fPe fPm fCo c B Hx Hy
      (W1 & W2 & W3 & W4 & W5 & W6 & W7 & W8 & W9) FF.
    destruct (drawCpu_run ix px py W H gx gy fEX fEY fEZ fMX fMY fMZ fPe fPm fCo
                (Fin c) B) as (eX & eY & eZ & mX & mY & mZ & pe & pm & co & E &
                               S1 & S2 & S3 & S4 & S5 & S6 & S7 & S8 & S9);
      try assumption; try lia.
    eexists. split; [apply drawCpu_of_locals; exact E | ].
    assert (HW : (0 < W)%nat) by lia.
    assert (HH : (0 < H)%nat) by lia.
    exact (proj1 (pixel_of_bounds px py W H gx gy _ _ _ _ c
                    fEX fEY fEZ fMX fMY fMZ fPe fPm fCo _ _ _ _ _ _ _ _ _
                    HW HH FF S1 S2 S3 S4 S5 S6 S7 S8 S9)).
Qed.

(** ** Concrete runs *)

Lemma literal_finite (f : field) : Forall (Forall finite) f -> finite_field f.
Proof.
  intros A n (row & Hrow & Hn).
  rewrite Forall_forall in A. specialize (A row Hrow).
  rewrite Forall_forall in A. now apply A.
Qed.

Lemma literal_zero (f : field) : Forall (Forall (eq (Fin 0))) f -> zero_field f.
Proof.
  intros A n (row & Hrow & Hn).
  rewrite Forall_forall in A. specialize (A row Hrow).
  rewrite Forall_forall in A. symmetry. now apply A.
Qed.

Lemma literal_shape (f : field) (sx sy : nat) :
  (sy <= length f)%nat -> Forall (fun row => (sx <= length row)%nat) f ->
  well_shaped f sx sy.
Proof.
  intros Hlen A j Hj.
  destruct (nth_error f j) as [row | ] eqn:E.
  - exists row. split; [reflexivity | ].
    rewrite Forall_forall in A. apply A. eapply nth_error_In; eassumption.
  - apply nth_error_None in E. lia.
Qed.

Ltac literal_field :=
  first [ apply literal_finite | apply literal_zero
        | apply literal_shape; [simpl; lia | ] ];
  repeat constructor; try apply finite_Fin; simpl; lia.

Lemma zero2_shape : well_shaped zero2 2 2.
Proof. literal_field. Qed.

Lemma ones2_shape : well_shaped ones2 2 2.
Proof. literal_field. Qed.

Lemma cond2_shape : well_shaped cond2 2 2.
Proof. literal_field. Qed.

Lemma zero2_finite : finite_field zero2.
Proof. literal_field. Qed.

Lemma ones2_finite : finite_field ones2.
Proof. literal_field. Qed.

Lemma cond2_finite : finite_field cond2.
Proof. literal_field. Qed.

Lemma grid2_finite : finite_field grid2.
Proof. literal_field. Qed.

Lemma zero2_zero : zero_field zero2.
Proof. literal_field. Qed.

Lemma channels_at_most_one_witness :
  (exists col,
     drawGpu truncIndex (pixel_of 0 1 2 2) grid2 zero2 zero2 zero2 grid2 zero2
       ones2 ones2 cond2 (grid_of 2 2) (Fin 0.02) = Ok col /\
     channels_capped col) /\
  (exists col,
     drawCpu jsIndex (pixel_of 0 1 2 2) grid2 zero2 zero2 zero2 grid2 zero2
       ones2 ones2 cond2 (grid_of 2 2) (Fin 0.02) = Ok col /\
     channels_capped col).
Proof.
  split.
  - apply (proj1 channels_at_most_one truncIndex 0%nat 1%nat 2%nat 2%nat 2%nat 2%nat).
    + exact truncIndex_fractional_backend.
    + lia.
    + lia.
    + repeat split; first [exact grid2_shape | exact zero2_shape
                          | exact ones2_shape | exact cond2_shape].
    + repeat split; first [exact grid2_finite | exact zero2_finite
                          | exact ones2_finite | exact cond2_finite].
  - apply (proj2 channels_at_most_one jsIndex 0%nat 1%nat 2%nat 2%nat 2%nat 2%nat).
    + exact jsIndex_integer_backend.
    + lia.
    + lia.
    + repeat split; first [exact grid2_shape | exact zero2_shape
                          | exact ones2_shape | exact cond2_shape].
    + repeat split; first [exact grid2_finite | exact zero2_finite
                          | exact ones2_finite | exact cond2_finite].
Defined.

Lemma round_real_val (r : R) (z : Z) :
  IZR z - 1 / 2 <= r < IZR z + 1 / 2 -> round_real r = IZR z.
Proof.
  intros H. unfold round_real. f_equal. symmetry. apply Int_part_spec. lra.
Qed.

Lemma getAt_js_stored (f : field) (sx sy i j : nat) (n : number) :
  (i < sx)%nat -> (j < sy)%nat -> stored f j i = Some n ->
  getAt jsIndex f (Fin (INR sx)) (Fin (INR sy)) (Fin (INR i)) (Fin (INR j))
  = Ok (Num n).
Proof.
  intros Hi Hj Hs. unfold stored in Hs.
  destruct (nth_error f j) as [row | ] eqn:Er; [ | discriminate].
  rewrite getAt_inside by (split; [apply pos_INR | now apply lt_INR]).
  unfold jsIndex. now rewrite element_INR, Er, element_INR, Hs.
Qed.

(** The snapped kernel on the JavaScript backend, at a pixel whose rounded
    coordinate is the in-range cell [(i, j)]. *)
Lemma drawCpu_at (px py W H gx gy i j : nat)
    (fEX fEY fEZ fMX fMY fMZ fPe fPm fCo : field) (cellSize : number)
    (n1 n2 n3 n4 n5 n6 n7 n8 n9 : number) :
  (0 < W)%nat -> (0 < H)%nat -> (i < gx)%nat -> (j < gy)%nat ->
  round_real (real_x gx px W) = INR i ->
  round_real (real_y gy py H) = INR j ->
  stored fEX j i = Some n1 -> stored fEY j i = Some n2 -> stored fEZ j i = Some n3 ->
  stored fMX j i = Some n4 -> stored fMY j i = Some n5 -> stored fMZ j i = Some n6 ->
  stored fPe j i = Some n7 -> stored fPm j i = Some n8 -> stored fCo j i = Some n9 ->
  drawCpu_locals jsIndex (pixel_of px py W H) fEX fEY fEZ fMX fMY fMZ fPe fPm fCo
    (grid_of gx gy) cellSize
  = Ok (shade (pixel_of px py W H) (Fin (INR gx)) (Fin (INR gy))
          (Fin (real_x gx px W)) (Fin (real_y gy py H))
          (Fin (INR i)) (Fin (INR j)) cellSize
          (Num n1) (Num n2) (Num n3) (Num n4) (Num n5) (Num n6)
          (Num n7) (Num n8) (Num n9)).
Proof.
  intros HW HH Hi Hj Ex Ey S1 S2 S3 S4 S5 S6 S7 S8 S9.
  rewrite drawCpu_locals_eq. cbv zeta.
  rewrite grid_x_of, grid_y_of by assumption.
  change (toNumber (item (grid_of gx gy) 0)) with (Fin (INR gx)).
  change (toNumber (item (grid_of gx gy) 1)) with (Fin (INR gy)).
  fold (real_x gx px W). fold (real_y gy py H).
  change (Math_round (Fin (real_x gx px W)))
    with (Fin (round_real (real_x gx px W))).
  change (Math_round (Fin (real_y gy py H)))
    with (Fin (round_real (real_y gy py H))).
  rewrite Ex, Ey.
  apply sample9_Ok.
  exists (Num n1), (Num n2), (Num n3), (Num n4), (Num n5), (Num n6),
    (Num n7), (Num n8), (Num n9).
  repeat split; now apply getAt_js_stored.
Qed.

Lemma shade_green_finite this gx gy fx fy x y (c e1 e2 e3 e4 e5 e6 e7 e8 e9 : R) :
  c <> 0 ->
  green (Locals.pixel
           (shade this gx gy fx fy x y (Fin c)
              (Num (Fin e1)) (Num (Fin e2)) (Num (Fin e3))
              (Num (Fin e4)) (Num (Fin e5)) (Num (Fin e6))
              (Num (Fin e7)) (Num (Fin e8)) (Num (Fin e9))))
  = Fin (Rmin 1
           (e9 / 2000
            + (0.02 * 0.02 / (c * c)) * (0.02 * 0.02 / (c * c))
              * (e1 * e1 + e2 * e2 + e3 * e3)
            + (0.02 * 0.02 / (c * c)) * (0.02 * 0.02 / (c * c))
              * (e4 * e4 + e5 * e5 + e6 * e6))).
Proof.
  intros Hc.
  rewrite shade_green, shade_background, shade_eEnergy, shade_mEnergy,
    shade_fieldBrightness.
  cbn [toNumber]. rewrite fieldBrightness_finite by assumption.
  rewrite ndiv_Fin by lra. cbn [nmul nadd]. apply Math_min_Fin.
Qed.

(** C1 as stated fails: there is no lower clamp.  With a negative
    conductivity entry the green channel of the snapped kernel is -1. *)
Lemma drawCpu_green_negative :
  exists col,
    drawCpu jsIndex (pixel_of 0 1 2 2) zero2 zero2 zero2 zero2 zero2 zero2
      ones2 ones2 cond2 (grid_of 2 2) (Fin 0.02) = Ok col /\
    green col = Fin (-1) /\ (Fin 0 <=? green col)%js = false.
Proof.
  eexists. split.
  - apply drawCpu_of_locals.
    apply (drawCpu_at 0 1 2 2 2 2 0 1); try lia; try reflexivity.
    + apply (round_real_val _ 0). unfold real_x. simpl. lra.
    + apply (round_real_val _ 1). unfold real_y. simpl. lra.
  - rewrite shade_green_finite by lra.
    assert (E : Rmin 1
      (-2000 / 2000
       + 0.02 * 0.02 / (0.02 * 0.02) * (0.02 * 0.02 / (0.02 * 0.02))
         * (0 * 0 + 0 * 0 + 0 * 0)
       + 0.02 * 0.02 / (0.02 * 0.02) * (0.02 * 0.02 / (0.02 * 0.02))
         * (0 * 0 + 0 * 0 + 0 * 0)) = -1).
    { unfold Rmin. destruct (Rle_dec _ _); lra. }
    rewrite E. split; [reflexivity | ]. apply nle_Fin_false. lra.
Qed.

(** ** All-zero fields *)


Section ShadeZero.

Variables (this : kernel_this) (gx gy fx fy x y : number) (W H c : R).

Hypothesis output_x_is : output_x this = Fin W.
Hypothesis output_y_is : output_y this = Fin H.
Hypothesis W_nonzero : W <> 0.
Hypothesis H_nonzero : H <> 0.
Hypothesis c_nonzero : c <> 0.
Hypothesis gx_finite : finite gx.
Hypothesis gy_finite : finite gy.
Hypothesis fx_finite : finite fx.
Hypothesis fy_finite : finite fy.

Local Abbreviation ZS :=
  (shade this gx gy fx fy x y (Fin c)
    (Num (Fin 0)) (Num (Fin 0)) (Num (Fin 0))
    (Num (Fin 0)) (Num (Fin 0)) (Num (Fin 0))
    (Num (Fin 0)) (Num (Fin 0)) (Num (Fin 0))).




End ShadeZero.

(** In the leftmost raster column the permittivity circle distance is
    positive: the tile offset there is exactly one half. *)
Lemma left_column_circle (this : kernel_this) (gx gy fy x y cellSize : number)
    (eX eY eZ mX mY mZ pe pm co : value) (W H : R) :
  output_x this = Fin W -> W <> 0 -> output_y this = Fin H -> H <> 0 ->
  finite gx -> finite gy -> finite fy ->
  exists d,
    Locals.circleDistPermittivity
      (shade this gx gy (Fin 0) fy x y cellSize eX eY eZ mX mY mZ pe pm co) = Fin d
    /\ 0 < d.
Proof.
  intros EW HW EH HH Fgx Fgy Ffy.
  unfold shade. cbn [Locals.circleDistPermittivity].
  rewrite EW, EH, sqrt_2PI.
  destruct (finite_tileFactor gx W Fgx HW) as [tx ->].
  destruct (finite_tileFactor gy H Fgy HH) as [ty ->].
  destruct Ffy as [rfy ->].
  destruct (finite_nrem_one (nmul (Fin ty) (Fin rfy)) (finite_Fin _)) as [ry ->].
  assert (E : nrem (nmul (Fin tx) (Fin 0)) (Fin 1) = Fin 0).
  { cbn [nmul nrem]. destruct (Req_dec_T 1 0); [lra | ].
    replace (tx * 0 / 1) with (IZR 0) by lra. rewrite Rtrunc_IZR. f_equal. lra. }
  rewrite E. cbn [nsub nneg nadd nmul].
  eexists. split; [reflexivity | ].
  assert (S2 : 0 < sqrt (2 * PI)) by (apply sqrt_lt_R0; pose proof PI_RGT_0; lra).
  apply Rmult_lt_0_compat; [nra | assumption].
Qed.

Lemma smooth_real_pos (d : R) : 0 < d -> 0 < smooth_real d.
Proof.
  intros Hd. unfold smooth_real.
  destruct (Rle_dec d 0); [lra | ].
  destruct (Rle_dec 1 d); [lra | ].
  replace (3 * d ^ 2 - 2 * d ^ 3) with (d * d * (3 - 2 * d)) by ring.
  apply Rmult_lt_0_compat; [apply Rmult_lt_0_compat | ]; lra.
Qed.

Lemma material_real_weak : 0 < material_real 1.2 < 0.1.
Proof.
  unfold material_real.
  assert (L : 1 + (-0.5 * (1.2 - 1)) < exp (-0.5 * (1.2 - 1)))
    by (apply exp_ineq1; lra).
  assert (U : exp (-0.5 * (1.2 - 1)) < exp 0) by (apply exp_increasing; lra).
  rewrite exp_0 in U.
  set (e := exp (-0.5 * (1.2 - 1))) in *.
  assert (Q : 0 < / (1 + e)) by (apply Rinv_0_lt_compat; lra).
  assert (E : (1 + e) * / (1 + e) = 1) by (apply Rinv_r; lra).
  unfold Rdiv. split; nra.
Qed.

(** No lower clamp, on physical input: vacuum everywhere except for a weak
    dielectric (permittivity 1.2), all field values in their documented
    ranges, and the red channel of the snapped kernel is negative. *)
Lemma drawCpu_red_negative :
  exists col r,
    drawCpu jsIndex (pixel_of 0 1 2 2) zero2 zero2 zero2 zero2 zero2 zero2
      perm2 ones2 zero2 (grid_of 2 2) (Fin 0.02) = Ok col /\
    red col = Fin r /\ r < 0.
Proof.
  assert (X0 : real_x 2 0 2 = 0) by (unfold real_x; simpl; lra).
  assert (NW : INR 2 <> 0) by (apply not_0_INR; lia).
  destruct (shade_masks (pixel_of 0 1 2 2) (Fin (INR 2)) (Fin (INR 2))
              (Fin 0) (Fin (real_y 2 1 2)) (Fin (INR 0)) (Fin (INR 1))
              (INR 2) (INR 2) 0.02 0 0 0 0 0 0 1.2 1 0)
    as (dE & dM & CE & _ & BE & _);
    try reflexivity; try apply finite_Fin; try assumption.
  destruct (left_column_circle (pixel_of 0 1 2 2) (Fin (INR 2)) (Fin (INR 2))
              (Fin (real_y 2 1 2)) (Fin (INR 0)) (Fin (INR 1)) (Fin 0.02)
              (Num (Fin 0)) (Num (Fin 0)) (Num (Fin 0))
              (Num (Fin 0)) (Num (Fin 0)) (Num (Fin 0))
              (Num (Fin 1.2)) (Num (Fin 1)) (Num (Fin 0)) (INR 2) (INR 2))
    as (d & Cd & Hd); try reflexivity; try apply finite_Fin; try assumption.
  rewrite CE in Cd. injection Cd as ->.
  pose proof (smooth_real_pos d Hd) as Sd.
  pose proof (smooth_real_range d) as Rd.
  pose proof material_real_weak as M.
  eexists. exists (0.8 * - smooth_real d * material_real 1.2). split; [ | split].
  - apply drawCpu_of_locals.
    apply (drawCpu_at 0 1 2 2 2 2 0 1); try lia; try reflexivity.
    + apply (round_real_val _ 0). unfold real_x. simpl. lra.
    + apply (round_real_val _ 1). unfold real_y. simpl. lra.
  - rewrite X0.
    rewrite shade_red, shade_backgroundPermittivity, shade_permittivity_value,
      shade_background_value, BE, shade_eEnergy, shade_fieldBrightness.
    assert (G : nge (Fin (material_real 1.2)) (Fin 0.1) = false)
      by (apply nle_Fin_false; lra).
    rewrite G. cbn [toNumber]. rewrite fieldBrightness_finite by lra.
    cbn [nmul nadd]. rewrite Math_min_Fin. f_equal.
    unfold Rmin. destruct (Rle_dec _ _); nra.
  - nra.
Qed.


Lemma zero_run_cpu (ix : indexer) (px py W H gx gy : nat)
    (fEX fEY fEZ fMX fMY fMZ fPe fPm fCo : field) (cellSize : number) :
  integer_backend ix -> (0 < W)%nat -> (0 < H)%nat ->
  all_fields (fun f => well_shaped f gx gy) fEX fEY fEZ fMX fMY fMZ fPe fPm fCo ->
  all_fields zero_field fEX fEY fEZ fMX fMY fMZ fPe fPm fCo ->
  drawCpu_locals ix (pixel_of px py W H) fEX fEY fEZ fMX fMY fMZ fPe fPm fCo
    (grid_of gx gy) cellSize
  = Ok (shade (pixel_of px py W H) (Fin (INR gx)) (Fin (INR gy))
          (Fin (real_x gx px W)) (Fin (real_y gy py H))
          (Fin (round_real (real_x gx px W))) (Fin (round_real (real_y gy py H)))
          cellSize
          (Num (Fin 0)) (Num (Fin 0)) (Num (Fin 0))
          (Num (Fin 0)) (Num (Fin 0)) (Num (Fin 0))
          (Num (Fin 0)) (Num (Fin 0)) (Num (Fin 0))).
Proof.
  intros B HW HH (W1 & W2 & W3 & W4 & W5 & W6 & W7 & W8 & W9)
    (Z1 & Z2 & Z3 & Z4 & Z5 & Z6 & Z7 & Z8 & Z9).
  destruct (drawCpu_run ix px py W H gx gy fEX fEY fEZ fMX fMY fMZ fPe fPm fCo
              cellSize B) as (eX & eY & eZ & mX & mY & mZ & pe & pm & co & E &
                              S1 & S2 & S3 & S4 & S5 & S6 & S7 & S8 & S9);
    try assumption.
  rewrite E.
  rewrite (from_field_zero _ _ Z1 S1), (from_field_zero _ _ Z2 S2),
    (from_field_zero _ _ Z3 S3), (from_field_zero _ _ Z4 S4),
    (from_field_zero _ _ Z5 S5), (from_field_zero _ _ Z6 S6),
    (from_field_zero _ _ Z7 S7), (from_field_zero _ _ Z8 S8),
    (from_field_zero _ _ Z9 S9).
  reflexivity.
Qed.









Lemma zero2_all_shape :
  all_fields (fun f => well_shaped f 2 2)
    zero2 zero2 zero2 zero2 zero2 zero2 zero2 zero2 zero2.
Proof. repeat split; exact zero2_shape. Qed.

Lemma zero2_all_zero :
  all_fields zero_field zero2 zero2 zero2 zero2 zero2 zero2 zero2 zero2 zero2.
Proof. repeat split; exact zero2_zero. Qed.



(** ** A zero cell size *)

Lemma energy_zero_cell (e1 e2 e3 : R) :
  let fb := ndiv (nmul (Fin 0.02) (Fin 0.02)) (nmul (Fin 0) (Fin 0)) in
  let en := nmul (nmul fb fb)
              (nadd (nadd (nmul (Fin e1) (Fin e1)) (nmul (Fin e2) (Fin e2)))
                    (nmul (Fin e3) (Fin e3))) in
  en = NaN \/ en = PInf.
Proof.
  intros fb en. subst en fb. rewrite fieldBrightness_zero. cbn [nmul nadd].
  assert (Hs : 0 <= e1 * e1 + e2 * e2 + e3 * e3) by nra.
  destruct Hs as [Hs | <-].
  - rewrite (scale_inf_pos true) by assumption. now right.
  - rewrite scale_inf_zero. now left.
Qed.

Lemma min_one_nan_or_inf (b t e : number) :
  finite b -> finite t -> e = NaN \/ e = PInf ->
  nan_or_one (Math_min (Fin 1) (nadd (nadd b e) t)).
Proof.
  intros [rb ->] [rt ->] [-> | ->]; [now left | now right].
Qed.

Lemma min_one_nan_or_inf2 (b e m : number) :
  finite b -> e = NaN \/ e = PInf -> m = NaN \/ m = PInf ->
  nan_or_one (Math_min (Fin 1) (nadd (nadd b e) m)).
Proof.
  intros [rb ->] [-> | ->] [-> | ->]; first [now left | now right].
Qed.

Lemma zero_cell_pixel (px py W H gx gy : nat) (rfx rfy : R) (x y : number)
    (fEX fEY fEZ fMX fMY fMZ fPe fPm fCo : field)
    (eX eY eZ mX mY mZ pe pm co : value) :
  (0 < W)%nat -> (0 < H)%nat ->
  all_fields finite_field fEX fEY fEZ fMX fMY fMZ fPe fPm fCo ->
  from_field fEX eX -> from_field fEY eY -> from_field fEZ eZ ->
  from_field fMX mX -> from_field fMY mY -> from_field fMZ mZ ->
  from_field fPe pe -> from_field fPm pm -> from_field fCo co ->
  let col := Locals.pixel
      (shade (pixel_of px py W H) (Fin (INR gx)) (Fin (INR gy))
         (Fin rfx) (Fin rfy) x y (Fin 0) eX eY eZ mX mY mZ pe pm co) in
  nan_or_one (red col) /\ nan_or_one (green col) /\ nan_or_one (blue col).
Proof.
  intros HW HH (F1 & F2 & F3 & F4 & F5 & F6 & F7 & F8 & F9)
    S1 S2 S3 S4 S5 S6 S7 S8 S9 col. subst col.
  destruct (from_field_finite _ _ F1 S1) as [e1 ->].
  destruct (from_field_finite _ _ F2 S2) as [e2 ->].
  destruct (from_field_finite _ _ F3 S3) as [e3 ->].
  destruct (from_field_finite _ _ F4 S4) as [e4 ->].
  destruct (from_field_finite _ _ F5 S5) as [e5 ->].
  destruct (from_field_finite _ _ F6 S6) as [e6 ->].
  destruct (from_field_finite _ _ F7 S7) as [e7 ->].
  destruct (from_field_finite _ _ F8 S8) as [e8 ->].
  destruct (from_field_finite _ _ F9 S9) as [e9 ->].
  assert (NW : INR W <> 0) by (apply not_0_INR; lia).
  assert (NH : INR H <> 0) by (apply not_0_INR; lia).
  destruct (shade_material_terms_finite (pixel_of px py W H)
              (Fin (INR gx)) (Fin (INR gy)) (Fin rfx) (Fin rfy) x y
              (INR W) (INR H) 0 e1 e2 e3 e4 e5 e6 e7 e8 e9)
    as [TE TM]; try reflexivity; try apply finite_Fin; try assumption.
  pose proof (shade_background_value (pixel_of px py W H)
                (Fin (INR gx)) (Fin (INR gy)) (Fin rfx) (Fin rfy) x y
                0 e1 e2 e3 e4 e5 e6 e7 e8 e9) as BG.
  pose proof (energy_zero_cell e1 e2 e3) as EE.
  pose proof (energy_zero_cell e4 e5 e6) as EM.
  cbv zeta in EE, EM.
  rewrite shade_red, shade_green, shade_blue, BG.
  rewrite shade_eEnergy, shade_mEnergy, shade_fieldBrightness.
  cbn [toNumber].
  repeat split.
  - apply min_one_nan_or_inf; [apply finite_Fin | assumption | assumption].
  - apply min_one_nan_or_inf2; [apply finite_Fin | assumption | assumption].
  - apply min_one_nan_or_inf; [apply finite_Fin | assumption | assumption].
Qed.

(** C4, as amended: the kernels validate nothing.  With [cellSize = 0] and
    otherwise well-formed input, on a backend that can index the fields at
    the sampled coordinates (any real in range for the continuous kernel,
    integers for the snapped one), both return a colour, raising no error,
    and each channel of that colour is [NaN] or 1. *)
Theorem zero_cell_size_is_not_rejected :
  (forall (ix : indexer) (px py W H gx gy : nat)
      (fEX fEY fEZ fMX fMY fMZ fPe fPm fCo : field),
      fractional_backend ix -> (px < W)%nat -> (py < H)%nat ->
      all_fields (fun f => well_shaped f gx gy) fEX fEY fEZ fMX fMY fMZ fPe fPm fCo ->
      all_fields finite_field fEX fEY fEZ fMX fMY fMZ fPe fPm fCo ->
      exists col,
        drawGpu ix (pixel_of px py W H) fEX fEY fEZ fMX fMY fMZ fPe fPm fCo
          (grid_of gx gy) (Fin 0) = Ok col /\
        nan_or_one (red col) /\ nan_or_one (green col) /\ nan_or_one (blue col)) /\
  (forall (ix : indexer) (px py W H gx gy : nat)
      (fEX fEY fEZ fMX fMY fMZ fPe fPm fCo : field),
      integer_backend ix -> (px < W)%nat -> (py < H)%nat ->
      all_fields (fun f => well_shaped f gx gy) fEX fEY fEZ fMX fMY fMZ fPe fPm fCo ->
      all_fields finite_field fEX fEY fEZ fMX fMY fMZ fPe fPm fCo ->
      exists col,
        drawCpu ix (pixel_of px py W H) fEX fEY fEZ fMX fMY fMZ fPe fPm fCo
          (grid_of gx gy) (Fin 0) = Ok col /\
        nan_or_one (red col) /\ nan_or_one (green col) /\ nan_or_one (blue col)).
Proof.
  split.
  - intros ix px py W H gx gy fEX fEY fEZ fMX fMY fMZ fPe fPm fCo B Hx Hy
      (W1 & W2 & W3 & W4 & W5 & W6 & W7 & W8 & W9) FF.
    destruct (drawGpu_run ix px py W H gx gy fEX fEY fEZ fMX fMY fMZ fPe fPm fCo
                (Fin 0) B) as (eX & eY & eZ & mX & mY & mZ & pe & pm & co & E &
                               S1 & S2 & S3 & S4 & S5 & S6 & S7 & S8 & S9);
      try assumption; try lia.
    eexists. split; [apply drawGpu_of_locals; exact E | ].
    apply (zero_cell_pixel px py W H gx gy _ _ _ _
             fEX fEY fEZ fMX fMY fMZ fPe fPm fCo); try assumption; lia.
  - intros ix px py W H gx gy fEX fEY fEZ fMX fMY fMZ fPe fPm fCo B Hx Hy
      (W1 & W2 & W3 & W4 & W5 & W6 & W7 & W8 & W9) FF.
    destruct (drawCpu_run ix px py W H gx gy fEX fEY fEZ fMX fMY fMZ fPe fPm fCo
                (Fin 0) B) as (eX & eY & eZ & mX & mY & mZ & pe & pm & co & E &
                               S1 & S2 & S3 & S4 & S5 & S6 & S7 & S8 & S9);
      try assumption; try lia.
    eexists. split; [apply drawCpu_of_locals; exact E | ].
    apply (zero_cell_pixel px py W H gx gy _ _ _ _
             fEX fEY fEZ fMX fMY fMZ fPe fPm fCo); try assumption; lia.
Qed.

Lemma zero2_all_finite :
  all_fields finite_field zero2 zero2 zero2 zero2 zero2 zero2 zero2 zero2 zero2.
Proof. repeat split; exact zero2_finite. Qed.

Lemma zero_cell_size_is_not_rejected_witness :
  (exists col,
     drawGpu truncIndex (pixel_of 0 1 2 2)
       zero2 zero2 zero2 zero2 zero2 zero2 zero2 zero2 zero2
       (grid_of 2 2) (Fin 0) = Ok col /\
     nan_or_one (red col) /\ nan_or_one (green col) /\ nan_or_one (blue col)) /\
  (exists col,
     drawCpu jsIndex (pixel_of 0 1 2 2)
       zero2 zero2 zero2 zero2 zero2 zero2 zero2 zero2 zero2
       (grid_of 2 2) (Fin 0) = Ok col /\
     nan_or_one (red col) /\ nan_or_one (green col) /\ nan_or_one (blue col)).
Proof.
  split.
  - apply (proj1 zero_cell_size_is_not_rejected).
    + exact truncIndex_fractional_backend.
    + lia.
    + lia.
    + exact zero2_all_shape.
    + exact zero2_all_finite.
  - apply (proj2 zero_cell_size_is_not_rejected).
    + exact jsIndex_integer_backend.
    + lia.
    + lia.
    + exact zero2_all_shape.
    + exact zero2_all_finite.
Defined.

(** C4 as stated fails: with [cellSize = 0] the snapped kernel raises
    nothing; it returns a colour whose green channel is [NaN]. *)
Lemma drawCpu_zero_cell_size_nan :
  exists col,
    drawCpu jsIndex (pixel_of 0 1 2 2)
      zero2 zero2 zero2 zero2 zero2 zero2 zero2 zero2 zero2
      (grid_of 2 2) (Fin 0) = Ok col /\
    green col = NaN.
Proof.
  eexists. split.
  - apply drawCpu_of_locals, zero_run_cpu; try lia.
    + exact jsIndex_integer_backend.
    + exact zero2_all_shape.
    + exact zero2_all_zero.
  - rewrite shade_green, shade_background, shade_eEnergy, shade_mEnergy,
      shade_fieldBrightness.
    cbn [toNumber]. rewrite fieldBrightness_zero. cbn [nmul nadd].
    replace (0 * 0 + 0 * 0 + 0 * 0) with 0 by lra.
    rewrite scale_inf_zero. rewrite ndiv_Fin by lra. reflexivity.
Qed.

(** ** Where the fields are sampled *)

(** C5: a run of the continuous kernel that returns has sampled the electric
    components at [(x, y)] and the magnetic components at
    [(x - 0.5, y - 0.5)], with [(x, y)] the unrounded grid coordinate; a run
    of the snapped kernel has sampled both at the rounded [(x, y)], with no
    offset.  Conversely each kernel returns as soon as its samples at these
    coordinates do. *)
Theorem magnetic_sampling (ix : indexer) (this : kernel_this)
    (fEX fEY fEZ fMX fMY fMZ fPe fPm fCo : field)
    (gridSize : list number) (cellSize : number) :
  let gx := toNumber (item gridSize 0) in
  let gy := toNumber (item gridSize 1) in
  let fx := grid_x this gridSize in
  let fy := grid_y this gridSize in
  (forall l,
     drawGpu_locals ix this fEX fEY fEZ fMX fMY fMZ fPe fPm fCo gridSize cellSize
     = Ok l ->
     Locals.x l = fx /\ Locals.y l = fy /\
     getAt ix fEX gx gy fx fy = Ok (Locals.eX l) /\
     getAt ix fEY gx gy fx fy = Ok (Locals.eY l) /\
     getAt ix fEZ gx gy fx fy = Ok (Locals.eZ l) /\
     getAt ix fMX gx gy (fx - 0.5)%js (fy - 0.5)%js = Ok (Locals.mX l) /\
     getAt ix fMY gx gy (fx - 0.5)%js (fy - 0.5)%js = Ok (Locals.mY l) /\
     getAt ix fMZ gx gy (fx - 0.5)%js (fy - 0.5)%js = Ok (Locals.mZ l)) /\
  ((exists eX eY eZ mX mY mZ pe pm co,
      getAt ix fEX gx gy fx fy = Ok eX /\
      getAt ix fEY gx gy fx fy = Ok eY /\
      getAt ix fEZ gx gy fx fy = Ok eZ /\
      getAt ix fMX gx gy (fx - 0.5)%js (fy - 0.5)%js = Ok mX /\
      getAt ix fMY gx gy (fx - 0.5)%js (fy - 0.5)%js = Ok mY /\
      getAt ix fMZ gx gy (fx - 0.5)%js (fy - 0.5)%js = Ok mZ /\
      getAt ix fPe gx gy fx fy = Ok pe /\
      getAt ix fPm gx gy fx fy = Ok pm /\
      getAt ix fCo gx gy fx fy = Ok co) ->
   exists l,
     drawGpu_locals ix this fEX fEY fEZ fMX fMY fMZ fPe fPm fCo gridSize cellSize
     = Ok l) /\
  (forall l,
     drawCpu_locals ix this fEX fEY fEZ fMX fMY fMZ fPe fPm fCo gridSize cellSize
     = Ok l ->
     Locals.x l = Math_round fx /\ Locals.y l = Math_round fy /\
     getAt ix fEX gx gy (Locals.x l) (Locals.y l) = Ok (Locals.eX l) /\
     getAt ix fEY gx gy (Locals.x l) (Locals.y l) = Ok (Locals.eY l) /\
     getAt ix fEZ gx gy (Locals.x l) (Locals.y l) = Ok (Locals.eZ l) /\
     getAt ix fMX gx gy (Locals.x l) (Locals.y l) = Ok (Locals.mX l) /\
     getAt ix fMY gx gy (Locals.x l) (Locals.y l) = Ok (Locals.mY l) /\
     getAt ix fMZ gx gy (Locals.x l) (Locals.y l) = Ok (Locals.mZ l)) /\
  ((exists eX eY eZ mX mY mZ pe pm co,
      getAt ix fEX gx gy (Math_round fx) (Math_round fy) = Ok eX /\
      getAt ix fEY gx gy (Math_round fx) (Math_round fy) = Ok eY /\
      getAt ix fEZ gx gy (Math_round fx) (Math_round fy) = Ok eZ /\
      getAt ix fMX gx gy (Math_round fx) (Math_round fy) = Ok mX /\
      getAt ix fMY gx gy (Math_round fx) (Math_round fy) = Ok mY /\
      getAt ix fMZ gx gy (Math_round fx) (Math_round fy) = Ok mZ /\
      getAt ix fPe gx gy (Math_round fx) (Math_round fy) = Ok pe /\
      getAt ix fPm gx gy (Math_round fx) (Math_round fy) = Ok pm /\
      getAt ix fCo gx gy (Math_round fx) (Math_round fy) = Ok co) ->
   exists l,
     drawCpu_locals ix this fEX fEY fEZ fMX fMY fMZ fPe fPm fCo gridSize cellSize
     = Ok l).
Proof.
  intros gx gy fx fy.
  rewrite drawGpu_locals_eq, drawCpu_locals_eq. cbv zeta.
  fold gx gy fx fy.
  split; [ | split; [ | split]].
  - intros l E. apply sample9_Ok in E.
    destruct E as (eX & eY & eZ & mX & mY & mZ & pe & pm & co &
                   E1 & E2 & E3 & E4 & E5 & E6 & _ & _ & _ & ->).
    repeat split; assumption.
  - intros (eX & eY & eZ & mX & mY & mZ & pe & pm & co & E).
    eexists. apply sample9_Ok.
    exists eX, eY, eZ, mX, mY, mZ, pe, pm, co.
    repeat split; try tauto.
  - intros l E. apply sample9_Ok in E.
    destruct E as (eX & eY & eZ & mX & mY & mZ & pe & pm & co &
                   E1 & E2 & E3 & E4 & E5 & E6 & _ & _ & _ & ->).
    repeat split; assumption.
  - intros (eX & eY & eZ & mX & mY & mZ & pe & pm & co & E).
    eexists. apply sample9_Ok.
    exists eX, eY, eZ, mX, mY, mZ, pe, pm, co.
    repeat split; try tauto.
Qed.

Lemma grid_x_0122 : grid_x (pixel_of 0 1 2 2) (grid_of 2 2) = Fin (INR 0).
Proof. rewrite grid_x_of by lia. simpl. f_equal. lra. Qed.

Lemma grid_y_0122 : grid_y (pixel_of 0 1 2 2) (grid_of 2 2) = Fin (INR 1).
Proof. rewrite grid_y_of by lia. simpl. f_equal. lra. Qed.

Lemma magnetic_sampling_witness :
  (exists l,
     drawGpu_locals jsIndex (pixel_of 0 1 2 2)
       grid2 grid2 grid2 grid2 grid2 grid2 ones2 ones2 zero2
       (grid_of 2 2) (Fin 0.02) = Ok l) /\
  (exists l,
     drawCpu_locals jsIndex (pixel_of 0 1 2 2)
       grid2 grid2 grid2 grid2 grid2 grid2 ones2 ones2 zero2
       (grid_of 2 2) (Fin 0.02) = Ok l /\
     getAt jsIndex grid2 (Fin (INR 2)) (Fin (INR 2)) (Locals.x l) (Locals.y l)
     = Ok (Locals.mX l)).
Proof.
  split.
  - apply (proj1 (proj2 (magnetic_sampling jsIndex (pixel_of 0 1 2 2)
             grid2 grid2 grid2 grid2 grid2 grid2 ones2 ones2 zero2
             (grid_of 2 2) (Fin 0.02)))).
    rewrite grid_x_0122, grid_y_0122.
    change (toNumber (item (grid_of 2 2) 0)) with (Fin (INR 2)).
    change (toNumber (item (grid_of 2 2) 1)) with (Fin (INR 2)).
    exists (Num (Fin 3)), (Num (Fin 3)), (Num (Fin 3)),
      (Num (Fin 0)), (Num (Fin 0)), (Num (Fin 0)),
      (Num (Fin 1)), (Num (Fin 1)), (Num (Fin 0)).
    repeat split;
      first [ apply getAt_js_stored; [lia | lia | reflexivity]
            | apply getAt_outside_real; left; simpl; lra ].
  - eexists. split.
    + apply (drawCpu_at 0 1 2 2 2 2 0 1); try lia; try reflexivity.
      * apply (round_real_val _ 0). unfold real_x. simpl. lra.
      * apply (round_real_val _ 1). unfold real_y. simpl. lra.
    + apply (proj1 (proj2 (proj2 (magnetic_sampling jsIndex (pixel_of 0 1 2 2)
               grid2 grid2 grid2 grid2 grid2 grid2 ones2 ones2 zero2
               (grid_of 2 2) (Fin 0.02))))).
      apply (drawCpu_at 0 1 2 2 2 2 0 1); try lia; try reflexivity.
      * apply (round_real_val _ 0). unfold real_x. simpl. lra.
      * apply (round_real_val _ 1). unfold real_y. simpl. lra.
Defined.

(** Why there are two kernels: on plain JavaScript indexing the continuous
    kernel throws as soon as a half-cell offset falls inside the grid. *)
Lemma drawGpu_js_throws :
  drawGpu jsIndex (pixel_of 1 1 2 2)
    grid2 grid2 grid2 grid2 grid2 grid2 ones2 ones2 zero2
    (grid_of 2 2) (Fin 0.02) = Throw TypeError.
Proof.
  assert (X : grid_x (pixel_of 1 1 2 2) (grid_of 2 2) = Fin (INR 1)).
  { rewrite grid_x_of by lia. simpl. f_equal. lra. }
  assert (Y : grid_y (pixel_of 1 1 2 2) (grid_of 2 2) = Fin (INR 1)).
  { rewrite grid_y_of by lia. simpl. f_equal. lra. }
  unfold drawGpu. rewrite drawGpu_locals_eq. cbv zeta. rewrite X, Y.
  change (toNumber (item (grid_of 2 2) 0)) with (Fin (INR 2)).
  change (toNumber (item (grid_of 2 2) 1)) with (Fin (INR 2)).
  unfold sample9.
  rewrite (getAt_js_stored grid2 2 2 1 1 (Fin 4)) by (try lia; reflexivity).
  cbn [bind nsub nadd nneg].
  rewrite getAt_inside by (simpl; lra).
  unfold jsIndex, element.
  rewrite (as_index_fraction _ 0) by (simpl; lra).
  reflexivity.
Qed.

(** ** Scaling the cell size *)

Lemma energy_scaling (c k : R) (s : number) :
  c <> 0 -> k <> 0 ->
  let fb := fun cs : R => ndiv (nmul (Fin 0.02) (Fin 0.02)) (nmul (Fin cs) (Fin cs)) in
  nmul (nmul (fb (k * c)) (fb (k * c))) s
  = nmul (Fin (1 / k ^ 4)) (nmul (nmul (fb c) (fb c)) s).
Proof.
  intros Hc Hk fb. subst fb. cbv beta.
  assert (Hkc : k * c <> 0) by (apply Rmult_integral_contrapositive_currified; assumption).
  rewrite !fieldBrightness_finite by assumption.
  cbn [nmul].
  set (f := 0.02 * 0.02 / (c * c)).
  set (f' := 0.02 * 0.02 / (k * c * (k * c))).
  assert (K4 : 0 < k ^ 4).
  { replace (k ^ 4) with ((k * k) * (k * k)) by ring.
    assert (0 < k * k) by nra. nra. }
  assert (Ef : f' * f' = 1 / k ^ 4 * (f * f)).
  { unfold f, f'. field. split; assumption. }
  assert (Pf : 0 < f * f).
  { assert (f <> 0).
    { unfold f. apply Rmult_integral_contrapositive_currified; [lra | ].
      apply Rinv_neq_0_compat. nra. }
    nra. }
  assert (Pk : 0 < 1 / k ^ 4) by (apply Rdiv_lt_0_compat; lra).
  assert (Pf' : 0 < f' * f') by (rewrite Ef; nra).
  destruct s as [r | | | ].
  - cbn [nmul]. f_equal. rewrite Ef. ring.
  - cbn [nmul]. rewrite !(scale_inf_pos true) by assumption. reflexivity.
  - cbn [nmul]. rewrite !(scale_inf_pos false) by assumption. reflexivity.
  - reflexivity.
Qed.

Lemma sample9_shade_cell (ix : indexer) (gx gy ex ey mx my : number)
    (fEX fEY fEZ fMX fMY fMZ fPe fPm fCo : field)
    (k1 k2 : value -> value -> value -> value -> value -> value ->
             value -> value -> value -> Locals.t) (l : Locals.t) :
  sample9 ix gx gy ex ey mx my fEX fEY fEZ fMX fMY fMZ fPe fPm fCo k1 = Ok l ->
  exists eX eY eZ mX mY mZ pe pm co,
    l = k1 eX eY eZ mX mY mZ pe pm co /\
    sample9 ix gx gy ex ey mx my fEX fEY fEZ fMX fMY fMZ fPe fPm fCo k2
    = Ok (k2 eX eY eZ mX mY mZ pe pm co).
Proof.
  intros E. apply sample9_Ok in E.
  destruct E as (eX & eY & eZ & mX & mY & mZ & pe & pm & co & E).
  exists eX, eY, eZ, mX, mY, mZ, pe, pm, co. split; [tauto | ].
  apply sample9_Ok. exists eX, eY, eZ, mX, mY, mZ, pe, pm, co.
  repeat split; tauto.
Qed.

Lemma shade_energy_scaling this gx gy fx fy x y (c k : R)
    (eX eY eZ mX mY mZ pe pm co : value) :
  c <> 0 -> k <> 0 ->
  let l := shade this gx gy fx fy x y (Fin c) eX eY eZ mX mY mZ pe pm co in
  let l' := shade this gx gy fx fy x y (Fin (k * c)) eX eY eZ mX mY mZ pe pm co in
  Locals.eEnergy l' = nmul (Fin (1 / k ^ 4)) (Locals.eEnergy l) /\
  Locals.mEnergy l' = nmul (Fin (1 / k ^ 4)) (Locals.mEnergy l).
Proof.
  intros Hc Hk l l'. subst l l'.
  rewrite !shade_eEnergy, !shade_mEnergy, !shade_fieldBrightness.
  split; apply (energy_scaling c k); assumption.
Qed.

(** On exact reals: for every non-zero cell size [c] and factor [k], the run
    with [k * c] returns whenever the run with [c] does, and its [eEnergy]
    and [mEnergy] are those of the run with [c] multiplied by [1 / k^4]. *)
Lemma cell_size_scaling_exact (ix : indexer) (this : kernel_this)
    (fEX fEY fEZ fMX fMY fMZ fPe fPm fCo : field)
    (gridSize : list number) (c k : R) :
  c <> 0 -> k <> 0 ->
  (forall l,
     drawGpu_locals ix this fEX fEY fEZ fMX fMY fMZ fPe fPm fCo gridSize (Fin c)
     = Ok l ->
     exists l',
       drawGpu_locals ix this fEX fEY fEZ fMX fMY fMZ fPe fPm fCo gridSize
         (Fin (k * c)) = Ok l' /\
       Locals.eEnergy l' = nmul (Fin (1 / k ^ 4)) (Locals.eEnergy l) /\
       Locals.mEnergy l' = nmul (Fin (1 / k ^ 4)) (Locals.mEnergy l)) /\
  (forall l,
     drawCpu_locals ix this fEX fEY fEZ fMX fMY fMZ fPe fPm fCo gridSize (Fin c)
     = Ok l ->
     exists l',
       drawCpu_locals ix this fEX fEY fEZ fMX fMY fMZ fPe fPm fCo gridSize
         (Fin (k * c)) = Ok l' /\
       Locals.eEnergy l' = nmul (Fin (1 / k ^ 4)) (Locals.eEnergy l) /\
       Locals.mEnergy l' = nmul (Fin (1 / k ^ 4)) (Locals.mEnergy l)).
Proof.
  intros Hc Hk. split; intros l E.
  - rewrite drawGpu_locals_eq in E. cbv zeta in E.
    eapply sample9_shade_cell in E.
    destruct E as (eX & eY & eZ & mX & mY & mZ & pe & pm & co & -> & E').
    eexists. split.
    + rewrite drawGpu_locals_eq. cbv zeta. exact E'.
    + now apply shade_energy_scaling.
  - rewrite drawCpu_locals_eq in E. cbv zeta in E.
    eapply sample9_shade_cell in E.
    destruct E as (eX & eY & eZ & mX & mY & mZ & pe & pm & co & -> & E').
    eexists. split.
    + rewrite drawCpu_locals_eq. cbv zeta. exact E'.
    + now apply shade_energy_scaling.
Qed.

(** ** One output pixel per grid cell *)

Lemma real_x_same (gx px : nat) : (0 < gx)%nat -> real_x gx px gx = INR px.
Proof.
  intros H. unfold real_x. field. apply not_0_INR. lia.
Qed.

Lemma real_y_same (gy py : nat) :
  (py < gy)%nat -> real_y gy py gy = INR (gy - py).
Proof.
  intros H. unfold real_y. rewrite minus_INR by lia. field.
  apply not_0_INR. lia.
Qed.

Lemma round_real_INR (n : nat) : round_real (INR n) = INR n.
Proof.
  rewrite INR_IZR_INZ. apply round_real_val. lra.
Qed.

(** The snapped kernel on the JavaScript backend, at a pixel whose rounded
    row is the first row above the grid. *)
Lemma drawCpu_above (px py W H gx gy : nat) (rx : R)
    (fEX fEY fEZ fMX fMY fMZ fPe fPm fCo : field) (cellSize : number) :
  (0 < W)%nat -> (0 < H)%nat ->
  round_real (real_x gx px W) = rx ->
  round_real (real_y gy py H) = INR gy ->
  drawCpu_locals jsIndex (pixel_of px py W H) fEX fEY fEZ fMX fMY fMZ fPe fPm fCo
    (grid_of gx gy) cellSize
  = Ok (shade (pixel_of px py W H) (Fin (INR gx)) (Fin (INR gy))
          (Fin (real_x gx px W)) (Fin (real_y gy py H))
          (Fin rx) (Fin (INR gy)) cellSize
          (Num (Fin 0)) (Num (Fin 0)) (Num (Fin 0))
          (Num (Fin 0)) (Num (Fin 0)) (Num (Fin 0))
          (Num (Fin 0)) (Num (Fin 0)) (Num (Fin 0))).
Proof.
  intros HW HH Ex Ey.
  rewrite drawCpu_locals_eq. cbv zeta.
  rewrite grid_x_of, grid_y_of by assumption.
  change (toNumber (item (grid_of gx gy) 0)) with (Fin (INR gx)).
  change (toNumber (item (grid_of gx gy) 1)) with (Fin (INR gy)).
  fold (real_x gx px W). fold (real_y gy py H).
  change (Math_round (Fin (real_x gx px W)))
    with (Fin (round_real (real_x gx px W))).
  change (Math_round (Fin (real_y gy py H)))
    with (Fin (round_real (real_y gy py H))).
  rewrite Ex, Ey.
  apply sample9_Ok.
  exists (Num (Fin 0)), (Num (Fin 0)), (Num (Fin 0)), (Num (Fin 0)), (Num (Fin 0)),
    (Num (Fin 0)), (Num (Fin 0)), (Num (Fin 0)), (Num (Fin 0)).
  repeat split; apply getAt_outside_real; right; right; right; lra.
Qed.

Lemma shade_samples_are this gx gy fx fy x y cellSize
    (v1 v2 v3 v4 v5 v6 v7 v8 v9 : number) :
  samples_are
    (shade this gx gy fx fy x y cellSize
       (Num v1) (Num v2) (Num v3) (Num v4) (Num v5) (Num v6)
       (Num v7) (Num v8) (Num v9))
    v1 v2 v3 v4 v5 v6 v7 v8 v9.
Proof. repeat split. Qed.

Lemma well_shaped_stored (f : field) (sx sy i j : nat) :
  well_shaped f sx sy -> (i < sx)%nat -> (j < sy)%nat ->
  exists v, stored f j i = Some v.
Proof.
  intros W Hi Hj.
  destruct (well_shaped_lookup f sx sy i j W Hi Hj) as (row & n & Hr & Hn).
  exists n. unfold stored. now rewrite Hr.
Qed.

(** C8, as amended: with one output pixel per grid cell the snapped kernel's
    rounded coordinate is [x = px] and, the raster being flipped vertically,
    [y = gy - py].  So on the JavaScript backend, for [1 <= py < gy], its
    nine samples are exactly the stored [field[gy - py][px]]. *)
Theorem one_pixel_per_cell (gx gy px py : nat) :
  (px < gx)%nat -> (py < gy)%nat ->
  (forall (ix : indexer) (fEX fEY fEZ fMX fMY fMZ fPe fPm fCo : field)
      (cellSize : number) (l : Locals.t),
      drawCpu_locals ix (pixel_of px py gx gy) fEX fEY fEZ fMX fMY fMZ fPe fPm fCo
        (grid_of gx gy) cellSize = Ok l ->
      Locals.x l = Fin (INR px) /\ Locals.y l = Fin (INR (gy - py))) /\
  (forall (fEX fEY fEZ fMX fMY fMZ fPe fPm fCo : field) (cellSize : number),
      all_fields (fun f => well_shaped f gx gy) fEX fEY fEZ fMX fMY fMZ fPe fPm fCo ->
      exists l,
        drawCpu_locals jsIndex (pixel_of px py gx gy)
          fEX fEY fEZ fMX fMY fMZ fPe fPm fCo (grid_of gx gy) cellSize = Ok l) /\
  (forall f : field, well_shaped f gx gy -> (1 <= py)%nat ->
      exists v, stored f (gy - py) px = Some v /\
        getAt jsIndex f (Fin (INR gx)) (Fin (INR gy))
          (Fin (INR px)) (Fin (INR (gy - py))) = Ok (Num v)) /\
  (forall (fEX fEY fEZ fMX fMY fMZ fPe fPm fCo : field) (cellSize : number),
      all_fields (fun f => well_shaped f gx gy) fEX fEY fEZ fMX fMY fMZ fPe fPm fCo ->
      (1 <= py)%nat ->
      exists l,
        drawCpu_locals jsIndex (pixel_of px py gx gy)
          fEX fEY fEZ fMX fMY fMZ fPe fPm fCo (grid_of gx gy) cellSize = Ok l /\
        Locals.x l = Fin (INR px) /\ Locals.y l = Fin (INR (gy - py)) /\
        reads_stored l fEX fEY fEZ fMX fMY fMZ fPe fPm fCo (gy - py) px).
Proof.
  intros Hx Hy. split; [ | split; [ | split]].
  - intros ix fEX fEY fEZ fMX fMY fMZ fPe fPm fCo cellSize l E.
    rewrite drawCpu_locals_eq in E. cbv zeta in E.
    apply sample9_Ok in E.
    destruct E as (eX & eY & eZ & mX & mY & mZ & pe & pm & co & E).
    destruct E as (_ & _ & _ & _ & _ & _ & _ & _ & _ & ->).
    cbn [shade Locals.x Locals.y].
    rewrite grid_x_of, grid_y_of by lia.
    fold (real_x gx px gx). fold (real_y gy py gy).
    rewrite real_x_same, real_y_same by lia.
    change (Math_round (Fin (INR px))) with (Fin (round_real (INR px))).
    change (Math_round (Fin (INR (gy - py))))
      with (Fin (round_real (INR (gy - py)))).
    now rewrite !round_real_INR.
  - intros fEX fEY fEZ fMX fMY fMZ fPe fPm fCo cellSize
      (W1 & W2 & W3 & W4 & W5 & W6 & W7 & W8 & W9).
    destruct (drawCpu_run jsIndex px py gx gy gx gy
                fEX fEY fEZ fMX fMY fMZ fPe fPm fCo cellSize
                jsIndex_integer_backend)
      as (eX & eY & eZ & mX & mY & mZ & pe & pm & co & E & _);
      try assumption; try lia.
    eexists. exact E.
  - intros f Wf Hp.
    destruct (jsIndex_stored f gx gy px (gy - py) Wf) as (row & v & Hr & Hv & _);
      try lia.
    exists v. split; [unfold stored; now rewrite Hr | ].
    apply getAt_js_stored; try lia. unfold stored. now rewrite Hr.
  - intros fEX fEY fEZ fMX fMY fMZ fPe fPm fCo cellSize
      (W1 & W2 & W3 & W4 & W5 & W6 & W7 & W8 & W9) Hp.
    assert (Hi : (px < gx)%nat) by assumption.
    assert (Hj : (gy - py < gy)%nat) by lia.
    destruct (well_shaped_stored fEX gx gy px (gy - py) W1 Hi Hj) as [v1 S1].
    destruct (well_shaped_stored fEY gx gy px (gy - py) W2 Hi Hj) as [v2 S2].
    destruct (well_shaped_stored fEZ gx gy px (gy - py) W3 Hi Hj) as [v3 S3].
    destruct (well_shaped_stored fMX gx gy px (gy - py) W4 Hi Hj) as [v4 S4].
    destruct (well_shaped_stored fMY gx gy px (gy - py) W5 Hi Hj) as [v5 S5].
    destruct (well_shaped_stored fMZ gx gy px (gy - py) W6 Hi Hj) as [v6 S6].
    destruct (well_shaped_stored fPe gx gy px (gy - py) W7 Hi Hj) as [v7 S7].
    destruct (well_shaped_stored fPm gx gy px (gy - py) W8 Hi Hj) as [v8 S8].
    destruct (well_shaped_stored fCo gx gy px (gy - py) W9 Hi Hj) as [v9 S9].
    eexists. split.
    + apply (drawCpu_at px py gx gy gx gy px (gy - py)
               fEX fEY fEZ fMX fMY fMZ fPe fPm fCo cellSize
               v1 v2 v3 v4 v5 v6 v7 v8 v9); try assumption; try lia.
      * rewrite real_x_same by lia. apply round_real_INR.
      * rewrite real_y_same by lia. apply round_real_INR.
    + cbn [shade Locals.x Locals.y].
      split; [reflexivity | ]. split; [reflexivity | ].
      exists v1, v2, v3, v4, v5, v6, v7, v8, v9.
      repeat (split; [assumption | ]). apply shade_samples_are.
Qed.

Lemma one_pixel_per_cell_witness :
  (1 < 2)%nat /\ (1 < 2)%nat /\ (1 <= 1)%nat /\
  (exists v, stored grid2 (2 - 1) 1 = Some v /\
     getAt jsIndex grid2 (Fin (INR 2)) (Fin (INR 2))
       (Fin (INR 1)) (Fin (INR (2 - 1))) = Ok (Num v)) /\
  (exists l,
     drawCpu_locals jsIndex (pixel_of 1 1 2 2)
       grid2 grid2 grid2 grid2 grid2 grid2 ones2 ones2 zero2
       (grid_of 2 2) (Fin 0.02) = Ok l /\
     Locals.x l = Fin (INR 1) /\ Locals.y l = Fin (INR (2 - 1)) /\
     reads_stored l grid2 grid2 grid2 grid2 grid2 grid2 ones2 ones2 zero2
       (2 - 1) 1).
Proof.
  assert (H : (1 < 2)%nat) by lia.
  assert (H1 : (1 <= 1)%nat) by lia.
  destruct (one_pixel_per_cell 2 2 1 1 H H) as (_ & _ & C & D).
  split; [exact H | ]. split; [exact H | ]. split; [exact H1 | ]. split.
  - exact (C grid2 grid2_shape H1).
  - apply (D grid2 grid2 grid2 grid2 grid2 grid2 ones2 ones2 zero2 (Fin 0.02));
      [ | exact H1].
    repeat split; first [exact grid2_shape | exact ones2_shape | exact zero2_shape].
Defined.

Lemma grid3_shape : well_shaped grid3 2 3.
Proof. literal_field. Qed.

(** C8 as stated fails for the y coordinate: with one pixel per cell of a
    grid of three rows, raster row [py = 1] is sampled at grid row 2, not 1,
    so the value read is [field[2][0] = 5] where direct indexing at
    [(px, py)] reads [field[1][0] = 3]. *)
Lemma drawCpu_row_flipped :
  exists l,
    drawCpu_locals jsIndex (pixel_of 0 1 2 3)
      grid3 grid3 grid3 grid3 grid3 grid3 grid3 grid3 grid3
      (grid_of 2 3) (Fin 0.02) = Ok l /\
    Locals.x l = Fin 0 /\ Locals.y l = Fin 2 /\ Locals.y l <> Fin 1 /\
    Locals.eX l = Num (Fin 5) /\ stored grid3 1 0 = Some (Fin 3).
Proof.
  eexists. split.
  - apply (drawCpu_at 0 1 2 3 2 3 0 2); try lia; try reflexivity.
    + apply (round_real_val _ 0). unfold real_x. simpl. lra.
    + apply (round_real_val _ 2). unfold real_y. simpl. lra.
  - cbn [shade Locals.x Locals.y Locals.eX].
    split; [reflexivity | ].
    split; [f_equal; simpl; lra | ].
    split; [intros E; injection E as E; simpl in E; lra | ].
    split; reflexivity.
Qed.

(** The raster row [py = 0] is mapped to the grid row [gy], which is outside
    the grid: there every sample is the zero fill. *)
Lemma drawCpu_top_row :
  exists l,
    drawCpu_locals jsIndex (pixel_of 0 0 2 2)
      grid2 grid2 grid2 grid2 grid2 grid2 ones2 ones2 zero2
      (grid_of 2 2) (Fin 0.02) = Ok l /\
    Locals.y l = Fin 2 /\ Locals.eX l = Num (Fin 0) /\
    stored grid2 0 0 = Some (Fin 1).
Proof.
  eexists. split.
  - apply (drawCpu_above 0 0 2 2 2 2 0); try lia.
    + apply (round_real_val _ 0). unfold real_x. simpl. lra.
    + apply (round_real_val _ 2). unfold real_y. simpl. lra.
  - cbn [shade Locals.x Locals.y Locals.eX].
    split; [f_equal; simpl; lra | ].
    split; reflexivity.
Qed.

(** ** The green channel and the material fields *)

Lemma shade_green_materials this gx gy fx fy x y cellSize
    (eX eY eZ mX mY mZ pe pm pe' pm' co : value) :
  green (Locals.pixel (shade this gx gy fx fy x y cellSize eX eY eZ mX mY mZ pe pm co))
  = green (Locals.pixel
             (shade this gx gy fx fy x y cellSize eX eY eZ mX mY mZ pe' pm' co)).
Proof. reflexivity. Qed.

Lemma sample9_green (ix : indexer) this (gx gy fx fy ex ey mx my cellSize : number)
    (fEX fEY fEZ fMX fMY fMZ fPe fPm fPe' fPm' fCo : field) (l l' : Locals.t) :
  sample9 ix gx gy ex ey mx my fEX fEY fEZ fMX fMY fMZ fPe fPm fCo
    (shade this gx gy fx fy ex ey cellSize) = Ok l ->
  sample9 ix gx gy ex ey mx my fEX fEY fEZ fMX fMY fMZ fPe' fPm' fCo
    (shade this gx gy fx fy ex ey cellSize) = Ok l' ->
  green (Locals.pixel l) = green (Locals.pixel l').
Proof.
  intros E E'. apply sample9_Ok in E. apply sample9_Ok in E'.
  destruct E as (eX & eY & eZ & mX & mY & mZ & pe & pm & co &
                 E1 & E2 & E3 & E4 & E5 & E6 & _ & _ & E9 & ->).
  destruct E' as (eX' & eY' & eZ' & mX' & mY' & mZ' & pe' & pm' & co' &
                  E1' & E2' & E3' & E4' & E5' & E6' & _ & _ & E9' & ->).
  rewrite E1 in E1'. rewrite E2 in E2'. rewrite E3 in E3'.
  rewrite E4 in E4'. rewrite E5 in E5'. rewrite E6 in E6'. rewrite E9 in E9'.
  injection E1' as <-. injection E2' as <-. injection E3' as <-.
  injection E4' as <-. injection E5' as <-. injection E6' as <-.
  injection E9' as <-.
  apply shade_green_materials.
Qed.

Lemma drawGpu_green_materials (ix : indexer) this
    (fEX fEY fEZ fMX fMY fMZ fPe fPm fPe' fPm' fCo : field) gridSize cellSize
    (col col' : color) :
  drawGpu ix this fEX fEY fEZ fMX fMY fMZ fPe fPm fCo gridSize cellSize = Ok col ->
  drawGpu ix this fEX fEY fEZ fMX fMY fMZ fPe' fPm' fCo gridSize cellSize = Ok col' ->
  green col = green col'.
Proof.
  intros E E'.
  apply drawGpu_locals_of in E. destruct E as (l & E & ->).
  apply drawGpu_locals_of in E'. destruct E' as (l' & E' & ->).
  rewrite drawGpu_locals_eq in E, E'. cbv zeta in E, E'.
  eapply sample9_green; eassumption.
Qed.

Lemma drawCpu_green_materials (ix : indexer) this
    (fEX fEY fEZ fMX fMY fMZ fPe fPm fPe' fPm' fCo : field) gridSize cellSize
    (col col' : color) :
  drawCpu ix this fEX fEY fEZ fMX fMY fMZ fPe fPm fCo gridSize cellSize = Ok col ->
  drawCpu ix this fEX fEY fEZ fMX fMY fMZ fPe' fPm' fCo gridSize cellSize = Ok col' ->
  green col = green col'.
Proof.
  intros E E'.
  apply drawCpu_locals_of in E. destruct E as (l & E & ->).
  apply drawCpu_locals_of in E'. destruct E' as (l' & E' & ->).
  rewrite drawCpu_locals_eq in E, E'. cbv zeta in E, E'.
  eapply sample9_green; eassumption.
Qed.

(** C9: the green channel does not depend on the permittivity and
    permeability fields.  Two runs of a kernel that differ in these two fields
    only and both return a colour return the same green; and on well-formed
    input both runs do return. *)
Theorem green_ignores_materials :
  (forall (ix : indexer) this
      (fEX fEY fEZ fMX fMY fMZ fPe fPm fPe' fPm' fCo : field) gridSize cellSize
      (col col' : color),
      drawGpu ix this fEX fEY fEZ fMX fMY fMZ fPe fPm fCo gridSize cellSize = Ok col ->
      drawGpu ix this fEX fEY fEZ fMX fMY fMZ fPe' fPm' fCo gridSize cellSize = Ok col' ->
      green col = green col') /\
  (forall (ix : indexer) this
      (fEX fEY fEZ fMX fMY fMZ fPe fPm fPe' fPm' fCo : field) gridSize cellSize
      (col col' : color),
      drawCpu ix this fEX fEY fEZ fMX fMY fMZ fPe fPm fCo gridSize cellSize = Ok col ->
      drawCpu ix this fEX fEY fEZ fMX fMY fMZ fPe' fPm' fCo gridSize cellSize = Ok col' ->
      green col = green col') /\
  (forall (ix : indexer) (px py W H gx gy : nat)
      (fEX fEY fEZ fMX fMY fMZ fPe fPm fPe' fPm' fCo : field) cellSize,
      fractional_backend ix -> (px < W)%nat -> (py < H)%nat ->
      all_fields (fun f => well_shaped f gx gy) fEX fEY fEZ fMX fMY fMZ fPe fPm fCo ->
      well_shaped fPe' gx gy -> well_shaped fPm' gx gy ->
      exists col col',
        drawGpu ix (pixel_of px py W H) fEX fEY fEZ fMX fMY fMZ fPe fPm fCo
          (grid_of gx gy) cellSize = Ok col /\
        drawGpu ix (pixel_of px py W H) fEX fEY fEZ fMX fMY fMZ fPe' fPm' fCo
          (grid_of gx gy) cellSize = Ok col' /\
        green col = green col') /\
  (forall (ix : indexer) (px py W H gx gy : nat)
      (fEX fEY fEZ fMX fMY fMZ fPe fPm fPe' fPm' fCo : field) cellSize,
      integer_backend ix -> (px < W)%nat -> (py < H)%nat ->
      all_fields (fun f => well_shaped f gx gy) fEX fEY fEZ fMX fMY fMZ fPe fPm fCo ->
      well_shaped fPe' gx gy -> well_shaped fPm' gx gy ->
      exists col col',
        drawCpu ix (pixel_of px py W H) fEX fEY fEZ fMX fMY fMZ fPe fPm fCo
          (grid_of gx gy) cellSize = Ok col /\
        drawCpu ix (pixel_of px py W H) fEX fEY fEZ fMX fMY fMZ fPe' fPm' fCo
          (grid_of gx gy) cellSize = Ok col' /\
        green col = green col').
Proof.
  split; [exact drawGpu_green_materials | ].
  split; [exact drawCpu_green_materials | ].
  split.
  - intros ix px py W H gx gy fEX fEY fEZ fMX fMY fMZ fPe fPm fPe' fPm' fCo cellSize
      B Hx Hy (W1 & W2 & W3 & W4 & W5 & W6 & W7 & W8 & W9) W7' W8'.
    destruct (drawGpu_run ix px py W H gx gy fEX fEY fEZ fMX fMY fMZ fPe fPm fCo
                cellSize B) as (eX & eY & eZ & mX & mY & mZ & pe & pm & co & E & _);
      try assumption; try lia.
    destruct (drawGpu_run ix px py W H gx gy fEX fEY fEZ fMX fMY fMZ fPe' fPm' fCo
                cellSize B) as (eX' & eY' & eZ' & mX' & mY' & mZ' & pe' & pm' & co' &
                                E' & _);
      try assumption; try lia.
    apply drawGpu_of_locals in E. apply drawGpu_of_locals in E'.
    eexists. eexists. split; [exact E | ]. split; [exact E' | ].
    eapply drawGpu_green_materials; eassumption.
  - intros ix px py W H gx gy fEX fEY fEZ fMX fMY fMZ fPe fPm fPe' fPm' fCo cellSize
      B Hx Hy (W1 & W2 & W3 & W4 & W5 & W6 & W7 & W8 & W9) W7' W8'.
    destruct (drawCpu_run ix px py W H gx gy fEX fEY fEZ fMX fMY fMZ fPe fPm fCo
                cellSize B) as (eX & eY & eZ & mX & mY & mZ & pe & pm & co & E & _);
      try assumption; try lia.
    destruct (drawCpu_run ix px py W H gx gy fEX fEY fEZ fMX fMY fMZ fPe' fPm' fCo
                cellSize B) as (eX' & eY' & eZ' & mX' & mY' & mZ' & pe' & pm' & co' &
                                E' & _);
      try assumption; try lia.
    apply drawCpu_of_locals in E. apply drawCpu_of_locals in E'.
    eexists. eexists. split; [exact E | ]. split; [exact E' | ].
    eapply drawCpu_green_materials; eassumption.
Qed.

Lemma green_ignores_materials_witness :
  (exists col col',
     drawGpu truncIndex (pixel_of 1 1 2 2)
       grid2 grid2 grid2 grid2 grid2 grid2 ones2 ones2 cond2
       (grid_of 2 2) (Fin 0.02) = Ok col /\
     drawGpu truncIndex (pixel_of 1 1 2 2)
       grid2 grid2 grid2 grid2 grid2 grid2 grid2 zero2 cond2
       (grid_of 2 2) (Fin 0.02) = Ok col' /\
     green col = green col') /\
  (exists col col',
     drawCpu jsIndex (pixel_of 1 1 2 2)
       grid2 grid2 grid2 grid2 grid2 grid2 ones2 ones2 cond2
       (grid_of 2 2) (Fin 0.02) = Ok col /\
     drawCpu jsIndex (pixel_of 1 1 2 2)
       grid2 grid2 grid2 grid2 grid2 grid2 grid2 zero2 cond2
       (grid_of 2 2) (Fin 0.02) = Ok col' /\
     green col = green col').
Proof.
  destruct green_ignores_materials as (_ & _ & G & C). split.
  - apply G.
    + exact truncIndex_fractional_backend.
    + lia.
    + lia.
    + repeat split; first [exact grid2_shape | exact ones2_shape | exact cond2_shape].
    + exact grid2_shape.
    + exact zero2_shape.
  - apply C.
    + exact jsIndex_integer_backend.
    + lia.
    + lia.
    + repeat split; first [exact grid2_shape | exact ones2_shape | exact cond2_shape].
    + exact grid2_shape.
    + exact zero2_shape.
Defined.

(** * The functions on binary64 *)

Section Binary64.

Local Open Scope float_scope.

(** ** Comparisons *)

Lemma compare_cont_swap (p q : positive) :
  Pos.compare_cont Eq q p = CompOpp (Pos.compare_cont Eq p q).
Proof. now rewrite Pos.compare_cont_antisym. Qed.

Lemma SFcompare_antisym (a b : spec_float) :
  SFcompare b a = option_map CompOpp (SFcompare a b).
Proof.
  destruct a as [sa | sa | | sa ma ea], b as [sb | sb | | sb mb eb];
    try reflexivity;
    try (destruct sa; reflexivity);
    try (destruct sb; reflexivity);
    try (destruct sa, sb; reflexivity).
  cbn [SFcompare option_map].
  rewrite (Z.compare_antisym ea eb), (compare_cont_swap ma mb).
  destruct sa, sb; try reflexivity;
    destruct (Z.compare ea eb); cbn [CompOpp]; try reflexivity;
    destruct (Pos.compare_cont Eq ma mb); reflexivity.
Qed.

Lemma SFcompare_some (a b : spec_float) :
  a <> S754_nan -> b <> S754_nan -> exists c, SFcompare a b = Some c.
Proof.
  destruct a as [sa | sa | | sa ma ea], b as [sb | sb | | sb mb eb];
    intros Ha Hb; try congruence; cbn [SFcompare]; eexists; reflexivity.
Qed.

Lemma ltb_leb (x y : float) : (x <? y) = true -> (x <=? y) = true.
Proof.
  rewrite FloatAxioms.ltb_spec, FloatAxioms.leb_spec. unfold SFltb, SFleb.
  destruct (SFcompare _ _) as [[ | | ] | ]; congruence.
Qed.

Lemma ltb_not_leb (x y : float) : (x <? y) = true -> (y <=? x) = false.
Proof.
  rewrite FloatAxioms.ltb_spec, FloatAxioms.leb_spec. unfold SFltb, SFleb.
  rewrite (SFcompare_antisym (Prim2SF x) (Prim2SF y)).
  destruct (SFcompare _ _) as [[ | | ] | ]; cbn; congruence.
Qed.

Lemma is_nan_spec (x : float) : is_nan x = false -> Prim2SF x <> S754_nan.
Proof.
  unfold is_nan. rewrite FloatAxioms.eqb_spec. intros H E. rewrite E in H.
  discriminate.
Qed.

Lemma leb_total (x y : float) :
  is_nan x = false -> is_nan y = false ->
  (x <? y) = false -> (x <=? y) = true \/ (y <? x) = true.
Proof.
  intros Hx Hy. rewrite !FloatAxioms.ltb_spec, FloatAxioms.leb_spec.
  unfold SFltb, SFleb.
  rewrite (SFcompare_antisym (Prim2SF x) (Prim2SF y)).
  destruct (SFcompare_some _ _ (is_nan_spec x Hx) (is_nan_spec y Hy)) as [c ->].
  destruct c; cbn; auto.
Qed.

Lemma leb_0_1 (x : float) : (x <=? 0) = true -> (1 <=? x) = false.
Proof.
  rewrite !FloatAxioms.leb_spec. unfold SFleb.
  change (Prim2SF 0) with (S754_zero false).
  change (Prim2SF 1) with (S754_finite false 4503599627370496 (-52)).
  destruct (Prim2SF x) as [s | s | | s m e]; try reflexivity;
    destruct s; cbn; congruence.
Qed.

Lemma leb_1_0 (x : float) : (1 <=? x) = true -> (x <=? 0) = false.
Proof.
  intros H. destruct (x <=? 0) eqn:E; [ | reflexivity].
  apply leb_0_1 in E. congruence.
Qed.

(** ** The smoothstep helper *)

(** C7, as amended: on binary64, [nativeSmoothStep] is exactly 0 on every
    [t <= 0], exactly 1 on every [t >= 1], and the rounded value of
    [3 * t * t - 2 * t * t * t] for [0 < t < 1]; it takes 0.5 to 0.5. *)
Theorem nativeSmoothStep_spec :
  (forall x : float, (x <=? 0) = true -> B64.nativeSmoothStep x = 0) /\
  (forall x : float, (1 <=? x) = true -> B64.nativeSmoothStep x = 1) /\
  (forall x : float, (0 <? x) = true -> (x <? 1) = true ->
     B64.nativeSmoothStep x = 3 * x * x - 2 * x * x * x) /\
  B64.nativeSmoothStep 0.5 = 0.5.
Proof.
  split; [ | split; [ | split]].
  - intros x H. unfold B64.nativeSmoothStep. now rewrite H.
  - intros x H. unfold B64.nativeSmoothStep.
    now rewrite (leb_1_0 x H), H.
  - intros x H0 H1. unfold B64.nativeSmoothStep.
    now rewrite (ltb_not_leb 0 x H0), (ltb_not_leb x 1 H1).
  - reflexivity.
Qed.

Lemma nativeSmoothStep_spec_witness :
  (-1 <=? 0) = true /\ B64.nativeSmoothStep (-1) = 0 /\
  (1 <=? 2) = true /\ B64.nativeSmoothStep 2 = 1 /\
  (0 <? 0.25) = true /\ (0.25 <? 1) = true /\
  B64.nativeSmoothStep 0.25 = 3 * 0.25 * 0.25 - 2 * 0.25 * 0.25 * 0.25.
Proof.
  destruct nativeSmoothStep_spec as (A & B & C & _).
  assert (H1 : (-1 <=? 0) = true) by reflexivity.
  assert (H2 : (1 <=? 2) = true) by reflexivity.
  assert (H3 : (0 <? 0.25) = true) by reflexivity.
  assert (H4 : (0.25 <? 1) = true) by reflexivity.
  split; [exact H1 | ]. split; [exact (A (-1) H1) | ].
  split; [exact H2 | ]. split; [exact (B 2 H2) | ].
  split; [exact H3 | ]. split; [exact H4 | exact (C 0.25 H3 H4)].
Defined.

(** C7 as stated fails in its last part: on binary64 the helper is not
    monotone on [[0, 1]].  Just below 1 the rounded cubic exceeds 1, the
    value at 1, and between two neighbouring numbers near 0.83 it falls. *)
Lemma nativeSmoothStep_not_monotone :
  (0 <=? 0.9999999999999997) = true /\
  (0.9999999999999997 <? 1) = true /\
  B64.nativeSmoothStep 0.9999999999999997 = 1.0000000000000002 /\
  B64.nativeSmoothStep 1 = 1 /\
  (B64.nativeSmoothStep 1 <? B64.nativeSmoothStep 0.9999999999999997) = true /\
  (0.8321257986698456 <? 0.8321257986698457) = true /\
  (B64.nativeSmoothStep 0.8321257986698457
   <? B64.nativeSmoothStep 0.8321257986698456) = true.
Proof. repeat split; vm_compute; reflexivity. Qed.

(** ** Runs of the kernels *)

Lemma bind_Ok {A B : Type} (m : result A) (k : A -> result B) (b : B) :
  bind m k = Ok b -> exists a, m = Ok a /\ k a = Ok b.
Proof. destruct m as [a | e]; [ | discriminate]. intros H. now exists a. Qed.

Ltac run_inversion H :=
  cbv zeta in H;
  repeat (let v := fresh "v" in
          let E := fresh "E" in
          apply bind_Ok in H; destruct H as (v & E & H));
  injection H as H.

(** ** The cell size *)




(** A cell size so small that the squared brightness overflows: with
    all-zero fields both energies and the green channel are [NaN], whatever
    [Math.exp] returns. *)
Lemma tiny_cell_size_nan (Math_exp : float -> float) :
  exists l,
    B64.drawCpu_locals Math_exp B64.jsIndex (pixel64 0 1 2 2)
      zeros64 zeros64 zeros64 zeros64 zeros64 zeros64 zeros64 zeros64 zeros64
      [2; 2] 1e-100 = Ok l /\
    B64.Locals.fieldBrightness l = 4.000000000000001e+196 /\
    B64.Locals.fieldBrightness l * B64.Locals.fieldBrightness l = infinity /\
    B64.Locals.eEnergy l = nan /\ B64.Locals.mEnergy l = nan /\
    B64.green (B64.Locals.pixel l) = nan.
Proof.
  eexists. split; [vm_compute; reflexivity | ].
  repeat split; vm_compute; reflexivity.
Qed.

(** ** Grid coordinates *)

(** The grid coordinate is rounded before [Math.round] sees it.  At pixel
    [(0, 5)] of a 2 by 6 raster over a 2 by 3 grid, [3 * (1 - 5 / 6)] is the
    number just below 0.5, and the snapped kernel reads row 0, where exact
    arithmetic gives 0.5 and row 1; and at one pixel per cell of a grid of
    5 rows, [5 * (1 - 4 / 5)] is not 1.  This holds whatever [Math.exp]
    returns. *)
Lemma grid_coordinate_is_rounded (Math_exp : float -> float) :
  (exists l,
     B64.drawCpu_locals Math_exp B64.jsIndex (pixel64 0 5 2 6)
       grid64 grid64 grid64 grid64 grid64 grid64 grid64 grid64 grid64
       [2; 3] 0.02 = Ok l /\
     B64.Locals.fy l = 0.49999999999999989 /\ B64.Locals.y l = 0 /\
     B64.Locals.eX l = B64.Num 1) /\
  5 * (1 - 4 / 5) = 0.99999999999999978.
Proof.
  split; [ | reflexivity].
  eexists. split; [vm_compute; reflexivity | ].
  repeat split; vm_compute; reflexivity.
Qed.

(** ** The clamp *)

(** What [Math.min(1, v)] can be. *)
Lemma Math_min_one (v : float) : capped (B64.Math_min 1 v).
Proof.
  unfold capped, B64.Math_min.
  change (is_nan 1) with false. cbn [orb].
  destruct (is_nan v) eqn:Nv; [left; reflexivity | right].
  destruct (v <? 1) eqn:L1; [now apply ltb_leb | ].
  destruct (1 <? v) eqn:L2; [reflexivity | ].
  destruct (get_sign v); [ | reflexivity].
  destruct (leb_total v 1 Nv eq_refl L1) as [H | H]; [exact H | congruence].
Qed.

(** X15: on binary64, whatever the input (any pixel and raster, any fields,
    grid size and cell size, finite or not, any backend and any result of
    [Math.exp]), every colour that a kernel returns has each channel [NaN]
    or at most 1. *)
Theorem binary64_channels_capped (Math_exp : float -> float) (ix : B64.indexer)
    (this : B64.kernel_this)
    (fEX fEY fEZ fMX fMY fMZ fPe fPm fCo : B64.field)
    (gridSize : list float) (cellSize : float) :
  (forall col,
     B64.drawGpu Math_exp ix this fEX fEY fEZ fMX fMY fMZ fPe fPm fCo
       gridSize cellSize = Ok col ->
     capped (B64.red col) /\ capped (B64.green col) /\ capped (B64.blue col)) /\
  (forall col,
     B64.drawCpu Math_exp ix this fEX fEY fEZ fMX fMY fMZ fPe fPm fCo
       gridSize cellSize = Ok col ->
     capped (B64.red col) /\ capped (B64.green col) /\ capped (B64.blue col)).
Proof.
  split; intros col H.
  - unfold B64.drawGpu in H. apply bind_Ok in H. destruct H as (l & H & C).
    injection C as <-.
    unfold B64.drawGpu_locals in H. run_inversion H. subst l.
    cbn [B64.Locals.pixel B64.red B64.green B64.blue].
    repeat split; apply Math_min_one.
  - unfold B64.drawCpu in H. apply bind_Ok in H. destruct H as (l & H & C).
    injection C as <-.
    unfold B64.drawCpu_locals in H. run_inversion H. subst l.
    cbn [B64.Locals.pixel B64.red B64.green B64.blue].
    repeat split; apply Math_min_one.
Qed.

Lemma binary64_channels_capped_witness :
  exists col,
    B64.drawCpu (fun _ => 1) B64.jsIndex (pixel64 0 1 2 2)
      threes64 threes64 threes64 threes64 threes64 threes64
      threes64 threes64 threes64 [2; 2] 0.02 = Ok col /\
    capped (B64.red col) /\ capped (B64.green col) /\ capped (B64.blue col).
Proof.
  eexists. split; [reflexivity | ].
  exact (proj2 (binary64_channels_capped (fun _ => 1) B64.jsIndex
                  (pixel64 0 1 2 2)
                  threes64 threes64 threes64 threes64 threes64 threes64
                  threes64 threes64 threes64 [2; 2] 0.02) _ eq_refl).
Defined.

End Binary64.

(** * Further properties of the four functions *)

(** ** The sampler at coordinates that are not finite *)

Lemma getAt_infinite_x (ix : indexer) (f : field) (sx sy : R) (x y : number) :
  x = PInf \/ x = NInf ->
  getAt ix f (Fin sx) (Fin sy) x y = Ok (Num (Fin 0)).
Proof.
  intros [-> | ->]; apply getAt_outside.
  - right; left. reflexivity.
  - left. reflexivity.
Qed.

Lemma getAt_infinite_y (ix : indexer) (f : field) (sx sy : R) (x y : number) :
  y = PInf \/ y = NInf ->
  getAt ix f (Fin sx) (Fin sy) x y = Ok (Num (Fin 0)).
Proof.
  intros [-> | ->]; apply getAt_outside.
  - right; right; right. reflexivity.
  - right; right; left. reflexivity.
Qed.

Lemma getAt_NaN_row (f : field) (sx sy x : number) :
  (x <? 0)%js = false -> (x >=? sx)%js = false ->
  getAt jsIndex f sx sy x NaN = Throw TypeError.
Proof.
  intros H1 H2. unfold getAt. rewrite H1, H2.
  destruct sy; reflexivity.
Qed.

Lemma getAt_NaN_column (f : field) (sx sy : R) (j : nat) (row : list number) :
  INR j < sy -> nth_error f j = Some row ->
  getAt jsIndex f (Fin sx) (Fin sy) NaN (Fin (INR j)) = Ok Undefined.
Proof.
  intros Hj Hr. unfold getAt, nge.
  rewrite (proj2 (nlt_Fin_false (INR j) 0)) by apply pos_INR.
  rewrite (proj2 (nle_Fin_false sy (INR j))) by assumption.
  cbn [nlt nle orb]. unfold jsIndex. now rewrite element_INR, Hr.
Qed.

(** X4: the bounds check of [getAt] catches an infinite coordinate (the
    result is the zero fill on every backend) but not a [NaN] coordinate,
    which fails all four comparisons: with JavaScript indexing a [NaN] row
    coordinate then throws a [TypeError], and a [NaN] column coordinate in a
    stored row yields [undefined]. *)
Theorem getAt_not_finite :
  (forall (ix : indexer) (f : field) (sx sy : R) (x y : number),
      x = PInf \/ x = NInf \/ y = PInf \/ y = NInf ->
      getAt ix f (Fin sx) (Fin sy) x y = Ok (Num (Fin 0))) /\
  (forall (f : field) (sx sy : number),
      getAt jsIndex f sx sy NaN NaN = Throw TypeError) /\
  (forall (f : field) (sx sy x : R),
      0 <= x < sx ->
      getAt jsIndex f (Fin sx) (Fin sy) (Fin x) NaN = Throw TypeError) /\
  (forall (f : field) (sx sy : R) (j : nat) (row : list number),
      INR j < sy -> nth_error f j = Some row ->
      getAt jsIndex f (Fin sx) (Fin sy) NaN (Fin (INR j)) = Ok Undefined).
Proof.
  split; [ | split; [ | split]].
  - intros ix f sx sy x y [H | [H | [H | H]]].
    + apply getAt_infinite_x. now left.
    + apply getAt_infinite_x. now right.
    + apply getAt_infinite_y. now left.
    + apply getAt_infinite_y. now right.
  - intros f sx sy. apply getAt_NaN_row; [reflexivity | ].
    unfold nge. destruct sx; reflexivity.
  - intros f sx sy x [H0 H1]. apply getAt_NaN_row.
    + now apply nlt_Fin_false.
    + unfold nge. now apply nle_Fin_false.
  - exact getAt_NaN_column.
Qed.

Lemma getAt_not_finite_witness :
  getAt jsIndex grid2 (Fin 2) (Fin 2) PInf (Fin 0) = Ok (Num (Fin 0)) /\
  getAt jsIndex grid2 (Fin 2) (Fin 2) (Fin 1) NaN = Throw TypeError /\
  getAt jsIndex grid2 (Fin 2) (Fin 2) NaN (Fin (INR 1)) = Ok Undefined.
Proof.
  destruct getAt_not_finite as (Inf & _ & Row & Col).
  split; [apply Inf; now left | ].
  split; [apply Row; lra | ].
  apply (Col grid2 2 2 1%nat [Fin 3; Fin 4]); [simpl; lra | reflexivity].
Defined.

(** ** A grid size without entries *)

Lemma sample9_first_throws (ix : indexer) (gx gy ex ey mx my : number)
    (fEX fEY fEZ fMX fMY fMZ fPe fPm fCo : field)
    (k : value -> value -> value -> value -> value -> value ->
         value -> value -> value -> Locals.t) (e : error) :
  getAt ix fEX gx gy ex ey = Throw e ->
  sample9 ix gx gy ex ey mx my fEX fEY fEZ fMX fMY fMZ fPe fPm fCo k = Throw e.
Proof. intros E. unfold sample9. now rewrite E. Qed.

Lemma nmul_NaN_l (a : number) : nmul NaN a = NaN.
Proof. reflexivity. Qed.

Lemma ndiv_NaN_l (a : number) : ndiv NaN a = NaN.
Proof. reflexivity. Qed.

Lemma grid_NaN (this : kernel_this) (gridSize : list number) :
  toNumber (item gridSize 0) = NaN -> toNumber (item gridSize 1) = NaN ->
  grid_x this gridSize = NaN /\ grid_y this gridSize = NaN.
Proof.
  intros H0 H1. unfold grid_x, grid_y. rewrite H0, H1. split; reflexivity.
Qed.

(** X5: neither kernel checks [gridSize].  When its two entries are missing
    (an empty array: [gridSize[i]] is [undefined]) or [NaN], the grid
    coordinate is [NaN], the bounds check of the sampler lets it through, and
    on JavaScript indexing both kernels throw a [TypeError] at their first
    sample, for every pixel, raster, field and cell size. *)
Theorem missing_grid_size_throws (this : kernel_this)
    (fEX fEY fEZ fMX fMY fMZ fPe fPm fCo : field)
    (gridSize : list number) (cellSize : number) :
  toNumber (item gridSize 0) = NaN -> toNumber (item gridSize 1) = NaN ->
  drawGpu jsIndex this fEX fEY fEZ fMX fMY fMZ fPe fPm fCo gridSize cellSize
  = Throw TypeError /\
  drawCpu jsIndex this fEX fEY fEZ fMX fMY fMZ fPe fPm fCo gridSize cellSize
  = Throw TypeError.
Proof.
  intros H0 H1. destruct (grid_NaN this gridSize H0 H1) as [X Y].
  unfold drawGpu, drawCpu. rewrite drawGpu_locals_eq, drawCpu_locals_eq.
  cbv zeta. rewrite X, Y, H0, H1. cbn [Math_round].
  rewrite !(sample9_first_throws jsIndex NaN NaN NaN NaN _ _ _ _ _ _ _ _ _ _ _ _ TypeError)
    by reflexivity.
  split; reflexivity.
Qed.

Lemma missing_grid_size_throws_witness :
  drawGpu jsIndex (pixel_of 0 1 2 2) grid2 grid2 grid2 grid2 grid2 grid2
    ones2 ones2 zero2 [] (Fin 0.02) = Throw TypeError /\
  drawCpu jsIndex (pixel_of 0 1 2 2) grid2 grid2 grid2 grid2 grid2 grid2
    ones2 ones2 zero2 [] (Fin 0.02) = Throw TypeError.
Proof.
  apply missing_grid_size_throws; reflexivity.
Defined.

(** ** What the red and the blue channel do not read *)

Lemma sample9_red (ix : indexer) this (gx gy fx fy ex ey mx my cellSize : number)
    (fEX fEY fEZ fMX fMY fMZ fPe fPm fMX' fMY' fMZ' fPm' fCo : field)
    (l l' : Locals.t) :
  sample9 ix gx gy ex ey mx my fEX fEY fEZ fMX fMY fMZ fPe fPm fCo
    (shade this gx gy fx fy ex ey cellSize) = Ok l ->
  sample9 ix gx gy ex ey mx my fEX fEY fEZ fMX' fMY' fMZ' fPe fPm' fCo
    (shade this gx gy fx fy ex ey cellSize) = Ok l' ->
  red (Locals.pixel l) = red (Locals.pixel l').
Proof.
  intros E E'. apply sample9_Ok in E. apply sample9_Ok in E'.
  destruct E as (eX & eY & eZ & mX & mY & mZ & pe & pm & co &
                 E1 & E2 & E3 & _ & _ & _ & E7 & _ & E9 & ->).
  destruct E' as (eX' & eY' & eZ' & mX' & mY' & mZ' & pe' & pm' & co' &
                  E1' & E2' & E3' & _ & _ & _ & E7' & _ & E9' & ->).
  rewrite E1 in E1'. rewrite E2 in E2'. rewrite E3 in E3'.
  rewrite E7 in E7'. rewrite E9 in E9'.
  injection E1' as <-. injection E2' as <-. injection E3' as <-.
  injection E7' as <-. injection E9' as <-.
  reflexivity.
Qed.

Lemma sample9_blue (ix : indexer) this (gx gy fx fy ex ey mx my cellSize : number)
    (fEX fEY fEZ fMX fMY fMZ fPe fPm fEX' fEY' fEZ' fPe' fCo : field)
    (l l' : Locals.t) :
  sample9 ix gx gy ex ey mx my fEX fEY fEZ fMX fMY fMZ fPe fPm fCo
    (shade this gx gy fx fy ex ey cellSize) = Ok l ->
  sample9 ix gx gy ex ey mx my fEX' fEY' fEZ' fMX fMY fMZ fPe' fPm fCo
    (shade this gx gy fx fy ex ey cellSize) = Ok l' ->
  blue (Locals.pixel l) = blue (Locals.pixel l').
Proof.
  intros E E'. apply sample9_Ok in E. apply sample9_Ok in E'.
  destruct E as (eX & eY & eZ & mX & mY & mZ & pe & pm & co &
                 _ & _ & _ & E4 & E5 & E6 & _ & E8 & E9 & ->).
  destruct E' as (eX' & eY' & eZ' & mX' & mY' & mZ' & pe' & pm' & co' &
                  _ & _ & _ & E4' & E5' & E6' & _ & E8' & E9' & ->).
  rewrite E4 in E4'. rewrite E5 in E5'. rewrite E6 in E6'.
  rewrite E8 in E8'. rewrite E9 in E9'.
  injection E4' as <-. injection E5' as <-. injection E6' as <-.
  injection E8' as <-. injection E9' as <-.
  reflexivity.
Qed.

(** X6: in both kernels the red channel reads neither the magnetic fields
    nor the permeability, and the blue channel reads neither the electric
    fields nor the permittivity: two runs that differ in these fields only
    and both return give the same red, respectively the same blue. *)
Theorem red_and_blue_separate (ix : indexer) (this : kernel_this)
    (fEX fEY fEZ fMX fMY fMZ fPe fPm fCo : field)
    (gridSize : list number) (cellSize : number) :
  (forall (fMX' fMY' fMZ' fPm' : field) (col col' : color),
     drawGpu ix this fEX fEY fEZ fMX fMY fMZ fPe fPm fCo gridSize cellSize = Ok col ->
     drawGpu ix this fEX fEY fEZ fMX' fMY' fMZ' fPe fPm' fCo gridSize cellSize
     = Ok col' ->
     red col = red col') /\
  (forall (fEX' fEY' fEZ' fPe' : field) (col col' : color),
     drawGpu ix this fEX fEY fEZ fMX fMY fMZ fPe fPm fCo gridSize cellSize = Ok col ->
     drawGpu ix this fEX' fEY' fEZ' fMX fMY fMZ fPe' fPm fCo gridSize cellSize
     = Ok col' ->
     blue col = blue col') /\
  (forall (fMX' fMY' fMZ' fPm' : field) (col col' : color),
     drawCpu ix this fEX fEY fEZ fMX fMY fMZ fPe fPm fCo gridSize cellSize = Ok col ->
     drawCpu ix this fEX fEY fEZ fMX' fMY' fMZ' fPe fPm' fCo gridSize cellSize
     = Ok col' ->
     red col = red col') /\
  (forall (fEX' fEY' fEZ' fPe' : field) (col col' : color),
     drawCpu ix this fEX fEY fEZ fMX fMY fMZ fPe fPm fCo gridSize cellSize = Ok col ->
     drawCpu ix this fEX' fEY' fEZ' fMX fMY fMZ fPe' fPm fCo gridSize cellSize
     = Ok col' ->
     blue col = blue col').
Proof.
  split; [ | split; [ | split]].
  - intros fMX' fMY' fMZ' fPm' col col' E E'.
    apply drawGpu_locals_of in E. destruct E as (l & E & ->).
    apply drawGpu_locals_of in E'. destruct E' as (l' & E' & ->).
    rewrite drawGpu_locals_eq in E, E'. cbv zeta in E, E'.
    eapply sample9_red; eassumption.
  - intros fEX' fEY' fEZ' fPe' col col' E E'.
    apply drawGpu_locals_of in E. destruct E as (l & E & ->).
    apply drawGpu_locals_of in E'. destruct E' as (l' & E' & ->).
    rewrite drawGpu_locals_eq in E, E'. cbv zeta in E, E'.
    eapply sample9_blue; eassumption.
  - intros fMX' fMY' fMZ' fPm' col col' E E'.
    apply drawCpu_locals_of in E. destruct E as (l & E & ->).
    apply drawCpu_locals_of in E'. destruct E' as (l' & E' & ->).
    rewrite drawCpu_locals_eq in E, E'. cbv zeta in E, E'.
    eapply sample9_red; eassumption.
  - intros fEX' fEY' fEZ' fPe' col col' E E'.
    apply drawCpu_locals_of in E. destruct E as (l & E & ->).
    apply drawCpu_locals_of in E'. destruct E' as (l' & E' & ->).
    rewrite drawCpu_locals_eq in E, E'. cbv zeta in E, E'.
    eapply sample9_blue; eassumption.
Qed.

Lemma drawCpu_0122 (fEX fEY fEZ fMX fMY fMZ fPe fPm fCo : field)
    (n1 n2 n3 n4 n5 n6 n7 n8 n9 : number) :
  stored fEX 1 0 = Some n1 -> stored fEY 1 0 = Some n2 -> stored fEZ 1 0 = Some n3 ->
  stored fMX 1 0 = Some n4 -> stored fMY 1 0 = Some n5 -> stored fMZ 1 0 = Some n6 ->
  stored fPe 1 0 = Some n7 -> stored fPm 1 0 = Some n8 -> stored fCo 1 0 = Some n9 ->
  drawCpu jsIndex (pixel_of 0 1 2 2) fEX fEY fEZ fMX fMY fMZ fPe fPm fCo
    (grid_of 2 2) (Fin 0.02)
  = Ok (Locals.pixel
          (shade (pixel_of 0 1 2 2) (Fin (INR 2)) (Fin (INR 2))
             (Fin (real_x 2 0 2)) (Fin (real_y 2 1 2))
             (Fin (INR 0)) (Fin (INR 1)) (Fin 0.02)
             (Num n1) (Num n2) (Num n3) (Num n4) (Num n5) (Num n6)
             (Num n7) (Num n8) (Num n9))).
Proof.
  intros S1 S2 S3 S4 S5 S6 S7 S8 S9.
  apply drawCpu_of_locals.
  apply (drawCpu_at 0 1 2 2 2 2 0 1); try lia; try assumption.
  - apply (round_real_val _ 0). unfold real_x. simpl. lra.
  - apply (round_real_val _ 1). unfold real_y. simpl. lra.
Qed.

Lemma red_and_blue_separate_witness :
  exists col col',
    drawCpu jsIndex (pixel_of 0 1 2 2) grid2 grid2 grid2 zero2 zero2 zero2
      ones2 ones2 zero2 (grid_of 2 2) (Fin 0.02) = Ok col /\
    drawCpu jsIndex (pixel_of 0 1 2 2) grid2 grid2 grid2 grid2 grid2 grid2
      ones2 perm2 zero2 (grid_of 2 2) (Fin 0.02) = Ok col' /\
    red col = red col'.
Proof.
  eexists. eexists.
  split; [apply drawCpu_0122; reflexivity | ].
  split; [apply drawCpu_0122; reflexivity | ].
  apply (proj1 (proj2 (proj2 (red_and_blue_separate jsIndex (pixel_of 0 1 2 2)
           grid2 grid2 grid2 zero2 zero2 zero2 ones2 ones2 zero2
           (grid_of 2 2) (Fin 0.02))))
           grid2 grid2 grid2 perm2);
    apply drawCpu_0122; reflexivity.
Defined.

(** ** How far below zero a channel can go *)

Lemma from_field_nonneg (f : field) (v : value) :
  nonneg_field f -> from_field f v -> exists r, v = Num (Fin r) /\ 0 <= r.
Proof.
  intros Nf (n & -> & [-> | He]).
  - exists 0. split; [reflexivity | lra].
  - destruct (Nf n He) as (r & -> & Hr). now exists r.
Qed.

(** The material term [0.8 * background * value] of a channel: the disc of a
    visible material adds up to 0.8, the halo of an invisible one takes away
    less than 0.08. *)
Lemma material_term_bound (s pv : R) :
  0 <= s <= 1 -> -1 < pv < 1 ->
  exists t,
    nmul (nmul (Fin 0.8)
            (if nge (Fin pv) (Fin 0.1) then nadd (Fin 1) (Fin (- s)) else Fin (- s)))
         (Fin pv) = Fin t /\
    -0.08 < t <= 0.8.
Proof.
  intros Hs Hp. unfold nge.
  destruct (nle (Fin 0.1) (Fin pv)) eqn:G.
  - apply nle_Fin in G. cbn [nadd nmul].
    eexists. split; [reflexivity | ]. split; nra.
  - apply nle_Fin_false in G. cbn [nmul].
    eexists. split; [reflexivity | ].
    destruct (Rle_dec 0 pv); split; nra.
Qed.

Section ShadeLower.

Variables (this : kernel_this) (gx gy fx fy x y : number) (W H c : R).
Variables (e1 e2 e3 e4 e5 e6 e7 e8 e9 : R).

Hypothesis output_x_is : output_x this = Fin W.
Hypothesis output_y_is : output_y this = Fin H.
Hypothesis W_nonzero : W <> 0.
Hypothesis H_nonzero : H <> 0.
Hypothesis c_nonzero : c <> 0.
Hypothesis gx_finite : finite gx.
Hypothesis gy_finite : finite gy.
Hypothesis fx_finite : finite fx.
Hypothesis fy_finite : finite fy.

Local Abbreviation SL :=
  (shade this gx gy fx fy x y (Fin c)
    (Num (Fin e1)) (Num (Fin e2)) (Num (Fin e3))
    (Num (Fin e4)) (Num (Fin e5)) (Num (Fin e6))
    (Num (Fin e7)) (Num (Fin e8)) (Num (Fin e9))).

Lemma shade_energy_values :
  exists eE mE,
    Locals.eEnergy SL = Fin eE /\ Locals.mEnergy SL = Fin mE /\
    0 <= eE /\ 0 <= mE.
Proof.
  rewrite shade_eEnergy, shade_mEnergy, shade_fieldBrightness.
  cbn [toNumber]. rewrite fieldBrightness_finite by assumption.
  cbn [nmul nadd]. eexists. eexists.
  split; [reflexivity | ]. split; [reflexivity | ].
  set (f := 0.02 * 0.02 / (c * c)).
  assert (0 <= f * f) by nra.
  split; apply Rmult_le_pos; try assumption; nra.
Qed.

Lemma shade_material_terms :
  exists tE tM,
    nmul (nmul (Fin 0.8) (Locals.backgroundPermittivity SL))
         (Locals.permittivityValue SL) = Fin tE /\
    nmul (nmul (Fin 0.8) (Locals.backgroundPermeability SL))
         (Locals.permeabilityValue SL) = Fin tM /\
    -0.08 < tE <= 0.8 /\ -0.08 < tM <= 0.8.
Proof.
  destruct (shade_masks this gx gy fx fy x y W H c e1 e2 e3 e4 e5 e6 e7 e8 e9)
    as (dE & dM & _ & _ & BE & BM); try assumption.
  rewrite shade_backgroundPermittivity, shade_backgroundPermeability.
  rewrite BE, BM, shade_permittivity_value, shade_permeability_value.
  destruct (material_term_bound (smooth_real dE) (material_real e7)
              (smooth_real_range dE) (material_real_range e7)) as (tE & -> & HE).
  destruct (material_term_bound (smooth_real dM) (material_real e8)
              (smooth_real_range dM) (material_real_range e8)) as (tM & -> & HM).
  exists tE, tM. repeat split; lra.
Qed.

Lemma shade_pixel_lower :
  0 <= e9 ->
  channel_above (-0.08) (red (Locals.pixel SL)) /\
  (exists g, green (Locals.pixel SL) = Fin g /\ 0 <= g <= 1) /\
  channel_above (-0.08) (blue (Locals.pixel SL)).
Proof.
  intros H9.
  destruct shade_energy_values as (eE & mE & EE & EM & PE & PM).
  destruct shade_material_terms as (tE & tM & TE & TM & BE & BM).
  rewrite shade_red, shade_green, shade_blue.
  rewrite TE, TM, EE, EM, shade_background_value.
  cbn [nadd]. rewrite !Math_min_Fin.
  assert (B : 0 <= e9 / 2000) by (apply Rmult_le_pos; lra).
  split; [ | split].
  - eexists. split; [reflexivity | ].
    unfold Rmin. destruct (Rle_dec _ _); lra.
  - eexists. split; [reflexivity | ].
    unfold Rmin. destruct (Rle_dec _ _); lra.
  - eexists. split; [reflexivity | ].
    unfold Rmin. destruct (Rle_dec _ _); lra.
Qed.

End ShadeLower.

Lemma pixel_of_lower (px py W H gx gy : nat) (rfx rfy : R) (x y : number) (c : R)
    (fEX fEY fEZ fMX fMY fMZ fPe fPm fCo : field)
    (eX eY eZ mX mY mZ pe pm co : value) :
  (0 < W)%nat -> (0 < H)%nat -> c <> 0 ->
  all_fields finite_field fEX fEY fEZ fMX fMY fMZ fPe fPm fCo ->
  nonneg_field fCo ->
  from_field fEX eX -> from_field fEY eY -> from_field fEZ eZ ->
  from_field fMX mX -> from_field fMY mY -> from_field fMZ mZ ->
  from_field fPe pe -> from_field fPm pm -> from_field fCo co ->
  let col := Locals.pixel
      (shade (pixel_of px py W H) (Fin (INR gx)) (Fin (INR gy))
         (Fin rfx) (Fin rfy) x y (Fin c) eX eY eZ mX mY mZ pe pm co) in
  channel_above (-0.08) (red col) /\
  (exists g, green col = Fin g /\ 0 <= g <= 1) /\
  channel_above (-0.08) (blue col).
Proof.
  intros HW HH Hc (F1 & F2 & F3 & F4 & F5 & F6 & F7 & F8 & F9) NC
    S1 S2 S3 S4 S5 S6 S7 S8 S9 col. subst col.
  destruct (from_field_finite _ _ F1 S1) as [e1 ->].
  destruct (from_field_finite _ _ F2 S2) as [e2 ->].
  destruct (from_field_finite _ _ F3 S3) as [e3 ->].
  destruct (from_field_finite _ _ F4 S4) as [e4 ->].
  destruct (from_field_finite _ _ F5 S5) as [e5 ->].
  destruct (from_field_finite _ _ F6 S6) as [e6 ->].
  destruct (from_field_finite _ _ F7 S7) as [e7 ->].
  destruct (from_field_finite _ _ F8 S8) as [e8 ->].
  destruct (from_field_nonneg _ _ NC S9) as (e9 & -> & H9).
  apply (shade_pixel_lower (pixel_of px py W H) (Fin (INR gx)) (Fin (INR gy))
           (Fin rfx) (Fin rfy) x y (INR W) (INR H));
    try reflexivity; try apply finite_Fin; try assumption; apply not_0_INR; lia.
Qed.

(** With a cell size that is not zero the channels are finite. *)
Lemma channels_lower_nonzero :
  (forall (ix : indexer) (px py W H gx gy : nat)
      (fEX fEY fEZ fMX fMY fMZ fPe fPm fCo : field) (c : R),
      fractional_backend ix -> (px < W)%nat -> (py < H)%nat -> c <> 0 ->
      all_fields (fun f => well_shaped f gx gy) fEX fEY fEZ fMX fMY fMZ fPe fPm fCo ->
      all_fields finite_field fEX fEY fEZ fMX fMY fMZ fPe fPm fCo ->
      nonneg_field fCo ->
      exists col,
        drawGpu ix (pixel_of px py W H) fEX fEY fEZ fMX fMY fMZ fPe fPm fCo
          (grid_of gx gy) (Fin c) = Ok col /\
        channel_above (-0.08) (red col) /\
        (exists g, green col = Fin g /\ 0 <= g <= 1) /\
        channel_above (-0.08) (blue col)) /\
  (forall (ix : indexer) (px py W H gx gy : nat)
      (fEX fEY fEZ fMX fMY fMZ fPe fPm fCo : field) (c : R),
      integer_backend ix -> (px < W)%nat -> (py < H)%nat -> c <> 0 ->
      all_fields (fun f => well_shaped f gx gy) fEX fEY fEZ fMX fMY fMZ fPe fPm fCo ->
      all_fields finite_field fEX fEY fEZ fMX fMY fMZ fPe fPm fCo ->
      nonneg_field fCo ->
      exists col,
        drawCpu ix (pixel_of px py W H) fEX fEY fEZ fMX fMY fMZ fPe fPm fCo
          (grid_of gx gy) (Fin c) = Ok col /\
        channel_above (-0.08) (red col) /\
        (exists g, green col = Fin g /\ 0 <= g <= 1) /\
        channel_above (-0.08) (blue col)).
Proof.
  split.
  - intros ix px py W H gx gy fEX fEY fEZ fMX fMY fMZ fPe fPm fCo c B Hx Hy Hc
      (W1 & W2 & W3 & W4 & W5 & W6 & W7 & W8 & W9) FF NC.
    destruct (drawGpu_run ix px py W H gx gy fEX fEY fEZ fMX fMY fMZ fPe fPm fCo
                (Fin c) B) as (eX & eY & eZ & mX & mY & mZ & pe & pm & co & E &
                               S1 & S2 & S3 & S4 & S5 & S6 & S7 & S8 & S9);
      try assumption; try lia.
    eexists. split; [apply drawGpu_of_locals; exact E | ].
    apply (pixel_of_lower px py W H gx gy _ _ _ _ c
             fEX fEY fEZ fMX fMY fMZ fPe fPm fCo); try assumption; lia.
  - intros ix px py W H gx gy fEX fEY fEZ fMX fMY fMZ fPe fPm fCo c B Hx Hy Hc
      (W1 & W2 & W3 & W4 & W5 & W6 & W7 & W8 & W9) FF NC.
    destruct (drawCpu_run ix px py W H gx gy fEX fEY fEZ fMX fMY fMZ fPe fPm fCo
                (Fin c) B) as (eX & eY & eZ & mX & mY & mZ & pe & pm & co & E &
                               S1 & S2 & S3 & S4 & S5 & S6 & S7 & S8 & S9);
      try assumption; try lia.
    eexists. split; [apply drawCpu_of_locals; exact E | ].
    apply (pixel_of_lower px py W H gx gy _ _ _ _ c
             fEX fEY fEZ fMX fMY fMZ fPe fPm fCo); try assumption; lia.
Qed.

Lemma nan_or_one_above (n : number) : nan_or_one n -> nan_or_above (-0.1) n.
Proof.
  intros [-> | ->]; [now left | right]. exists 1. split; [reflexivity | lra].
Qed.

Lemma nan_or_one_unit (n : number) : nan_or_one n -> nan_or_unit n.
Proof.
  intros [-> | ->]; [now left | right]. exists 1. split; [reflexivity | lra].
Qed.

Lemma channel_above_nan_or (n : number) :
  channel_above (-0.08) n -> nan_or_above (-0.1) n.
Proof.
  intros (r & -> & Hr). right. exists r. split; [reflexivity | lra].
Qed.

(** X7: on well-formed input with finite entries, a conductivity that is
    nowhere negative and any finite cell size, both kernels return a colour
    whose green channel is [NaN] or lies in [[0, 1]] and whose red and blue
    channels are [NaN] or lie above -0.1 and at most at 1: the only negative
    contribution is the halo of a material whose mapped value is below 0.1. *)
Theorem channels_with_nonnegative_conductivity :
  (forall (ix : indexer) (px py W H gx gy : nat)
      (fEX fEY fEZ fMX fMY fMZ fPe fPm fCo : field) (c : R),
      fractional_backend ix -> (px < W)%nat -> (py < H)%nat ->
      all_fields (fun f => well_shaped f gx gy) fEX fEY fEZ fMX fMY fMZ fPe fPm fCo ->
      all_fields finite_field fEX fEY fEZ fMX fMY fMZ fPe fPm fCo ->
      nonneg_field fCo ->
      exists col,
        drawGpu ix (pixel_of px py W H) fEX fEY fEZ fMX fMY fMZ fPe fPm fCo
          (grid_of gx gy) (Fin c) = Ok col /\
        nan_or_above (-0.1) (red col) /\ nan_or_unit (green col) /\
        nan_or_above (-0.1) (blue col)) /\
  (forall (ix : indexer) (px py W H gx gy : nat)
      (fEX fEY fEZ fMX fMY fMZ fPe fPm fCo : field) (c : R),
      integer_backend ix -> (px < W)%nat -> (py < H)%nat ->
      all_fields (fun f => well_shaped f gx gy) fEX fEY fEZ fMX fMY fMZ fPe fPm fCo ->
      all_fields finite_field fEX fEY fEZ fMX fMY fMZ fPe fPm fCo ->
      nonneg_field fCo ->
      exists col,
        drawCpu ix (pixel_of px py W H) fEX fEY fEZ fMX fMY fMZ fPe fPm fCo
          (grid_of gx gy) (Fin c) = Ok col /\
        nan_or_above (-0.1) (red col) /\ nan_or_unit (green col) /\
        nan_or_above (-0.1) (blue col)).
Proof.
  split.
  - intros ix px py W H gx gy fEX fEY fEZ fMX fMY fMZ fPe fPm fCo c B Hx Hy WS FF NC.
    destruct (Req_dec_T c 0) as [-> | Hc].
    + destruct WS as (W1 & W2 & W3 & W4 & W5 & W6 & W7 & W8 & W9).
      destruct (drawGpu_run ix px py W H gx gy fEX fEY fEZ fMX fMY fMZ fPe fPm fCo
                  (Fin 0) B) as (eX & eY & eZ & mX & mY & mZ & pe & pm & co & E &
                                 S1 & S2 & S3 & S4 & S5 & S6 & S7 & S8 & S9);
        try assumption; try lia.
      assert (HW : (0 < W)%nat) by lia. assert (HH : (0 < H)%nat) by lia.
      eexists. split; [apply drawGpu_of_locals; exact E | ].
      destruct (zero_cell_pixel px py W H gx gy
                  (real_x gx px W) (real_y gy py H)
                  (Fin (real_x gx px W)) (Fin (real_y gy py H))
                  fEX fEY fEZ fMX fMY fMZ fPe fPm fCo _ _ _ _ _ _ _ _ _
                  HW HH FF S1 S2 S3 S4 S5 S6 S7 S8 S9) as (R & G & Bl).
      split; [ | split]; [now apply nan_or_one_above | now apply nan_or_one_unit
                          | now apply nan_or_one_above].
    + destruct (proj1 channels_lower_nonzero ix px py W H gx gy
                  fEX fEY fEZ fMX fMY fMZ fPe fPm fCo c B Hx Hy Hc WS FF NC)
        as (col & E & R & G & Bl).
      exists col. split; [exact E | ].
      split; [ | split]; [now apply channel_above_nan_or | now right
                          | now apply channel_above_nan_or].
  - intros ix px py W H gx gy fEX fEY fEZ fMX fMY fMZ fPe fPm fCo c B Hx Hy WS FF NC.
    destruct (Req_dec_T c 0) as [-> | Hc].
    + destruct WS as (W1 & W2 & W3 & W4 & W5 & W6 & W7 & W8 & W9).
      destruct (drawCpu_run ix px py W H gx gy fEX fEY fEZ fMX fMY fMZ fPe fPm fCo
                  (Fin 0) B) as (eX & eY & eZ & mX & mY & mZ & pe & pm & co & E &
                                 S1 & S2 & S3 & S4 & S5 & S6 & S7 & S8 & S9);
        try assumption; try lia.
      assert (HW : (0 < W)%nat) by lia. assert (HH : (0 < H)%nat) by lia.
      eexists. split; [apply drawCpu_of_locals; exact E | ].
      destruct (zero_cell_pixel px py W H gx gy
                  (real_x gx px W) (real_y gy py H)
                  (Fin (round_real (real_x gx px W)))
                  (Fin (round_real (real_y gy py H)))
                  fEX fEY fEZ fMX fMY fMZ fPe fPm fCo _ _ _ _ _ _ _ _ _
                  HW HH FF S1 S2 S3 S4 S5 S6 S7 S8 S9) as (R & G & Bl).
      split; [ | split]; [now apply nan_or_one_above | now apply nan_or_one_unit
                          | now apply nan_or_one_above].
    + destruct (proj2 channels_lower_nonzero ix px py W H gx gy
                  fEX fEY fEZ fMX fMY fMZ fPe fPm fCo c B Hx Hy Hc WS FF NC)
        as (col & E & R & G & Bl).
      exists col. split; [exact E | ].
      split; [ | split]; [now apply channel_above_nan_or | now right
                          | now apply channel_above_nan_or].
Qed.

Lemma zero2_nonneg : nonneg_field zero2.
Proof.
  intros n He. rewrite (zero2_zero n He). exists 0. split; [reflexivity | lra].
Qed.

Lemma perm2_shape : well_shaped perm2 2 2.
Proof. literal_field. Qed.

Lemma perm2_finite : finite_field perm2.
Proof. literal_field. Qed.

Lemma channels_with_nonnegative_conductivity_witness :
  (exists col,
     drawGpu truncIndex (pixel_of 0 1 2 2) grid2 zero2 zero2 zero2 grid2 zero2
       perm2 ones2 zero2 (grid_of 2 2) (Fin 0.02) = Ok col /\
     nan_or_above (-0.1) (red col) /\ nan_or_unit (green col) /\
     nan_or_above (-0.1) (blue col)) /\
  (exists col,
     drawCpu jsIndex (pixel_of 0 1 2 2) grid2 zero2 zero2 zero2 grid2 zero2
       perm2 ones2 zero2 (grid_of 2 2) (Fin 0) = Ok col /\
     nan_or_above (-0.1) (red col) /\ nan_or_unit (green col) /\
     nan_or_above (-0.1) (blue col)).
Proof.
  split.
  - apply (proj1 channels_with_nonnegative_conductivity truncIndex
             0%nat 1%nat 2%nat 2%nat 2%nat 2%nat).
    + exact truncIndex_fractional_backend.
    + lia.
    + lia.
    + repeat split; first [exact grid2_shape | exact zero2_shape
                          | exact ones2_shape | exact perm2_shape].
    + repeat split; first [exact grid2_finite | exact zero2_finite
                          | exact ones2_finite | exact perm2_finite].
    + exact zero2_nonneg.
  - apply (proj2 channels_with_nonnegative_conductivity jsIndex
             0%nat 1%nat 2%nat 2%nat 2%nat 2%nat).
    + exact jsIndex_integer_backend.
    + lia.
    + lia.
    + repeat split; first [exact grid2_shape | exact zero2_shape
                          | exact ones2_shape | exact perm2_shape].
    + repeat split; first [exact grid2_finite | exact zero2_finite
                          | exact ones2_finite | exact perm2_finite].
    + exact zero2_nonneg.
Defined.

(** ** The tiling factor *)

Lemma round_real_nat (r : R) :
  0 <= r ->
  exists m : nat, round_real r = INR m /\ INR m - 1 / 2 <= r < INR m + 1 / 2.
Proof.
  intros Hr. unfold round_real.
  destruct (base_Int_part (r + 1 / 2)) as [Hle Hgt].
  set (n := Int_part (r + 1 / 2)) in *.
  assert (Hn : (0 <= n)%Z).
  { apply Z.lt_succ_r, lt_IZR. rewrite succ_IZR. lra. }
  exists (Z.to_nat n). rewrite INR_IZR_INZ, Z2Nat.id by assumption.
  split; [reflexivity | lra].
Qed.

Lemma reciprocal_range (r : R) : 1 <= r -> 0 < 1 / r <= 1.
Proof.
  intros Hr. assert (Q : 0 < / r) by (apply Rinv_0_lt_compat; lra).
  assert (E : r * / r = 1) by (apply Rinv_r; lra).
  unfold Rdiv. split; nra.
Qed.

Lemma tile_value_range (m : nat) : 0 < tile_value m <= 1.
Proof.
  destruct m as [ | m]; [simpl; lra | ].
  unfold tile_value. apply reciprocal_range.
  rewrite S_INR. pose proof (pos_INR m). lra.
Qed.

Lemma tileFactor_value (g W : nat) :
  (0 < W)%nat ->
  exists m : nat,
    round_real (2 * INR g / INR W) = INR m /\
    Math_min (Fin 1)
      (ndiv (Fin 1) (Math_round (ndiv (nmul (Fin 2) (Fin (INR g))) (Fin (INR W)))))
    = Fin (tile_value m) /\
    (m = 0%nat <-> 4 * INR g < INR W).
Proof.
  intros HW.
  assert (PW : 0 < INR W) by (apply lt_0_INR; lia).
  assert (Pq : 0 <= 2 * INR g / INR W).
  { apply Rmult_le_pos; [pose proof (pos_INR g); lra | ].
    apply Rlt_le, Rinv_0_lt_compat. assumption. }
  destruct (round_real_nat _ Pq) as (m & Em & Hm).
  exists m. split; [exact Em | ]. split.
  - cbn [nmul]. rewrite ndiv_Fin by lra.
    change (Math_round (Fin (2 * INR g / INR W)))
      with (Fin (round_real (2 * INR g / INR W))).
    rewrite Em. destruct m as [ | m].
    + simpl INR. rewrite ndiv_zero, scale_inf_pos by lra. reflexivity.
    + assert (P : 1 <= INR (S m)) by (rewrite S_INR; pose proof (pos_INR m); lra).
      rewrite ndiv_Fin by lra. rewrite Math_min_Fin. f_equal.
      unfold tile_value. apply Rmin_right. apply reciprocal_range. exact P.
  - assert (Q : 2 * INR g / INR W * INR W = 2 * INR g) by (field; lra).
    split.
    + intros ->. simpl INR in Hm. nra.
    + intros H4. destruct m as [ | m]; [reflexivity | ].
      rewrite S_INR in Hm. pose proof (pos_INR m). nra.
Qed.

(** X8: on a [W] by [H] raster over a [gx] by [gy] grid, in every run of
    either kernel that returns, [tileFactorX] is [1 / round(2 gx / W)],
    except that where the rounded ratio is 0 (exactly when [W > 4 gx]) the
    infinite reciprocal is cut to 1 by [Math.min]; likewise [tileFactorY].
    Both factors are finite, positive and at most 1. *)
Theorem tile_factors (ix : indexer) (px py W H gx gy : nat)
    (fEX fEY fEZ fMX fMY fMZ fPe fPm fCo : field) (cellSize : number) :
  (0 < W)%nat -> (0 < H)%nat ->
  exists m n : nat,
    round_real (2 * INR gx / INR W) = INR m /\
    round_real (2 * INR gy / INR H) = INR n /\
    (m = 0%nat <-> 4 * INR gx < INR W) /\
    (n = 0%nat <-> 4 * INR gy < INR H) /\
    0 < tile_value m <= 1 /\ 0 < tile_value n <= 1 /\
    (forall l,
       drawGpu_locals ix (pixel_of px py W H) fEX fEY fEZ fMX fMY fMZ fPe fPm fCo
         (grid_of gx gy) cellSize = Ok l ->
       Locals.tileFactorX l = Fin (tile_value m) /\
       Locals.tileFactorY l = Fin (tile_value n)) /\
    (forall l,
       drawCpu_locals ix (pixel_of px py W H) fEX fEY fEZ fMX fMY fMZ fPe fPm fCo
         (grid_of gx gy) cellSize = Ok l ->
       Locals.tileFactorX l = Fin (tile_value m) /\
       Locals.tileFactorY l = Fin (tile_value n)).
Proof.
  intros HW HH.
  destruct (tileFactor_value gx W HW) as (m & Em & Tm & Zm).
  destruct (tileFactor_value gy H HH) as (n & En & Tn & Zn).
  exists m, n.
  split; [exact Em | ]. split; [exact En | ].
  split; [exact Zm | ]. split; [exact Zn | ].
  split; [apply tile_value_range | ]. split; [apply tile_value_range | ].
  split; intros l E.
  - rewrite drawGpu_locals_eq in E. cbv zeta in E. apply sample9_Ok in E.
    destruct E as (eX & eY & eZ & mX & mY & mZ & pe & pm & co & E).
    destruct E as (_ & _ & _ & _ & _ & _ & _ & _ & _ & ->).
    split; [exact Tm | exact Tn].
  - rewrite drawCpu_locals_eq in E. cbv zeta in E. apply sample9_Ok in E.
    destruct E as (eX & eY & eZ & mX & mY & mZ & pe & pm & co & E).
    destruct E as (_ & _ & _ & _ & _ & _ & _ & _ & _ & ->).
    split; [exact Tm | exact Tn].
Qed.

Lemma tile_factors_witness :
  (0 < 2)%nat /\
  exists m n : nat,
    round_real (2 * INR 2 / INR 2) = INR m /\
    round_real (2 * INR 2 / INR 2) = INR n /\
    (m = 0%nat <-> 4 * INR 2 < INR 2) /\
    0 < tile_value m <= 1 /\
    (forall l,
       drawCpu_locals jsIndex (pixel_of 0 1 2 2)
         grid2 grid2 grid2 grid2 grid2 grid2 ones2 ones2 zero2
         (grid_of 2 2) (Fin 0.02) = Ok l ->
       Locals.tileFactorX l = Fin (tile_value m) /\
       Locals.tileFactorY l = Fin (tile_value n)).
Proof.
  assert (H : (0 < 2)%nat) by lia.
  split; [exact H | ].
  destruct (tile_factors jsIndex 0 1 2 2 2 2
              grid2 grid2 grid2 grid2 grid2 grid2 ones2 ones2 zero2 (Fin 0.02) H H)
    as (m & n & Em & En & Zm & _ & Rm & _ & _ & C).
  exists m, n.
  split; [exact Em | ]. split; [exact En | ]. split; [exact Zm | ].
  split; [exact Rm | exact C].
Defined.

(** ** The two kernels against each other *)

Lemma sample9_magnetic_throws (ix : indexer) (gx gy ex ey mx my : number)
    (fEX fEY fEZ fMX fMY fMZ fPe fPm fCo : field)
    (k : value -> value -> value -> value -> value -> value ->
         value -> value -> value -> Locals.t) :
  getAt ix fMX gx gy mx my = Throw TypeError ->
  sample9 ix gx gy ex ey mx my fEX fEY fEZ fMX fMY fMZ fPe fPm fCo k
  = Throw TypeError.
Proof.
  intros E. unfold sample9.
  destruct (getAt ix fEX gx gy ex ey) as [v1 | []]; [ | reflexivity].
  destruct (getAt ix fEY gx gy ex ey) as [v2 | []]; [ | reflexivity].
  destruct (getAt ix fEZ gx gy ex ey) as [v3 | []]; [ | reflexivity].
  cbn [bind]. now rewrite E.
Qed.

Lemma half_below_not_integer (j : nat) (z : Z) : IZR z <> INR j - 0.5.
Proof.
  rewrite INR_IZR_INZ. intros H.
  assert (E : IZR (2 * z) = IZR (2 * Z.of_nat j - 1)).
  { rewrite minus_IZR, !mult_IZR. lra. }
  apply eq_IZR in E. lia.
Qed.

(** X10: on plain JavaScript indexing the continuous kernel cannot run at
    one pixel per grid cell: for every pixel with [1 <= px < gx] and
    [py < gy] the magnetic sample at [(x - 0.5, y - 0.5)] lies inside the
    grid at a row that is not an integer, and the kernel throws a
    [TypeError], whatever the fields and the cell size. *)
Theorem drawGpu_needs_fractional_indexing (px py gx gy : nat)
    (fEX fEY fEZ fMX fMY fMZ fPe fPm fCo : field) (cellSize : number) :
  (1 <= px)%nat -> (px < gx)%nat -> (py < gy)%nat ->
  drawGpu jsIndex (pixel_of px py gx gy) fEX fEY fEZ fMX fMY fMZ fPe fPm fCo
    (grid_of gx gy) cellSize = Throw TypeError.
Proof.
  intros H1 Hx Hy.
  unfold drawGpu. rewrite drawGpu_locals_eq. cbv zeta.
  rewrite grid_x_of, grid_y_of by lia.
  fold (real_x gx px gx). fold (real_y gy py gy).
  rewrite real_x_same, real_y_same by lia.
  change (toNumber (item (grid_of gx gy) 0)) with (Fin (INR gx)).
  change (toNumber (item (grid_of gx gy) 1)) with (Fin (INR gy)).
  rewrite sample9_magnetic_throws; [reflexivity | ].
  change (nsub (Fin (INR px)) (Fin 0.5)) with (Fin (INR px - 0.5)).
  change (nsub (Fin (INR (gy - py))) (Fin 0.5)) with (Fin (INR (gy - py) - 0.5)).
  assert (Px : 1 <= INR px) by (apply (le_INR 1); lia).
  assert (Py : 1 <= INR (gy - py)) by (apply (le_INR 1); lia).
  assert (Qx : INR px < INR gx) by (apply lt_INR; lia).
  assert (Qy : INR (gy - py) <= INR gy) by (apply le_INR; lia).
  apply getAt_js_fractional_row; [lra | lra | ].
  intros z. apply half_below_not_integer.
Qed.

Lemma drawGpu_needs_fractional_indexing_witness :
  drawGpu jsIndex (pixel_of 1 1 2 2) grid2 grid2 grid2 grid2 grid2 grid2
    ones2 ones2 zero2 (grid_of 2 2) (Fin 0.02) = Throw TypeError.
Proof.
  apply drawGpu_needs_fractional_indexing; lia.
Defined.

Lemma sample9_same_electric (ix : indexer) this (gx gy fx fy x y mx my cellSize : number)
    (fEX fEY fEZ fMX fMY fMZ fPe fPm fCo : field) (l l' : Locals.t) :
  sample9 ix gx gy x y mx my fEX fEY fEZ fMX fMY fMZ fPe fPm fCo
    (shade this gx gy fx fy x y cellSize) = Ok l ->
  sample9 ix gx gy x y x y fEX fEY fEZ fMX fMY fMZ fPe fPm fCo
    (shade this gx gy fx fy x y cellSize) = Ok l' ->
  red (Locals.pixel l) = red (Locals.pixel l') /\
  Locals.eEnergy l = Locals.eEnergy l' /\
  Locals.permittivityValue l = Locals.permittivityValue l' /\
  Locals.permeabilityValue l = Locals.permeabilityValue l' /\
  Locals.background l = Locals.background l'.
Proof.
  intros E E'. apply sample9_Ok in E. apply sample9_Ok in E'.
  destruct E as (eX & eY & eZ & mX & mY & mZ & pe & pm & co &
                 E1 & E2 & E3 & _ & _ & _ & E7 & E8 & E9 & ->).
  destruct E' as (eX' & eY' & eZ' & mX' & mY' & mZ' & pe' & pm' & co' &
                  E1' & E2' & E3' & _ & _ & _ & E7' & E8' & E9' & ->).
  rewrite E1 in E1'. rewrite E2 in E2'. rewrite E3 in E3'.
  rewrite E7 in E7'. rewrite E8 in E8'. rewrite E9 in E9'.
  injection E1' as <-. injection E2' as <-. injection E3' as <-.
  injection E7' as <-. injection E8' as <-. injection E9' as <-.
  repeat split.
Qed.

(** X11: where the grid coordinate of the pixel is integral (rounding leaves
    it unchanged), the two kernels differ in the magnetic samples only: runs
    of both on the same input that return agree in the red channel, the
    electric energy, both material values and the conductivity background. *)
Theorem kernels_agree_on_red (ix : indexer) (this : kernel_this)
    (fEX fEY fEZ fMX fMY fMZ fPe fPm fCo : field)
    (gridSize : list number) (cellSize : number) (l l' : Locals.t) :
  Math_round (grid_x this gridSize) = grid_x this gridSize ->
  Math_round (grid_y this gridSize) = grid_y this gridSize ->
  drawGpu_locals ix this fEX fEY fEZ fMX fMY fMZ fPe fPm fCo gridSize cellSize
  = Ok l ->
  drawCpu_locals ix this fEX fEY fEZ fMX fMY fMZ fPe fPm fCo gridSize cellSize
  = Ok l' ->
  red (Locals.pixel l) = red (Locals.pixel l') /\
  Locals.eEnergy l = Locals.eEnergy l' /\
  Locals.permittivityValue l = Locals.permittivityValue l' /\
  Locals.permeabilityValue l = Locals.permeabilityValue l' /\
  Locals.background l = Locals.background l'.
Proof.
  intros Rx Ry E E'.
  rewrite drawGpu_locals_eq in E. rewrite drawCpu_locals_eq in E'.
  cbv zeta in E, E'. rewrite Rx, Ry in E'.
  eapply sample9_same_electric; eassumption.
Qed.

Lemma kernels_agree_on_red_witness :
  exists l l',
    drawGpu_locals truncIndex (pixel_of 1 1 2 2)
      grid2 grid2 grid2 grid2 grid2 grid2 perm2 ones2 zero2
      (grid_of 2 2) (Fin 0.02) = Ok l /\
    drawCpu_locals truncIndex (pixel_of 1 1 2 2)
      grid2 grid2 grid2 grid2 grid2 grid2 perm2 ones2 zero2
      (grid_of 2 2) (Fin 0.02) = Ok l' /\
    red (Locals.pixel l) = red (Locals.pixel l') /\
    Locals.eEnergy l = Locals.eEnergy l' /\
    Locals.permittivityValue l = Locals.permittivityValue l' /\
    Locals.permeabilityValue l = Locals.permeabilityValue l' /\
    Locals.background l = Locals.background l'.
Proof.
  assert (H12 : (1 < 2)%nat) by lia.
  assert (H02 : (0 < 2)%nat) by lia.
  destruct (drawGpu_run truncIndex 1 1 2 2 2 2
              grid2 grid2 grid2 grid2 grid2 grid2 perm2 ones2 zero2 (Fin 0.02)
              truncIndex_fractional_backend H02 H02
              grid2_shape grid2_shape grid2_shape grid2_shape grid2_shape
              grid2_shape perm2_shape ones2_shape zero2_shape)
    as (eX & eY & eZ & mX & mY & mZ & pe & pm & co & E & _).
  destruct (drawCpu_run truncIndex 1 1 2 2 2 2
              grid2 grid2 grid2 grid2 grid2 grid2 perm2 ones2 zero2 (Fin 0.02)
              (fractional_integer_backend truncIndex truncIndex_fractional_backend)
              H02 H02
              grid2_shape grid2_shape grid2_shape grid2_shape grid2_shape
              grid2_shape perm2_shape ones2_shape zero2_shape)
    as (eX' & eY' & eZ' & mX' & mY' & mZ' & pe' & pm' & co' & E' & _).
  assert (Rx : Math_round (grid_x (pixel_of 1 1 2 2) (grid_of 2 2))
               = grid_x (pixel_of 1 1 2 2) (grid_of 2 2)).
  { rewrite grid_x_of by lia. fold (real_x 2 1 2).
    rewrite real_x_same by lia. apply Math_round_INR. }
  assert (Ry : Math_round (grid_y (pixel_of 1 1 2 2) (grid_of 2 2))
               = grid_y (pixel_of 1 1 2 2) (grid_of 2 2)).
  { rewrite grid_y_of by lia. fold (real_y 2 1 2).
    rewrite real_y_same by lia. apply Math_round_INR. }
  eexists. eexists. split; [exact E | ]. split; [exact E' | ].
  exact (kernels_agree_on_red truncIndex _ _ _ _ _ _ _ _ _ _ _ _ _ _
           Rx Ry E E').
Defined.

(** ** What the snapped kernel reads *)

Lemma getAt_cell (f : field) (gx gy i j : nat) :
  well_shaped f gx gy ->
  getAt jsIndex f (Fin (INR gx)) (Fin (INR gy)) (Fin (INR i)) (Fin (INR j))
  = Ok (Num (cell f gx gy i j)).
Proof.
  intros W. unfold cell.
  destruct (Nat.ltb_spec i gx) as [Hi | Hi]; destruct (Nat.ltb_spec j gy) as [Hj | Hj];
    cbn [andb].
  - destruct (well_shaped_lookup f gx gy i j W Hi Hj) as (row & n & Hr & Hn).
    apply getAt_js_stored; try assumption.
    unfold stored. rewrite Hr, Hn. f_equal.
    rewrite (nth_error_nth f j [] Hr). now rewrite (nth_error_nth row i (Fin 0) Hn).
  - apply getAt_outside_real. right; right; right. now apply le_INR.
  - apply getAt_outside_real. right; left. now apply le_INR.
  - apply getAt_outside_real. right; left. now apply le_INR.
Qed.

Lemma real_x_range (gx px W : nat) :
  (px < W)%nat -> 0 <= real_x gx px W <= INR gx.
Proof.
  intros H. unfold real_x.
  assert (PW : 0 < INR W) by (apply lt_0_INR; lia).
  assert (Pp : 0 <= INR px <= INR W).
  { split; [apply pos_INR | apply le_INR; lia]. }
  pose proof (pos_INR gx) as Pg.
  assert (Q : 0 < / INR W) by (apply Rinv_0_lt_compat; assumption).
  assert (E : INR W * / INR W = 1) by (apply Rinv_r; lra).
  assert (T : 0 <= INR px * / INR W <= 1) by (split; nra).
  unfold Rdiv. rewrite Rmult_assoc. split; nra.
Qed.

Lemma real_y_range (gy py H : nat) :
  (py < H)%nat -> 0 <= real_y gy py H <= INR gy.
Proof.
  intros Hp. unfold real_y.
  assert (PH : 0 < INR H) by (apply lt_0_INR; lia).
  assert (Pp : 0 <= INR py <= INR H).
  { split; [apply pos_INR | apply le_INR; lia]. }
  pose proof (pos_INR gy) as Pg.
  assert (Q : 0 < / INR H) by (apply Rinv_0_lt_compat; assumption).
  assert (E : INR H * / INR H = 1) by (apply Rinv_r; lra).
  assert (T : 0 <= INR py * / INR H <= 1) by (split; nra).
  unfold Rdiv. split; nra.
Qed.

Lemma round_real_cell (r : R) (g : nat) :
  0 <= r <= INR g ->
  exists i : nat, (i <= g)%nat /\ round_real r = INR i /\
                  INR i - 1 / 2 <= r < INR i + 1 / 2.
Proof.
  intros [H0 Hg]. destruct (round_real_nat r H0) as (i & Ei & Hi).
  exists i. split; [ | split; assumption].
  apply Nat.lt_succ_r, INR_lt. rewrite S_INR. lra.
Qed.

(** X12: the snapped kernel samples one cell, with zero fill.  For every
    pixel of a raster of any size there are integers [i], [j] with
    [0 <= i <= gx] and [0 <= j <= gy], each less than one cell away from the
    grid coordinate, such that the kernel on JavaScript indexing returns
    with [x = i], [y = j] and its nine samples are the values [field[j][i]],
    read as 0 where [i = gx] or [j = gy]; no lookup is ever out of bounds. *)
Theorem snapped_reads_one_cell (px py W H gx gy : nat)
    (fEX fEY fEZ fMX fMY fMZ fPe fPm fCo : field) (cellSize : number) :
  (px < W)%nat -> (py < H)%nat ->
  all_fields (fun f => well_shaped f gx gy) fEX fEY fEZ fMX fMY fMZ fPe fPm fCo ->
  exists i j : nat,
    (i <= gx)%nat /\ (j <= gy)%nat /\
    INR i - 1 < real_x gx px W < INR i + 1 /\
    INR j - 1 < real_y gy py H < INR j + 1 /\
    exists l,
      drawCpu_locals jsIndex (pixel_of px py W H)
        fEX fEY fEZ fMX fMY fMZ fPe fPm fCo (grid_of gx gy) cellSize = Ok l /\
      Locals.x l = Fin (INR i) /\ Locals.y l = Fin (INR j) /\
      samples_are l
        (cell fEX gx gy i j) (cell fEY gx gy i j) (cell fEZ gx gy i j)
        (cell fMX gx gy i j) (cell fMY gx gy i j) (cell fMZ gx gy i j)
        (cell fPe gx gy i j) (cell fPm gx gy i j) (cell fCo gx gy i j).
Proof.
  intros Hx Hy (W1 & W2 & W3 & W4 & W5 & W6 & W7 & W8 & W9).
  destruct (round_real_cell _ gx (real_x_range gx px W Hx)) as (i & Li & Ei & Bi).
  destruct (round_real_cell _ gy (real_y_range gy py H Hy)) as (j & Lj & Ej & Bj).
  exists i, j.
  split; [exact Li | ]. split; [exact Lj | ].
  split; [lra | ]. split; [lra | ].
  eexists. split.
  - rewrite drawCpu_locals_eq. cbv zeta.
    rewrite grid_x_of, grid_y_of by lia.
    change (toNumber (item (grid_of gx gy) 0)) with (Fin (INR gx)).
    change (toNumber (item (grid_of gx gy) 1)) with (Fin (INR gy)).
    fold (real_x gx px W). fold (real_y gy py H).
    change (Math_round (Fin (real_x gx px W)))
      with (Fin (round_real (real_x gx px W))).
    change (Math_round (Fin (real_y gy py H)))
      with (Fin (round_real (real_y gy py H))).
    rewrite Ei, Ej.
    apply sample9_Ok.
    exists (Num (cell fEX gx gy i j)), (Num (cell fEY gx gy i j)),
      (Num (cell fEZ gx gy i j)), (Num (cell fMX gx gy i j)),
      (Num (cell fMY gx gy i j)), (Num (cell fMZ gx gy i j)),
      (Num (cell fPe gx gy i j)), (Num (cell fPm gx gy i j)),
      (Num (cell fCo gx gy i j)).
    repeat split; now apply getAt_cell.
  - split; [reflexivity | ]. split; [reflexivity | ]. apply shade_samples_are.
Qed.

Lemma snapped_reads_one_cell_witness :
  exists i j : nat,
    (i <= 2)%nat /\ (j <= 3)%nat /\
    exists l,
      drawCpu_locals jsIndex (pixel_of 3 1 5 4)
        grid3 grid3 grid3 grid3 grid3 grid3 grid3 grid3 grid3
        (grid_of 2 3) (Fin 0.02) = Ok l /\
      Locals.x l = Fin (INR i) /\ Locals.y l = Fin (INR j) /\
      Locals.eX l = Num (cell grid3 2 3 i j).
Proof.
  assert (Hx : (3 < 5)%nat) by lia.
  assert (Hy : (1 < 4)%nat) by lia.
  assert (WS : all_fields (fun f => well_shaped f 2 3)
                 grid3 grid3 grid3 grid3 grid3 grid3 grid3 grid3 grid3)
    by (repeat split; exact grid3_shape).
  destruct (snapped_reads_one_cell 3 1 5 4 2 3
              grid3 grid3 grid3 grid3 grid3 grid3 grid3 grid3 grid3 (Fin 0.02)
              Hx Hy WS)
    as (i & j & Li & Lj & _ & _ & l & E & X & Y & EX & _).
  exists i, j. split; [exact Li | ]. split; [exact Lj | ].
  exists l. split; [exact E | ]. split; [exact X | ]. split; [exact Y | exact EX].
Defined.

(** ** The two circle patterns *)

Lemma Rtrunc_nonneg (a : R) : 0 <= a -> Rtrunc a = IZR (Int_part a).
Proof.
  intros H. unfold Rtrunc. destruct (Rle_dec 0 a); [reflexivity | contradiction].
Qed.

(** [a % 1] for [a >= 0] is the fractional part of [a]. *)
Lemma nrem_one_nonneg (a : R) :
  0 <= a ->
  nrem (Fin a) (Fin 1) = Fin (a - IZR (Int_part a)) /\
  0 <= a - IZR (Int_part a) < 1.
Proof.
  intros H. split.
  - cbn [nrem]. destruct (Req_dec_T 1 0); [lra | ].
    replace (a / 1) with a by field.
    rewrite Rtrunc_nonneg by assumption. f_equal. ring.
  - destruct (base_Int_part a). lra.
Qed.

(** The tile offsets of the two patterns at the same coordinate; on exact
    reals they differ by half a tile. *)
Lemma tile_offsets_half (t f : R) :
  0 <= t * f ->
  exists a b,
    nsub (nrem (nmul (Fin t) (Fin f)) (Fin 1)) (Fin 0.5) = Fin a /\
    nsub (nrem (nadd (nmul (Fin t) (Fin f)) (Fin 0.5)) (Fin 1)) (Fin 0.5) = Fin b /\
    - (1 / 2) <= a < 1 / 2 /\ - (1 / 2) <= b < 1 / 2 /\
    (b = a + 1 / 2 \/ b = a - 1 / 2).
Proof.
  intros H. cbn [nmul nadd].
  destruct (nrem_one_nonneg (t * f) H) as [E1 R1].
  assert (H' : 0 <= t * f + 0.5) by lra.
  destruct (nrem_one_nonneg (t * f + 0.5) H') as [E2 R2].
  rewrite E1, E2. cbn [nsub nadd nneg].
  eexists. eexists. split; [reflexivity | ]. split; [reflexivity | ].
  set (n := Int_part (t * f)) in *.
  destruct (Rlt_dec (t * f - IZR n) (1 / 2)) as [Hlow | Hhigh].
  - assert (En : n = Int_part (t * f + 0.5)) by (apply Int_part_spec; lra).
    rewrite <- En in *. repeat split; lra.
  - assert (En : (n + 1)%Z = Int_part (t * f + 0.5)).
    { apply Int_part_spec. rewrite plus_IZR. lra. }
    rewrite <- En in *. rewrite plus_IZR in *. repeat split; lra.
Qed.

Lemma circle_distance_bound (a b : R) :
  - (1 / 2) <= a < 1 / 2 -> - (1 / 2) <= b < 1 / 2 ->
  0 <= (a * a + b * b) * sqrt (2 * PI) <= sqrt (2 * PI) / 2.
Proof.
  intros Ha Hb.
  assert (S2 : 0 < sqrt (2 * PI)) by (apply sqrt_lt_R0; pose proof PI_RGT_0; lra).
  assert (Q : 0 <= a * a + b * b <= 1 / 2) by (split; nra).
  split; nra.
Qed.

Lemma shade_tiling (px py W H gx gy m n : nat) (x y cellSize : number)
    (eX eY eZ mX mY mZ pe pm co : value) :
  (px < W)%nat -> (py < H)%nat ->
  Math_min (Fin 1)
    (ndiv (Fin 1) (Math_round (ndiv (nmul (Fin 2) (Fin (INR gx))) (Fin (INR W)))))
  = Fin (tile_value m) ->
  Math_min (Fin 1)
    (ndiv (Fin 1) (Math_round (ndiv (nmul (Fin 2) (Fin (INR gy))) (Fin (INR H)))))
  = Fin (tile_value n) ->
  tiling_of
    (shade (pixel_of px py W H) (Fin (INR gx)) (Fin (INR gy))
       (Fin (real_x gx px W)) (Fin (real_y gy py H)) x y cellSize
       eX eY eZ mX mY mZ pe pm co).
Proof.
  intros Hx Hy Tm Tn.
  assert (Px : 0 <= tile_value m * real_x gx px W).
  { apply Rmult_le_pos; [apply Rlt_le, tile_value_range | now apply real_x_range]. }
  assert (Py : 0 <= tile_value n * real_y gy py H).
  { apply Rmult_le_pos; [apply Rlt_le, tile_value_range | now apply real_y_range]. }
  destruct (tile_offsets_half _ _ Px) as (ax & bx & Eax & Ebx & Rax & Rbx & Ox).
  destruct (tile_offsets_half _ _ Py) as (ay & by_ & Eay & Eby & Ray & Rby & Oy).
  exists ax, ay, bx, by_,
    ((ax * ax + ay * ay) * sqrt (2 * PI)), ((bx * bx + by_ * by_) * sqrt (2 * PI)).
  unfold shade.
  cbn [Locals.dxPermittivity Locals.dyPermittivity Locals.dxPermeability
       Locals.dyPermeability Locals.circleDistPermittivity
       Locals.circleDistPermeability pixel_of output_x output_y].
  rewrite Tm, Tn, Eax, Eay, Ebx, Eby, sqrt_2PI.
  repeat split; try reflexivity; try tauto;
    try (apply circle_distance_bound; assumption).
Qed.

(** X13: at every pixel of a raster, in every run of either kernel that
    returns, the four tile offsets are finite and lie in the half-open
    interval from -1/2 to 1/2 (the operand of [%] is never negative), and
    both circle distances lie between 0 and [sqrt (2 PI) / 2].  None of this
    depends on the fields or on the cell size. *)
Theorem circle_offsets_in_range (ix : indexer) (px py W H gx gy : nat)
    (fEX fEY fEZ fMX fMY fMZ fPe fPm fCo : field) (cellSize : number) :
  (px < W)%nat -> (py < H)%nat ->
  (forall l,
     drawGpu_locals ix (pixel_of px py W H) fEX fEY fEZ fMX fMY fMZ fPe fPm fCo
       (grid_of gx gy) cellSize = Ok l -> tiling_of l) /\
  (forall l,
     drawCpu_locals ix (pixel_of px py W H) fEX fEY fEZ fMX fMY fMZ fPe fPm fCo
       (grid_of gx gy) cellSize = Ok l -> tiling_of l).
Proof.
  intros Hx Hy.
  assert (HW : (0 < W)%nat) by lia.
  assert (HH : (0 < H)%nat) by lia.
  destruct (tileFactor_value gx W HW) as (m & _ & Tm & _).
  destruct (tileFactor_value gy H HH) as (n & _ & Tn & _).
  split; intros l E.
  - rewrite drawGpu_locals_eq in E. cbv zeta in E. apply sample9_Ok in E.
    destruct E as (eX & eY & eZ & mX & mY & mZ & pe & pm & co & E).
    destruct E as (_ & _ & _ & _ & _ & _ & _ & _ & _ & ->).
    rewrite grid_x_of, grid_y_of by assumption.
    change (toNumber (item (grid_of gx gy) 0)) with (Fin (INR gx)).
    change (toNumber (item (grid_of gx gy) 1)) with (Fin (INR gy)).
    now apply (shade_tiling px py W H gx gy m n).
  - rewrite drawCpu_locals_eq in E. cbv zeta in E. apply sample9_Ok in E.
    destruct E as (eX & eY & eZ & mX & mY & mZ & pe & pm & co & E).
    destruct E as (_ & _ & _ & _ & _ & _ & _ & _ & _ & ->).
    rewrite grid_x_of, grid_y_of by assumption.
    change (toNumber (item (grid_of gx gy) 0)) with (Fin (INR gx)).
    change (toNumber (item (grid_of gx gy) 1)) with (Fin (INR gy)).
    now apply (shade_tiling px py W H gx gy m n).
Qed.

Lemma circle_offsets_in_range_witness :
  (0 < 2)%nat /\ (1 < 2)%nat /\
  forall l,
    drawCpu_locals jsIndex (pixel_of 0 1 2 2)
      grid2 grid2 grid2 grid2 grid2 grid2 ones2 ones2 zero2
      (grid_of 2 2) (Fin 0.02) = Ok l -> tiling_of l.
Proof.
  assert (Hx : (0 < 2)%nat) by lia.
  assert (Hy : (1 < 2)%nat) by lia.
  split; [exact Hx | ]. split; [exact Hy | ].
  exact (proj2 (circle_offsets_in_range jsIndex 0 1 2 2 2 2
                  grid2 grid2 grid2 grid2 grid2 grid2 ones2 ones2 zero2
                  (Fin 0.02) Hx Hy)).
Defined.

(** ** The top raster line *)

Lemma real_y_top (gy H : nat) : (0 < H)%nat -> real_y gy 0 H = INR gy.
Proof.
  intros HH. unfold real_y. simpl INR. field. apply not_0_INR. lia.
Qed.

(** The snapped kernel on the raster line [py = 0], on any backend: the
    rounded row is [gy], the first row above the grid, and no field is
    indexed. *)
Lemma drawCpu_top_line (ix : indexer) (px W H gx gy : nat)
    (fEX fEY fEZ fMX fMY fMZ fPe fPm fCo : field) (cellSize : number) :
  (0 < W)%nat -> (0 < H)%nat ->
  drawCpu_locals ix (pixel_of px 0 W H) fEX fEY fEZ fMX fMY fMZ fPe fPm fCo
    (grid_of gx gy) cellSize
  = Ok (shade (pixel_of px 0 W H) (Fin (INR gx)) (Fin (INR gy))
          (Fin (real_x gx px W)) (Fin (INR gy))
          (Fin (round_real (real_x gx px W))) (Fin (INR gy)) cellSize
          (Num (Fin 0)) (Num (Fin 0)) (Num (Fin 0))
          (Num (Fin 0)) (Num (Fin 0)) (Num (Fin 0))
          (Num (Fin 0)) (Num (Fin 0)) (Num (Fin 0))).
Proof.
  intros HW HH.
  rewrite drawCpu_locals_eq. cbv zeta.
  rewrite grid_x_of, grid_y_of by assumption.
  change (toNumber (item (grid_of gx gy) 0)) with (Fin (INR gx)).
  change (toNumber (item (grid_of gx gy) 1)) with (Fin (INR gy)).
  fold (real_x gx px W). fold (real_y gy 0 H).
  rewrite real_y_top by assumption.
  change (Math_round (Fin (real_x gx px W)))
    with (Fin (round_real (real_x gx px W))).
  change (Math_round (Fin (INR gy))) with (Fin (round_real (INR gy))).
  rewrite round_real_INR.
  apply sample9_Ok.
  exists (Num (Fin 0)), (Num (Fin 0)), (Num (Fin 0)), (Num (Fin 0)), (Num (Fin 0)),
    (Num (Fin 0)), (Num (Fin 0)), (Num (Fin 0)), (Num (Fin 0)).
  repeat split; apply getAt_outside_real; right; right; right; lra.
Qed.

(** X14: the raster line [py = 0] of the snapped kernel shows no field data.
    Its grid row is [gy * (1 - 0 / H) = gy], one row above the last row of
    the grid, so on every backend, for every raster and grid size and for
    all fields, well shaped or not, the kernel returns, its six stored
    samples are the zero fill, its conductivity term is 0, and its colour
    is the same for any two sets of fields. The continuous kernel on that
    line takes its three electric samples and its conductivity term from
    the zero fill as well. *)
Theorem top_line_shows_no_field (ix : indexer) (px W H gx gy : nat)
    (fEX fEY fEZ fMX fMY fMZ fPe fPm fCo : field)
    (fEX' fEY' fEZ' fMX' fMY' fMZ' fPe' fPm' fCo' : field) (cellSize : number) :
  (px < W)%nat -> (0 < H)%nat ->
  (exists l,
     drawCpu_locals ix (pixel_of px 0 W H) fEX fEY fEZ fMX fMY fMZ fPe fPm fCo
       (grid_of gx gy) cellSize = Ok l /\
     Locals.y l = Fin (INR gy) /\
     Locals.eX l = Num (Fin 0) /\ Locals.eY l = Num (Fin 0) /\
     Locals.eZ l = Num (Fin 0) /\ Locals.mX l = Num (Fin 0) /\
     Locals.mY l = Num (Fin 0) /\ Locals.mZ l = Num (Fin 0) /\
     Locals.background l = Fin 0 /\
     Locals.permittivityValue l = Fin (material_real 0) /\
     Locals.permeabilityValue l = Fin (material_real 0)) /\
  drawCpu ix (pixel_of px 0 W H) fEX fEY fEZ fMX fMY fMZ fPe fPm fCo
    (grid_of gx gy) cellSize
  = drawCpu ix (pixel_of px 0 W H) fEX' fEY' fEZ' fMX' fMY' fMZ' fPe' fPm' fCo'
      (grid_of gx gy) cellSize /\
  (forall l,
     drawGpu_locals ix (pixel_of px 0 W H) fEX fEY fEZ fMX fMY fMZ fPe fPm fCo
       (grid_of gx gy) cellSize = Ok l ->
     Locals.y l = Fin (INR gy) /\
     Locals.eX l = Num (Fin 0) /\ Locals.eY l = Num (Fin 0) /\
     Locals.eZ l = Num (Fin 0) /\ Locals.background l = Fin 0).
Proof.
  intros Hx HH.
  assert (HW : (0 < W)%nat) by lia.
  assert (B : ndiv (Fin 0) (Fin 2000) = Fin 0).
  { rewrite ndiv_Fin by lra. f_equal. lra. }
  split; [ | split].
  - eexists. split; [apply drawCpu_top_line; assumption | ].
    cbn [shade Locals.y Locals.eX Locals.eY Locals.eZ Locals.mX Locals.mY
         Locals.mZ Locals.background Locals.permittivityValue
         Locals.permeabilityValue toNumber].
    repeat split; try reflexivity; try exact B; apply material_Fin.
  - unfold drawCpu.
    rewrite (drawCpu_top_line ix px W H gx gy
               fEX fEY fEZ fMX fMY fMZ fPe fPm fCo cellSize HW HH).
    rewrite (drawCpu_top_line ix px W H gx gy
               fEX' fEY' fEZ' fMX' fMY' fMZ' fPe' fPm' fCo' cellSize HW HH).
    reflexivity.
  - intros l E.
    rewrite drawGpu_locals_eq in E. cbv zeta in E.
    rewrite grid_x_of, grid_y_of in E by assumption.
    change (toNumber (item (grid_of gx gy) 0)) with (Fin (INR gx)) in E.
    change (toNumber (item (grid_of gx gy) 1)) with (Fin (INR gy)) in E.
    fold (real_x gx px W) in E. fold (real_y gy 0 H) in E.
    rewrite real_y_top in E by assumption.
    apply sample9_Ok in E.
    destruct E as (eX & eY & eZ & mX & mY & mZ & pe & pm & co & E).
    destruct E as (E1 & E2 & E3 & _ & _ & _ & _ & _ & E9 & ->).
    rewrite getAt_outside_real in E1, E2, E3, E9 by (right; right; right; lra).
    injection E1 as <-. injection E2 as <-. injection E3 as <-. injection E9 as <-.
    cbn [shade Locals.y Locals.eX Locals.eY Locals.eZ Locals.background toNumber].
    repeat split; try reflexivity. exact B.
Qed.

Lemma top_line_shows_no_field_witness :
  (0 < 2)%nat /\ (0 < 3)%nat /\
  drawCpu jsIndex (pixel_of 0 0 2 3) grid3 grid3 grid3 grid3 grid3 grid3
    grid3 grid3 grid3 (grid_of 2 3) (Fin 0.02)
  = drawCpu jsIndex (pixel_of 0 0 2 3) [] [] [] [] [] [] [] [] []
      (grid_of 2 3) (Fin 0.02).
Proof.
  assert (Hx : (0 < 2)%nat) by lia.
  assert (HH : (0 < 3)%nat) by lia.
  split; [exact Hx | ]. split; [exact HH | ].
  exact (proj1 (proj2 (top_line_shows_no_field jsIndex 0 2 3 2 3
                  grid3 grid3 grid3 grid3 grid3 grid3 grid3 grid3 grid3
                  [] [] [] [] [] [] [] [] [] (Fin 0.02) Hx HH))).
Defined.
